(** * A ray tracer in two versions: the code and its properties

    The repository holds two versions of one renderer in [src/main.c]:
    - the C version ("Policy A"): Whitted-style transport with analytic
      lights, reflection and refraction ([cast_ray]);
    - the C++ version ("Policy B"): stochastic diffuse transport
      ([raytrace]) over a polymorphic [hittable] world.

    Both compute on C [float]s.  The code is embedded once, over an
    interface of float operations, and read at two instances:
    - [binary32]: IEEE 754 single precision, bit for bit, from the
      Standard Library's [SpecFloat] with [prec = 24] and [emax = 128];
    - [exact]: every operation is the exact real one.  It is used only to
      say what the two formulas of [vec3_refract] compute when nothing is
      rounded; every other statement is about [binary32] or about every
      float model.

    [powf] belongs to the C library and is not part of the repository; it
    is a parameter of both instances. *)

From Stdlib Require Import ZArith Bool List Lia Permutation.
From Stdlib Require Import Floats.SpecFloat.
From Stdlib Require Import Reals Lra Psatz.
Import ListNotations.

(** ** The float operations the code uses *)

Class FloatModel : Type := {
  fl : Type;
  fadd : fl -> fl -> fl;
  fsub : fl -> fl -> fl;
  fmul : fl -> fl -> fl;
  fdiv : fl -> fl -> fl;
  fneg : fl -> fl;
  sqrtf : fl -> fl;
  flt : fl -> fl -> bool;
  fle : fl -> fl -> bool;
  of_Z : Z -> fl;
  FLT_MAX : fl;
  powf : fl -> fl -> fl
}.

(** [std::numeric_limits<float>::infinity()], used by the C++ version only. *)
Class HasInfinity (FM : FloatModel) : Type := { infinity : fl }.

Declare Scope fl_scope.
Delimit Scope fl_scope with fl.
Bind Scope fl_scope with fl.
Notation "a + b" := (fadd a b) : fl_scope.
Notation "a - b" := (fsub a b) : fl_scope.
Notation "a * b" := (fmul a b) : fl_scope.
Notation "a / b" := (fdiv a b) : fl_scope.
Notation "- a" := (fneg a) : fl_scope.
Notation "a <? b" := (flt a b) : fl_scope.
Notation "a >? b" := (flt b a) (only parsing) : fl_scope.
Notation "a <=? b" := (fle a b) : fl_scope.
Notation "a >=? b" := (fle b a) (only parsing) : fl_scope.
(** An integer constant of the source, converted to [float]. *)
Notation "# n" := (of_Z n%Z) (at level 1, n at level 0, format "# n") : fl_scope.

(** A decimal literal [n/d] such as [0.2f] = [decimal 2 10]: numerator and
    denominator are exact floats, so the rounded quotient is the literal. *)
Definition decimal {FM : FloatModel} (n d : Z) : fl := (#n / #d)%fl.

(** Three floats: [struct vec3] of the C version, [glm::vec3] of the C++
    version. *)
Record vec3 {FM : FloatModel} : Type := Vec3 { x : fl; y : fl; z : fl }.
Arguments Vec3 {FM} _ _ _.
Arguments x {FM} _.
Arguments y {FM} _.
Arguments z {FM} _.

(** ** IEEE 754 single precision *)

Definition float32 : Type := spec_float.

Definition b32_of_Z (n : Z) : float32 := binary_normalize 24 128 n 0 false.

Definition binary32 (libm_powf : float32 -> float32 -> float32) : FloatModel := {|
  fl := float32;
  fadd := SFadd 24 128;
  fsub := SFsub 24 128;
  fmul := SFmul 24 128;
  fdiv := SFdiv 24 128;
  fneg := SFopp;
  sqrtf := SFsqrt 24 128;
  flt := SFltb;
  fle := SFleb;
  of_Z := b32_of_Z;
  FLT_MAX := SFmax_float 24 128;
  powf := libm_powf
|}.

Definition binary32_infinity (libm_powf : float32 -> float32 -> float32)
  : HasInfinity (binary32 libm_powf) :=
  @Build_HasInfinity (binary32 libm_powf) (S754_infinity false).

(** A reference [powf] for running the code: the correctly rounded square
    for the exponent 2, the only exponent [vec3_length], the intersection
    tests and [vec3_refract] use; NaN elsewhere (the specular exponent of
    [cast_ray] is never evaluated with it). *)
Definition powf_square (a b : float32) : float32 :=
  if SFeqb b (b32_of_Z 2) then SFmul 24 128 a a else S754_nan.

(** A second reference [powf], for running [cast_ray] with its specular
    exponents: for an exponent that is a positive integer, the product by
    repeated squaring (the rounded square for the exponent 2); NaN
    elsewhere. *)
Definition powf_repeated (a b : float32) : float32 :=
  match b with
  | S754_finite false m e =>
    let n := Z.shiftl (Zpos m) e in
    if SFeqb b (b32_of_Z n) then
      match n with
      | Zpos p => Pos.iter_op (SFmul 24 128) p a
      | _ => S754_nan
      end
    else S754_nan
  | _ => S754_nan
  end.

(** Values that are numbers, finite values, zeros and strictly positive or
    negative values. *)
Definition is_nan (a : float32) : bool :=
  match a with S754_nan => true | _ => false end.

Definition is_finite (a : float32) : bool :=
  match a with S754_zero _ | S754_finite _ _ _ => true | _ => false end.

Definition is_zero (a : float32) : bool :=
  match a with S754_zero _ => true | _ => false end.

Definition is_pos (a : float32) : bool :=
  match a with S754_finite false _ _ | S754_infinity false => true | _ => false end.

Definition is_neg (a : float32) : bool :=
  match a with S754_finite true _ _ | S754_infinity true => true | _ => false end.

(** A binary32 number in the strict sense: [spec_float] also holds
    finite values whose mantissa and exponent are not in canonical form,
    which no float operation returns on values that are. *)
Definition is_binary32 (a : float32) : bool := valid_binary 24 128 a.

(** A finite binary32 number that is not negative. *)
Definition nonnegative_number (a : float32) : Prop :=
  is_finite a = true /\ is_neg a = false /\ is_binary32 a = true.

(** Equal, or zeros of either sign. *)
Definition same_or_zeros (a b : float32) : Prop :=
  a = b \/ (is_zero a = true /\ is_zero b = true).

(** A vector of binary32 numbers. *)
Definition binary32_vector {libm_powf} (v : @vec3 (binary32 libm_powf)) : Prop :=
  is_binary32 (x v) = true /\ is_binary32 (y v) = true /\ is_binary32 (z v) = true.

(** The same value, bit for bit. *)
Definition float32_eqb (a b : float32) : bool :=
  match a, b with
  | S754_zero s, S754_zero s' => Bool.eqb s s'
  | S754_infinity s, S754_infinity s' => Bool.eqb s s'
  | S754_nan, S754_nan => true
  | S754_finite s m e, S754_finite s' m' e' =>
    Bool.eqb s s' && Pos.eqb m m' && Z.eqb e e'
  | _, _ => false
  end.

(** The magnitude of [x] is at most [B * 2^q]. *)
Definition at_most (x : float32) (B q : Z) : Prop :=
  match x with
  | S754_zero _ => True
  | S754_finite _ m e => (e <= q)%Z /\ (Zpos m <= B * 2 ^ (q - e))%Z
  | _ => False
  end.

(** A binary32 number that is not negative and at most one. *)
Definition unit_range (a : float32) : Prop :=
  is_binary32 a = true /\ is_neg a = false /\ at_most a 1 0.


(** ** Exact real arithmetic *)

Definition exact (real_powf : R -> R -> R) : FloatModel := {|
  fl := R;
  fadd := Rplus;
  fsub := Rminus;
  fmul := Rmult;
  fdiv := Rdiv;
  fneg := Ropp;
  sqrtf := sqrt;
  flt := fun a b => if Rlt_dec a b then true else false;
  fle := fun a b => if Rle_dec a b then true else false;
  of_Z := IZR;
  FLT_MAX := IZR (16777215 * 2 ^ 104);
  powf := real_powf
|}.

(** A reference [powf] for the exact instance: the square for the
    exponent 2, and [x^y = exp (y ln x)] elsewhere. *)
Definition powf_real (a b : R) : R :=
  if Req_dec_T b 2 then (a * a)%R else Rpower a b.

(** ** The conversion of a [float] to [uint8_t]

    Both versions store a channel with the cast [(uint8_t)(0xff * c)]: the
    value is truncated toward zero, and where the truncated value is not
    in 0..255 the C and C++ standards leave the behaviour undefined, which
    is [None] here. *)
Class ByteConversion (FM : FloatModel) : Type := { to_uint8 : fl -> option Z }.

Definition b32_to_uint8 (a : float32) : option Z :=
  match a with
  | S754_zero _ => Some 0%Z
  | S754_finite s m e =>
    let t := Z.shiftl (Zpos m) e in
    if s then (if (t =? 0)%Z then Some 0%Z else None)
    else if (t <=? 255)%Z then Some t else None
  | _ => None
  end.

Definition binary32_bytes (libm_powf : float32 -> float32 -> float32)
  : ByteConversion (binary32 libm_powf) :=
  @Build_ByteConversion (binary32 libm_powf) b32_to_uint8.

(** ** The C version: Whitted-style transport *)

Module PolicyA.
Section Code.
Context {FM : FloatModel}.
Open Scope fl_scope.

Definition vec3_length (v : vec3) : fl :=
  sqrtf (powf (x v) #2 + powf (y v) #2 + powf (z v) #2).

Definition vec3_normalize (v : vec3) : vec3 :=
  let length := vec3_length v in
  Vec3 (x v / length) (y v / length) (z v / length).

Definition vec3_dot (a b : vec3) : fl :=
  x a * x b + y a * y b + z a * z b.

Definition vec3_inverse (v : vec3) : vec3 :=
  Vec3 (- x v) (- y v) (- z v).

Definition vec3_reflect (I N : vec3) : vec3 :=
  let dot := vec3_dot I N in
  Vec3 (x I - x N * #2 * dot) (y I - y N * #2 * dot) (z I - z N * #2 * dot).

(** Modelled from the spec: the macros [max] and [min], which [main.c] uses
    but does not declare; they are the usual comparison macros
    [((a) > (b)) ? (a) : (b)] and [((a) < (b)) ? (a) : (b)]. *)
Definition max (a b : fl) : fl := if a >? b then a else b.
Definition min (a b : fl) : fl := if a <? b then a else b.

(** [vec3_refract] calls itself; [fuel] bounds the depth of that call
    chain, and [None] means the bound was reached. *)
Fixpoint vec3_refract (fuel : nat) (I N : vec3) (eta_t eta_i : fl) : option vec3 :=
  match fuel with
  | O => None
  | S fuel' =>
    let cosi := - max #(-1) (min #1 (vec3_dot I N)) in
    if cosi <? #0 then vec3_refract fuel' I (vec3_inverse N) eta_i eta_t
    else
      let eta := eta_i / eta_t in
      let k := #1 - powf eta #2 * (#1 - powf cosi #2) in
      Some (Vec3
        (if k <? #0 then #1 else x I * eta + x N * (eta * cosi - sqrtf k))
        (if k <? #0 then #0 else y I * eta + y N * (eta * cosi - sqrtf k))
        (if k <? #0 then #0 else z I * eta + z N * (eta * cosi - sqrtf k)))
  end.

(** [struct vec4]; its fields are [x], [y], [z], [w] in the source. *)
Record vec4 : Type := Vec4 { x4 : fl; y4 : fl; z4 : fl; w4 : fl }.

Record material : Type := Material {
  albedo : vec4;
  diffuse : vec3;
  specular_exponent : fl;
  refractive_index : fl
}.

(** The source holds a pointer to a material that nothing writes after the
    scene is built; the model holds the material. *)
Record sphere : Type := Sphere {
  center : vec3;
  radius : fl;
  sphere_material : material
}.

(** Returns [Some t0] where the source returns [true] with [*t0] set. *)
Definition sphere_ray_intersect (s : sphere) (origin direction : vec3) : option fl :=
  let L := Vec3 (x (center s) - x origin) (y (center s) - y origin)
                (z (center s) - z origin) in
  let tca := vec3_dot L direction in
  let d2 := vec3_dot L L - powf tca #2 in
  if d2 >? powf (radius s) #2 then None
  else
    let thc := sqrtf (powf (radius s) #2 - d2) in
    let t0 := tca - thc in
    let t1 := tca + thc in
    let t0 := if t0 <? #0 then t1 else t0 in
    if t0 <? #0 then None else Some t0.

Record light : Type := Light { position : vec3; intensity : fl }.

(** What the output parameters [hit], [N] and [material] hold. *)
Record scene_out : Type := SceneOut {
  out_hit : vec3;
  out_N : vec3;
  out_material : material
}.

(** The record [scene_intersect] writes for sphere [s] hit at [dist_i]. *)
Definition scene_record (origin direction : vec3) (s : sphere) (dist_i : fl)
  : scene_out :=
  let hit := Vec3 (x origin + x direction * dist_i)
                  (y origin + y direction * dist_i)
                  (z origin + z direction * dist_i) in
  let N := Vec3 (x hit - x (center s)) (y hit - y (center s))
                (z hit - z (center s)) in
  SceneOut hit (vec3_normalize N) (sphere_material s).

(** One iteration of the loop of [scene_intersect] on sphere [s], from
    the current [spheres_dist] and output parameters. *)
Definition scene_step (origin direction : vec3) (st : fl * option scene_out)
    (s : sphere) : fl * option scene_out :=
  let '(spheres_dist, out) := st in
  match sphere_ray_intersect s origin direction with
  | Some dist_i =>
    if dist_i <? spheres_dist then
      (dist_i, Some (scene_record origin direction s dist_i))
    else st
  | None => st
  end.

Definition scene_loop (origin direction : vec3) (spheres : list sphere)
  : fl * option scene_out :=
  fold_left (scene_step origin direction) spheres (FLT_MAX, None).

(** [Some out] where the source returns [true]: the caller then reads the
    output parameters; [None] where it returns [false]. *)
Definition scene_intersect (origin direction : vec3) (spheres : list sphere)
  : option scene_out :=
  let '(spheres_dist, out) := scene_loop origin direction spheres in
  if spheres_dist <? #1000 then out else None.

(** The expression the source writes out for [reflect_origin],
    [refract_origin] and [shadow_origin]: the point moved by [1e-3] along
    or against the normal. *)
Definition offset_origin (dir point N : vec3) : vec3 :=
  Vec3 (if vec3_dot dir N <? #0 then x point - x N * decimal 1 1000
        else x point + x N * decimal 1 1000)
       (if vec3_dot dir N <? #0 then y point - y N * decimal 1 1000
        else y point + y N * decimal 1 1000)
       (if vec3_dot dir N <? #0 then z point - z N * decimal 1 1000
        else z point + z N * decimal 1 1000).

(** One iteration of the loop over the lights, from the current
    [diffuse_light_intensity] and [specular_light_intensity]. *)
Definition light_step (direction point N : vec3) (m : material)
    (spheres : list sphere) (acc : fl * fl) (l : light) : fl * fl :=
  let '(diffuse_light_intensity, specular_light_intensity) := acc in
  let light_direction := Vec3 (x (position l) - x point) (y (position l) - y point)
                              (z (position l) - z point) in
  let light_distance := vec3_length light_direction in
  let light_direction := vec3_normalize light_direction in
  let shadow_origin := offset_origin light_direction point N in
  let lit :=
    (diffuse_light_intensity
       + max #0 (vec3_dot light_direction N) * intensity l,
     specular_light_intensity
       + powf (max #0 (vec3_dot (vec3_reflect light_direction N) direction))
              (specular_exponent m) * intensity l) in
  match scene_intersect shadow_origin light_direction spheres with
  | Some shadow =>
    let shadow_diff := Vec3 (x (out_hit shadow) - x shadow_origin)
                            (y (out_hit shadow) - y shadow_origin)
                            (z (out_hit shadow) - z shadow_origin) in
    if vec3_length shadow_diff <? light_distance then acc else lit
  | None => lit
  end.

Definition background : vec3 := Vec3 (decimal 2 10) (decimal 7 10) (decimal 8 10).

(** [depth] is an [unsigned int]: [depth + 1] wraps at [2^32]. [fuel]
    bounds the depth of the call chain ([cast_ray] and [vec3_refract]). *)
Fixpoint cast_ray (fuel : nat) (origin direction : vec3) (spheres : list sphere)
    (lights : list light) (depth : Z) : option vec3 :=
  match fuel with
  | O => None
  | S fuel' =>
    match (if (depth <=? 4)%Z then scene_intersect origin direction spheres
           else None) with
    | Some (SceneOut point N m) =>
      let reflect_direction := vec3_normalize (vec3_reflect direction N) in
      let reflect_origin := offset_origin reflect_direction point N in
      match cast_ray fuel' reflect_origin reflect_direction spheres lights
                     ((depth + 1) mod 2 ^ 32)%Z with
      | None => None
      | Some reflect_color =>
        match vec3_refract fuel' direction N (refractive_index m) #1 with
        | None => None
        | Some refracted =>
          let refract_direction := vec3_normalize refracted in
          let refract_origin := offset_origin refract_direction point N in
          match cast_ray fuel' refract_origin refract_direction spheres lights
                         ((depth + 1) mod 2 ^ 32)%Z with
          | None => None
          | Some refract_color =>
            let '(diffuse_light_intensity, specular_light_intensity) :=
              fold_left (light_step direction point N m spheres) lights (#0, #0) in
            Some (Vec3
              (x (diffuse m) * diffuse_light_intensity * x4 (albedo m)
                 + specular_light_intensity * y4 (albedo m)
                 + x reflect_color * z4 (albedo m)
                 + x refract_color * w4 (albedo m))
              (y (diffuse m) * diffuse_light_intensity * x4 (albedo m)
                 + specular_light_intensity * y4 (albedo m)
                 + y reflect_color * z4 (albedo m)
                 + y refract_color * w4 (albedo m))
              (z (diffuse m) * diffuse_light_intensity * x4 (albedo m)
                 + specular_light_intensity * y4 (albedo m)
                 + z reflect_color * z4 (albedo m)
                 + z refract_color * w4 (albedo m)))
          end
        end
      end
    | None => Some background
    end
  end.

(** Sphere [s] is intersected at distance [t], and no sphere of the scene
    is intersected strictly nearer. *)
Definition nearest_intersection (origin direction : vec3) (spheres : list sphere)
    (s : sphere) (t : fl) : Prop :=
  In s spheres /\ sphere_ray_intersect s origin direction = Some t /\
  forall s' t', In s' spheres ->
    sphere_ray_intersect s' origin direction = Some t' -> (t' <? t) = false.

(** Spheres of [l] intersected at equal distances give equal records. *)
Definition no_ties (origin direction : vec3) (l : list sphere) : Prop :=
  forall s1 s2 t1 t2, In s1 l -> In s2 l ->
    sphere_ray_intersect s1 origin direction = Some t1 ->
    sphere_ray_intersect s2 origin direction = Some t2 ->
    (t1 <=? t2) = true -> (t2 <=? t1) = true ->
    scene_record origin direction s1 t1 = scene_record origin direction s2 t2.

(** The scene [main] builds. *)
Definition ivory : material :=
  Material (Vec4 (decimal 6 10) (decimal 3 10) (decimal 1 10) #0)
           (Vec3 (decimal 4 10) (decimal 4 10) (decimal 3 10)) #50 #1.
Definition glass : material :=
  Material (Vec4 #0 (decimal 5 10) (decimal 1 10) (decimal 8 10))
           (Vec3 (decimal 6 10) (decimal 7 10) (decimal 8 10)) #125 (decimal 15 10).
Definition rubber : material :=
  Material (Vec4 (decimal 9 10) (decimal 1 10) #0 #0)
           (Vec3 (decimal 3 10) (decimal 1 10) (decimal 1 10)) #10 #1.
Definition mirror : material :=
  Material (Vec4 #0 #10 (decimal 8 10) #0) (Vec3 #1 #1 #1) #1425 #1.

Definition sphere1 : sphere := Sphere (Vec3 #(-3) #0 #(-16)) #2 ivory.
Definition sphere2 : sphere := Sphere (Vec3 #(-1) (- decimal 15 10) #(-12)) #2 mirror.
Definition sphere3 : sphere :=
  Sphere (Vec3 (decimal 15 10) (- decimal 5 10) #(-18)) #3 rubber.
Definition sphere4 : sphere := Sphere (Vec3 #7 #5 #(-18)) #4 mirror.
Definition spheres : list sphere := [sphere1; sphere2; sphere3; sphere4].

Definition light1 : light := Light (Vec3 #(-20) #20 #20) (decimal 15 10).
Definition light2 : light := Light (Vec3 #30 #50 #(-25)) (decimal 18 10).
Definition light3 : light := Light (Vec3 #30 #20 #30) (decimal 17 10).
Definition lights : list light := [light1; light2; light3].

(** *** The pixel loop of [main] *)

Definition WINDOW_WIDTH : Z := 640.
Definition WINDOW_HEIGHT : Z := 400.

(** The index [x + y * WINDOW_WIDTH] into [pixel_buffer], which holds
    [WINDOW_WIDTH * WINDOW_HEIGHT] pixels; [int] arithmetic. *)
Definition pixel_index (px py : Z) : Z := (px + py * WINDOW_WIDTH)%Z.

Definition pi : fl := decimal 314159 100000.
Definition fov : fl := pi / #3.

(** The direction of the ray through pixel [(px, py)], before it is
    normalized.  [tanf] belongs to the C library. *)
Definition pixel_direction (tanf : fl -> fl) (px py : Z) : vec3 :=
  Vec3 ((#px + decimal 5 10) - #WINDOW_WIDTH / #2)
       (- (#py + decimal 5 10) + #WINDOW_HEIGHT / #2)
       ((- #WINDOW_HEIGHT) / (#2 * tanf (fov / #2))).

(** A colour with a channel above 1 is divided by its largest channel. *)
Definition tone_map (color : vec3) : vec3 :=
  let color_max := max (x color) (max (y color) (z color)) in
  if color_max >? #1 then
    Vec3 (x color / color_max) (y color / color_max) (z color / color_max)
  else color.

(** The bytes [r], [g], [b] written for a colour; [None] where one of the
    three casts is undefined. *)
Definition pixel_bytes {BC : ByteConversion FM} (color : vec3) : option (Z * Z * Z) :=
  let color := tone_map color in
  match to_uint8 (#255 * x color), to_uint8 (#255 * y color),
        to_uint8 (#255 * z color) with
  | Some r, Some g, Some b => Some (r, g, b)
  | _, _, _ => None
  end.

(** No channel of the material and no light intensity is negative. *)
Definition nonnegative_material (m : material) : Prop :=
  (#0 <=? x4 (albedo m)) = true /\ (#0 <=? y4 (albedo m)) = true /\
  (#0 <=? z4 (albedo m)) = true /\ (#0 <=? w4 (albedo m)) = true /\
  (#0 <=? x (diffuse m)) = true /\ (#0 <=? y (diffuse m)) = true /\
  (#0 <=? z (diffuse m)) = true.

Definition nonnegative_light (l : light) : Prop := (#0 <=? intensity l) = true.

End Code.
End PolicyA.

(** ** The C++ version: stochastic diffuse transport *)

(** The random source: [std::uniform_real_distribution<float>] over a
    [std::mt19937], both of the C++ library and both [static] in
    [random_float()].  The model passes the generator state; [next_float]
    is one call of [distribution(generator)]. *)
Class RandomSource (FM : FloatModel) : Type := {
  rng : Type;
  next_float : rng -> fl * rng
}.

(** GLM is a library outside the repository; these are the operations of
    [glm::vec3] the code uses, componentwise, and [glm::normalize], which
    multiplies by [inversesqrt (dot v v)]. *)
Module glm.
Section Ops.
Context {FM : FloatModel}.
Open Scope fl_scope.

Definition add (a b : vec3) : vec3 := Vec3 (x a + x b) (y a + y b) (z a + z b).
Definition sub (a b : vec3) : vec3 := Vec3 (x a - x b) (y a - y b) (z a - z b).
Definition neg (a : vec3) : vec3 := Vec3 (- x a) (- y a) (- z a).
Definition scale (s : fl) (a : vec3) : vec3 := Vec3 (s * x a) (s * y a) (s * z a).
Definition mul_scalar (a : vec3) (s : fl) : vec3 := Vec3 (x a * s) (y a * s) (z a * s).
Definition div_scalar (a : vec3) (s : fl) : vec3 := Vec3 (x a / s) (y a / s) (z a / s).
Definition dot (a b : vec3) : fl := x a * x b + y a * y b + z a * z b.
Definition inversesqrt (a : fl) : fl := #1 / sqrtf a.
Definition normalize (a : vec3) : vec3 := mul_scalar a (inversesqrt (dot a a)).

(** [glm::min], [glm::max] and [glm::clamp] on [float], as GLM documents
    them: [min] returns [b] if [b < a], otherwise [a]; [max] returns [b] if
    [a < b], otherwise [a]; [clamp] is [min (max x minVal) maxVal]. *)
Definition min (a b : fl) : fl := if b <? a then b else a.
Definition max (a b : fl) : fl := if a <? b then b else a.
Definition clamp (a minVal maxVal : fl) : fl := min (max a minVal) maxVal.

End Ops.
End glm.

Module PolicyB.
Section Code.
Context {FM : FloatModel} {FI : HasInfinity FM} {RS : RandomSource FM}.
Open Scope fl_scope.

Definition max_depth : Z := 50.

(** [random_float()] *)
Definition random_float (g : rng) : fl * rng := next_float g.

(** [random_float(min, max)] *)
Definition random_float_in (min max : fl) (g : rng) : fl * rng :=
  let '(r, g) := random_float g in (min + (max - min) * r, g).

(** [random_vec3(min, max)]; the three draws are taken in the order of the
    components. *)
Definition random_vec3_in (min max : fl) (g : rng) : vec3 * rng :=
  let '(a, g) := random_float_in min max g in
  let '(b, g) := random_float_in min max g in
  let '(c, g) := random_float_in min max g in
  (Vec3 a b c, g).



(** The loop [while (true)] of the source: one unit of [fuel] per
    iteration, [None] when the fuel runs out before a point is accepted. *)
Fixpoint random_in_unit_sphere (fuel : nat) (g : rng) : option (vec3 * rng) :=
  match fuel with
  | O => None
  | S fuel' =>
    let '(p, g) := random_vec3_in #(-1) #1 g in
    if glm.dot p p >=? #1 then random_in_unit_sphere fuel' g
    else Some (p, g)
  end.

Definition random_unit_vector (fuel : nat) (g : rng) : option (vec3 * rng) :=
  match random_in_unit_sphere fuel g with
  | Some (p, g) => Some (glm.normalize p, g)
  | None => None
  end.

Record ray : Type := Ray { origin : vec3; direction : vec3 }.

Definition at_ (r : ray) (t : fl) : vec3 :=
  glm.add (origin r) (glm.scale t (direction r)).

Record hit_record : Type := HitRecord {
  distance : fl;
  point : vec3;
  normal : vec3;
  front_face : bool
}.

Definition set_face_normal (record : hit_record) (r : ray) (outward_normal : vec3)
  : hit_record :=
  let front_face := glm.dot (direction r) outward_normal <? #0 in
  HitRecord (distance record) (point record)
            (if front_face then outward_normal else glm.neg outward_normal)
            front_face.

(** The abstract class [hittable]: [hit] returns [Some record] where the
    source returns [true] and has written [record]. *)
Record hittable : Type := Hittable {
  hit : ray -> fl -> fl -> option hit_record
}.

(** One iteration of the loop of [world::hit]; [hit_anything] is true
    exactly when a record is held. *)
Definition world_step (r : ray) (t_min : fl) (st : fl * option hit_record)
    (object : hittable) : fl * option hit_record :=
  let '(closest_so_far, record) := st in
  match hit object r t_min closest_so_far with
  | Some temp_record => (distance temp_record, Some temp_record)
  | None => st
  end.

Definition world_hit (objects : list hittable) (r : ray) (t_min t_max : fl)
  : option hit_record :=
  snd (fold_left (world_step r t_min) objects (t_max, None)).

Definition world (objects : list hittable) : hittable :=
  Hittable (world_hit objects).

Record sphere : Type := Sphere { center : vec3; radius : fl }.

(** The discriminant [sphere::hit] computes. *)
Definition discriminant (s : sphere) (r : ray) : fl :=
  let oc := glm.sub (origin r) (center s) in
  let a := glm.dot (direction r) (direction r) in
  let half_b := glm.dot oc (direction r) in
  let c := glm.dot oc oc - powf (radius s) #2 in
  powf half_b #2 - a * c.

(** The two roots [sphere::hit] tries, in the order it tries them, when
    the discriminant is not negative. *)
Definition sphere_roots (s : sphere) (r : ray) : option (fl * fl) :=
  let oc := glm.sub (origin r) (center s) in
  let a := glm.dot (direction r) (direction r) in
  let half_b := glm.dot oc (direction r) in
  if discriminant s r <? #0 then None
  else
    let sqrtd := sqrtf (discriminant s r) in
    Some ((- half_b - sqrtd) / a, (- half_b + sqrtd) / a).

(** The record [sphere::hit] writes for an accepted root. *)
Definition sphere_record (s : sphere) (r : ray) (root : fl) : hit_record :=
  let p := at_ r root in
  set_face_normal (HitRecord root p p false) r
                  (glm.div_scalar (glm.sub p (center s)) (radius s)).

Definition sphere_hit (s : sphere) (r : ray) (t_min t_max : fl) : option hit_record :=
  match sphere_roots s r with
  | None => None
  | Some (root1, root2) =>
    if (root1 <? t_min) || (t_max <? root1) then
      if (root2 <? t_min) || (t_max <? root2) then None
      else Some (sphere_record s r root2)
    else Some (sphere_record s r root1)
  end.

Definition sphere_hittable (s : sphere) : hittable := Hittable (sphere_hit s).

(** The two roots computed for [s] are numbers in increasing order. *)
Definition ordered_roots (s : sphere) (r : ray) : Prop :=
  forall root1 root2, sphere_roots s r = Some (root1, root2) ->
                      (root1 <=? root2) = true.

(** Spheres of [l] hit at equal distances give equal records. *)
Definition no_ties (r : ray) (t_min t_max : fl) (l : list sphere) : Prop :=
  forall s1 s2 rho1 rho2, In s1 l -> In s2 l ->
    sphere_hit s1 r t_min t_max = Some rho1 ->
    sphere_hit s2 r t_min t_max = Some rho2 ->
    (distance rho1 <=? distance rho2) = true ->
    (distance rho2 <=? distance rho1) = true -> rho1 = rho2.

Record camera : Type := Camera {
  cam_origin : vec3;
  horizontal : vec3;
  vertical : vec3;
  lower_left : vec3
}.

Definition get_ray (c : camera) (u v : fl) : ray :=
  Ray (cam_origin c)
      (glm.sub (glm.add (glm.add (lower_left c) (glm.scale u (horizontal c)))
                        (glm.scale v (vertical c)))
               (cam_origin c)).

(** The background of a ray that hits nothing. *)
Definition sky (r : ray) : vec3 :=
  let unit_direction := glm.normalize (direction r) in
  let t := decimal 5 10 * (y unit_direction + #1) in
  glm.add (glm.scale (#1 - t) (Vec3 #1 #1 #1))
          (glm.scale t (Vec3 (decimal 5 10) (decimal 7 10) #1)).

(** [depth] is an [int]; [depth - 1] is taken only when [depth > 0].
    [fuel] bounds the depth of the call chain and the iterations of the
    rejection loop below it. *)
Fixpoint raytrace (fuel : nat) (r : ray) (world : hittable) (depth : Z) (g : rng)
  : option (vec3 * rng) :=
  match fuel with
  | O => None
  | S fuel' =>
    if (depth <=? 0)%Z then Some (Vec3 #0 #0 #0, g)
    else
      match hit world r (decimal 1 1000) infinity with
      | Some record =>
        match random_unit_vector fuel' g with
        | None => None
        | Some (u, g) =>
          let target := glm.add (glm.add (point record) (normal record)) u in
          match raytrace fuel' (Ray (point record) (glm.sub target (point record)))
                         world (depth - 1) g with
          | None => None
          | Some (c, g) => Some (glm.scale (decimal 5 10) c, g)
          end
        end
      | None => Some (sky r, g)
      end
  end.

(** The ray [raytrace] follows after a hit at [record], for the unit
    vector [u] it has drawn: from the hit point toward [target]. *)
Definition scattered_ray (record : hit_record) (u : vec3) : ray :=
  Ray (point record)
      (glm.sub (glm.add (glm.add (point record) (normal record)) u) (point record)).

Definition window_width : Z := 640.
Definition window_height : Z := 400.

(** The constructor [camera()]. *)
Definition camera_init : camera :=
  let aspect_ratio := #window_width / #window_height in
  let viewport_height := #2 in
  let viewport_width := aspect_ratio * viewport_height in
  let focal_length := #1 in
  let origin := Vec3 #0 #0 #0 in
  let horizontal := Vec3 viewport_width #0 #0 in
  let vertical := Vec3 #0 viewport_height #0 in
  Camera origin horizontal vertical
         (glm.sub (glm.sub (glm.sub origin (glm.mul_scalar horizontal (decimal 5 10)))
                           (glm.mul_scalar vertical (decimal 5 10)))
                  (Vec3 #0 #0 focal_length)).

(** One sample of pixel [(px, py)] in the loop of [main]: the jittered
    coordinates [u] and [v], the camera ray and its colour.  [main] passes
    the constant [max_depth]; it is a parameter here. *)
Definition pixel_sample (fuel : nat) (cam : camera) (world : hittable)
    (max_depth : Z) (px py : Z) (g : rng) : option (vec3 * rng) :=
  let '(jx, g) := random_float g in
  let u := (#px + jx) / #(window_width - 1) in
  let '(jy, g) := random_float g in
  let v := (#window_height - (#py + jy)) / #(window_height - 1) in
  raytrace fuel (get_ray cam u v) world max_depth g.

(** The scene [main] builds. *)
Definition main_world : hittable :=
  world [sphere_hittable (Sphere (Vec3 #0 #0 #(-1)) (decimal 5 10));
         sphere_hittable (Sphere (Vec3 #0 (- decimal 1005 10) #(-1)) #100)].

(** *** The pixel loop of [main] *)

Definition samples_per_pixel : Z := 100.

(** The jittered coordinates of one sample of pixel [(px, py)]. *)
Definition sample_u (px : Z) (jitter : fl) : fl := (#px + jitter) / #(window_width - 1).
Definition sample_v (py : Z) (jitter : fl) : fl :=
  (#window_height - (#py + jitter)) / #(window_height - 1).

(** The loop over the samples of one pixel: [s] iterations left, [color]
    the sum so far. *)
Fixpoint sample_loop (fuel : nat) (cam : camera) (world : hittable) (max_depth : Z)
    (px py : Z) (s : nat) (color : vec3) (g : rng) : option (vec3 * rng) :=
  match s with
  | O => Some (color, g)
  | S s' =>
    match pixel_sample fuel cam world max_depth px py g with
    | None => None
    | Some (c, g) => sample_loop fuel cam world max_depth px py s' (glm.add color c) g
    end
  end.

(** One channel of the summed colour: averaged, gamma-corrected by the
    square root, clamped and cast. *)
Definition pixel_channel {BC : ByteConversion FM} (c : fl) : option Z :=
  let scale := #1 / #samples_per_pixel in
  to_uint8 (#255 * glm.clamp (sqrtf (c * scale)) #0 (decimal 999 1000)).

Definition pixel_bytes {BC : ByteConversion FM} (color : vec3) : option (Z * Z * Z) :=
  match pixel_channel (x color), pixel_channel (y color), pixel_channel (z color) with
  | Some r, Some g, Some b => Some (r, g, b)
  | _, _, _ => None
  end.

(** The index [x + y * window_width] into [pixels], which holds
    [window_width * window_height] pixels; [int] arithmetic. *)
Definition pixel_index (px py : Z) : Z := (px + py * window_width)%Z.

End Code.
End PolicyB.

(** ** A random source for running the C++ version

    The generator belongs to the C++ library and is a parameter of the
    model.  To run the code, a source that returns 0.5 at every call: the
    candidate point of [random_in_unit_sphere] is then the centre of the
    ball. *)
Definition steady_source : RandomSource (binary32 powf_square) :=
  @Build_RandomSource (binary32 powf_square) unit
    (fun g => (@decimal (binary32 powf_square) 5 10, g)).


(** * Properties *)

(** ** The order of binary32 values *)

Ltac cmp_cases :=
  repeat match goal with
  | |- context [Z.compare ?a ?b] => destruct (Z.compare_spec a b)
  | H : context [Z.compare ?a ?b] |- _ => destruct (Z.compare_spec a b)
  | |- context [Pos.compare ?a ?b] => destruct (Pos.compare_spec a b)
  | H : context [Pos.compare ?a ?b] |- _ => destruct (Pos.compare_spec a b)
  end.

(** Case analysis on the values, then on the comparisons of exponents and
    mantissas. *)
Ltac sf_order :=
  unfold SFltb, SFleb, SFeqb, SFcompare, is_nan;
  repeat match goal with
  | a : float32 |- _ => destruct a as [[]|[]| |[] ? ?]
  | a : spec_float |- _ => destruct a as [[]|[]| |[] ? ?]
  end;
  change (Pos.compare_cont Eq) with Pos.compare;
  simpl; intros; try reflexivity; try discriminate; try congruence;
  cmp_cases; simpl in *; try reflexivity; try discriminate; try congruence; try lia.

Lemma SFltb_trans (a b c : float32) :
  SFltb a b = true -> SFltb b c = true -> SFltb a c = true.
Proof. sf_order. Qed.

Lemma SFleb_trans (a b c : float32) :
  SFleb a b = true -> SFleb b c = true -> SFleb a c = true.
Proof. sf_order. Qed.

Lemma SFleb_ltb_trans (a b c : float32) :
  SFleb a b = true -> SFltb b c = true -> SFltb a c = true.
Proof. sf_order. Qed.

Lemma SFltb_leb_trans (a b c : float32) :
  SFltb a b = true -> SFleb b c = true -> SFltb a c = true.
Proof. sf_order. Qed.

Lemma SFltb_leb (a b : float32) : SFltb a b = true -> SFleb a b = true.
Proof. sf_order. Qed.

Lemma SFltb_total (a b : float32) :
  SFltb a b = false -> is_nan a = false -> is_nan b = false -> SFleb b a = true.
Proof. sf_order. Qed.

Lemma SFleb_not_ltb (a b : float32) : SFleb a b = true -> SFltb b a = false.
Proof. sf_order. Qed.

Lemma SFleb_antisym (a b : float32) :
  SFleb a b = true -> SFleb b a = true -> SFeqb a b = true.
Proof. sf_order. Qed.

Lemma SFltb_number (a b : float32) :
  SFltb a b = true -> is_nan a = false /\ is_nan b = false.
Proof. sf_order; auto. Qed.

Lemma SFleb_number (a b : float32) :
  SFleb a b = true -> is_nan a = false /\ is_nan b = false.
Proof. sf_order; auto. Qed.

Lemma SFleb_refl (a : float32) : is_nan a = false -> SFleb a a = true.
Proof. sf_order. Qed.

(** ** Negation in binary32

    Rounding does not look at the sign: negating an operand of a product,
    or both operands of a sum, negates the result, up to the sign of a
    zero sum. *)

Lemma binary_round_aux_opp p e s m ex l :
  binary_round_aux p e (negb s) m ex l = SFopp (binary_round_aux p e s m ex l).
Proof.
  unfold binary_round_aux.
  destruct (shr_fexp p e m ex l) as [mrs' e'].
  destruct (shr_fexp p e _ e' loc_Exact) as [mrs'' e''].
  destruct (shr_m mrs''); try reflexivity.
  destruct (e'' <=? e - p)%Z; reflexivity.
Qed.

Lemma binary_round_opp p e s m ex :
  binary_round p e (negb s) m ex = SFopp (binary_round p e s m ex).
Proof.
  unfold binary_round. destruct (shl_align _ _ _). apply binary_round_aux_opp.
Qed.

Lemma SFmul_opp_r p e a b : SFmul p e a (SFopp b) = SFopp (SFmul p e a b).
Proof.
  destruct a as [sa|sa| |sa ma ea], b as [sb|sb| |sb mb eb]; simpl;
    try reflexivity; try (now destruct sa, sb).
  replace (xorb sa (negb sb)) with (negb (xorb sa sb)) by (now destruct sa, sb).
  apply binary_round_aux_opp.
Qed.

Lemma binary_normalize_opp p e m ex sz :
  same_or_zeros (binary_normalize p e (- m) ex sz)
                (SFopp (binary_normalize p e m ex sz)).
Proof.
  destruct m as [|q|q]; simpl.
  - right. split; reflexivity.
  - left. apply (binary_round_opp p e false).
  - left. rewrite (binary_round_opp p e true). simpl.
    now destruct (binary_round p e true q ex) as [[]|[]| |[] ? ?].
Qed.

Lemma cond_Zopp_negb s m : cond_Zopp (negb s) m = (- cond_Zopp s m)%Z.
Proof. destruct s; simpl; lia. Qed.

Lemma SFadd_opp p e a b :
  same_or_zeros (SFadd p e (SFopp a) (SFopp b)) (SFopp (SFadd p e a b)).
Proof.
  destruct a as [sa|sa| |sa ma ea], b as [sb|sb| |sb mb eb]; simpl;
    try (left; reflexivity);
    try (destruct sa, sb; simpl; (left; reflexivity) || (right; split; reflexivity)).
  rewrite !cond_Zopp_negb, <- Z.opp_add_distr.
  apply binary_normalize_opp.
Qed.

Lemma SFadd_same_or_zeros_l p e a a' b :
  same_or_zeros a a' -> same_or_zeros (SFadd p e a b) (SFadd p e a' b).
Proof.
  intros [-> | [Ha Ha']]; [now left|].
  destruct a as [sa|sa| |sa ma ea]; try discriminate.
  destruct a' as [sa'|sa'| |sa' ma' ea']; try discriminate.
  destruct b as [sb|sb| |sb mb eb]; simpl; try (left; reflexivity).
  right. destruct sa, sa', sb; split; reflexivity.
Qed.

Lemma same_or_zeros_trans a b c :
  same_or_zeros a b -> same_or_zeros b c -> same_or_zeros a c.
Proof.
  intros [-> | [Ha Hb]] [-> | [Hb' Hc]]; try (now left); right; auto.
Qed.

Lemma same_or_zeros_neg a b :
  same_or_zeros a (SFopp b) -> is_pos b = true -> is_neg a = true.
Proof.
  intros [-> | [_ Hz]] Hb.
  - now destruct b as [[]|[]| |[] ? ?].
  - now destruct b as [[]|[]| |[] ? ?].
Qed.


(** ** Rounding in binary32

    What [binary_round_aux], the rounding step of every operation,
    returns, in terms of integers: the value it returns is at most one
    unit in the last place above the exact value. *)

Lemma digits2_pos_bounds (p : positive) :
  (2 ^ (Zpos (digits2_pos p) - 1) <= Zpos p < 2 ^ Zpos (digits2_pos p))%Z.
Proof.
  induction p as [p IH|p IH|]; cbn [digits2_pos].
  - rewrite Pos2Z.inj_succ. replace (Z.succ (Zpos (digits2_pos p)) - 1)%Z
      with (Z.succ (Zpos (digits2_pos p) - 1)) by lia.
    rewrite !Z.pow_succ_r by lia. lia.
  - rewrite Pos2Z.inj_succ. replace (Z.succ (Zpos (digits2_pos p)) - 1)%Z
      with (Z.succ (Zpos (digits2_pos p) - 1)) by lia.
    rewrite !Z.pow_succ_r by lia. lia.
  - cbn. lia.
Qed.

Lemma Zdigits2_le_of_lt (m k : Z) :
  (0 <= m)%Z -> (0 <= k)%Z -> (m < 2 ^ k)%Z -> (Zdigits2 m <= k)%Z.
Proof.
  intros Hm Hk H. destruct m as [|p|p]; [cbn; lia| |lia].
  cbn [Zdigits2]. destruct (digits2_pos_bounds p) as [Hlo _].
  destruct (Z_le_gt_dec (Zpos (digits2_pos p)) k) as [|Hgt]; [assumption|].
  assert (Hle : (2 ^ k <= 2 ^ (Zpos (digits2_pos p) - 1))%Z)
    by (apply Z.pow_le_mono_r; lia).
  lia.
Qed.

Lemma shr_1_m mrs : (0 <= shr_m mrs)%Z -> shr_m (shr_1 mrs) = (shr_m mrs / 2)%Z.
Proof.
  destruct mrs as [m r s]. cbn [shr_m]. intros Hm. unfold shr_1.
  destruct m as [|p|p]; [reflexivity| |lia].
  destruct p as [p|p|]; cbn [shr_m].
  - rewrite Pos2Z.inj_xI. apply Z.div_unique with 1%Z; lia.
  - rewrite Pos2Z.inj_xO. apply Z.div_unique with 0%Z; lia.
  - reflexivity.
Qed.

Lemma iter_pos_shr_m p :
  forall mrs, (0 <= shr_m mrs)%Z ->
    shr_m (@SpecFloat.iter_pos _ shr_1 p mrs) = (shr_m mrs / 2 ^ Zpos p)%Z.
Proof.
  assert (Hnn : forall a k, (0 <= a)%Z -> (0 <= a / 2 ^ Zpos k)%Z).
  { intros a k Ha. apply Z.div_pos; [exact Ha|]. apply Z.pow_pos_nonneg; lia. }
  assert (Hxo : forall k, (2 ^ Zpos k~0 = 2 ^ Zpos k * 2 ^ Zpos k)%Z).
  { intros k. replace (Zpos k~0) with (Zpos k + Zpos k)%Z by lia.
    apply Z.pow_add_r; lia. }
  assert (Hxi : forall k, (2 ^ Zpos k~1 = 2 * (2 ^ Zpos k * 2 ^ Zpos k))%Z).
  { intros k. replace (Zpos k~1) with (1 + (Zpos k + Zpos k))%Z by lia.
    rewrite !Z.pow_add_r by lia. reflexivity. }
  induction p as [p IH|p IH|]; intros mrs Hm; cbn [SpecFloat.iter_pos].
  - assert (H1 : (0 <= shr_m (shr_1 mrs))%Z)
      by (rewrite shr_1_m by exact Hm; apply Z.div_pos; lia).
    rewrite IH by (rewrite IH by exact H1; now apply Hnn).
    rewrite IH by exact H1. rewrite shr_1_m by exact Hm.
    rewrite !Z.div_div by (try apply Z.pow_pos_nonneg; lia).
    now rewrite Hxi.
  - rewrite IH by (rewrite IH by exact Hm; now apply Hnn).
    rewrite IH by exact Hm.
    rewrite !Z.div_div by (try apply Z.pow_pos_nonneg; lia).
    now rewrite Hxo.
  - now rewrite shr_1_m.
Qed.

Lemma shr_spec mrs e n :
  (0 <= shr_m mrs)%Z ->
  shr_m (fst (shr mrs e n)) = (shr_m mrs / 2 ^ Z.max 0 n)%Z /\
  snd (shr mrs e n) = (e + Z.max 0 n)%Z.
Proof.
  intros Hm. unfold shr. destruct n as [|p|p]; cbn [fst snd].
  - cbn. rewrite Z.div_1_r. lia.
  - rewrite iter_pos_shr_m by exact Hm. rewrite Z.max_r by lia. split; reflexivity.
  - rewrite Z.max_l by lia. cbn. rewrite Z.div_1_r. lia.
Qed.

Lemma shr_record_of_loc_m m l : shr_m (shr_record_of_loc m l) = m.
Proof. destruct l as [|[]]; reflexivity. Qed.

Lemma round_nearest_even_bounds m l :
  (m <= round_nearest_even m l <= m + 1)%Z.
Proof.
  unfold round_nearest_even. destruct l as [|[]]; try lia. destruct (Z.even m); lia.
Qed.

Lemma fexp32 k : fexp 24 128 k = Z.max (k - 24) (-149).
Proof. reflexivity. Qed.

(** [binary_round_aux] on the mantissa [M] and the exponent [E]: the
    mantissa [m2] after the first shift and the rounding, at the exponent
    [e1], and the mantissa [m3] returned, at the exponent [e3]. *)
Lemma binary_round_aux_bound s (M : Z) E l :
  (0 <= M)%Z ->
  let e1 := Z.max E (fexp 24 128 (Zdigits2 M + E)) in
  exists m2 m3 e3,
    binary_round_aux 24 128 s M E l
    = match m3 with
      | Z0 => S754_zero s
      | Zpos p => if (e3 <=? 104)%Z then S754_finite s p e3 else S754_infinity s
      | Zneg _ => S754_nan
      end /\
    (0 <= m2)%Z /\ (m2 * 2 ^ (e1 - E) <= M + 2 ^ (e1 - E))%Z /\
    e3 = Z.max e1 (fexp 24 128 (Zdigits2 m2 + e1)) /\
    (0 <= m3)%Z /\ (m3 * 2 ^ (e3 - e1) <= m2)%Z.
Proof.
  intros HM e1. unfold binary_round_aux, shr_fexp.
  set (n1 := (fexp 24 128 (Zdigits2 M + E) - E)%Z).
  destruct (shr_spec (shr_record_of_loc M l) E n1) as [Hm1 He1];
    [rewrite shr_record_of_loc_m; lia|].
  rewrite shr_record_of_loc_m in Hm1.
  destruct (shr (shr_record_of_loc M l) E n1) as [mrs1 e1'].
  cbn [fst snd] in Hm1, He1.
  assert (Ee1 : e1' = e1) by (unfold e1, n1 in *; lia). clear He1. subst e1'.
  assert (Ek : Z.max 0 n1 = (e1 - E)%Z) by (unfold e1, n1; lia). rewrite Ek in Hm1.
  assert (Hk : (0 <= e1 - E)%Z) by lia.
  assert (Hp : (0 < 2 ^ (e1 - E))%Z) by (apply Z.pow_pos_nonneg; lia).
  set (m2 := round_nearest_even (shr_m mrs1) (loc_of_shr_record mrs1)).
  pose proof (round_nearest_even_bounds (shr_m mrs1) (loc_of_shr_record mrs1)) as Hr.
  fold m2 in Hr.
  assert (H1 : (0 <= shr_m mrs1)%Z) by (rewrite Hm1; apply Z.div_pos; lia).
  assert (H1' : (shr_m mrs1 * 2 ^ (e1 - E) <= M)%Z).
  { rewrite Hm1. rewrite Z.mul_comm. apply Z.mul_div_le. exact Hp. }
  assert (H2 : (0 <= m2)%Z) by lia.
  set (n2 := (fexp 24 128 (Zdigits2 m2 + e1) - e1)%Z).
  destruct (shr_spec (shr_record_of_loc m2 loc_Exact) e1 n2) as [Hm3 He3];
    [cbn; exact H2|].
  destruct (shr (shr_record_of_loc m2 loc_Exact) e1 n2) as [mrs3 e3].
  cbn [fst snd shr_record_of_loc shr_m] in Hm3, He3.
  exists m2, (shr_m mrs3), e3.
  assert (Ee3 : e3 = Z.max e1 (fexp 24 128 (Zdigits2 m2 + e1))) by (unfold n2 in *; lia).
  assert (Ek3 : Z.max 0 n2 = (e3 - e1)%Z) by (unfold n2 in *; lia). rewrite Ek3 in Hm3.
  assert (Hp3 : (0 < 2 ^ (e3 - e1))%Z) by (apply Z.pow_pos_nonneg; lia).
  split; [|split; [exact H2|split; [nia|split; [exact Ee3|split]]]].
  - destruct (shr_m mrs3); reflexivity.
  - rewrite Hm3. apply Z.div_pos; lia.
  - rewrite Hm3. rewrite Z.mul_comm. apply Z.mul_div_le. exact Hp3.
Qed.

(** The cast of a rounded value whose exact value [M * 2^E], plus one
    unit in the last place, is below the integer [B]. *)
Lemma round_cast_below (M : positive) (E : Z) l (B : Z) :
  (E <= 0)%Z -> (0 < B <= 256)%Z ->
  (Zpos M + 2 ^ (Z.max E (-16) - E) < B * 2 ^ (- E))%Z ->
  exists n, b32_to_uint8 (binary_round_aux 24 128 false (Zpos M) E l) = Some n /\
            (0 <= n < B)%Z.
Proof.
  intros HE HB Hlt.
  assert (HpE : (0 < 2 ^ (- E))%Z) by (apply Z.pow_pos_nonneg; lia).
  assert (Hp16 : (0 < 2 ^ (Z.max E (-16) - E))%Z) by (apply Z.pow_pos_nonneg; lia).
  assert (H256 : forall a, (0 <= a)%Z -> (a < B * 2 ^ (- E))%Z -> (a < 2 ^ (8 - E))%Z).
  { intros a Ha Hb. replace (8 - E)%Z with (8 + - E)%Z by lia.
    rewrite Z.pow_add_r by lia. change (2 ^ 8)%Z with 256%Z.
    assert ((B * 2 ^ (- E) <= 256 * 2 ^ (- E))%Z)
      by (apply Z.mul_le_mono_nonneg_r; [apply Z.lt_le_incl; exact HpE|apply HB]).
    lia. }
  assert (HdM : (Zdigits2 (Zpos M) + E <= 8)%Z).
  { assert (HM : (Zpos M < 2 ^ (8 - E))%Z) by (apply H256; lia).
    pose proof (Zdigits2_le_of_lt (Zpos M) (8 - E)). lia. }
  destruct (binary_round_aux_bound false (Zpos M) E l ltac:(lia))
    as (m2 & m3 & e3 & -> & Hm2 & Hb2 & He3 & Hm3 & Hb3).
  set (e1 := Z.max E (fexp 24 128 (Zdigits2 (Zpos M) + E))) in *.
  assert (He1 : (E <= e1 <= Z.max E (-16))%Z) by (unfold e1; rewrite fexp32; lia).
  assert (Hpe : (2 ^ (e1 - E) <= 2 ^ (Z.max E (-16) - E))%Z)
    by (apply Z.pow_le_mono_r; lia).
  assert (Hpe1 : (0 < 2 ^ (e1 - E))%Z) by (apply Z.pow_pos_nonneg; lia).
  assert (Hv2 : (m2 * 2 ^ (e1 - E) < B * 2 ^ (- E))%Z) by lia.
  assert (Hd2 : (Zdigits2 m2 + e1 <= 8)%Z).
  { assert (Hm2' : (m2 < 2 ^ (8 - e1))%Z).
    { assert (Hx : (m2 * 2 ^ (e1 - E) < 2 ^ (8 - E))%Z) by (apply H256; nia).
      replace (8 - E)%Z with (8 - e1 + (e1 - E))%Z in Hx by lia.
      rewrite Z.pow_add_r in Hx by lia. nia. }
    pose proof (Zdigits2_le_of_lt m2 (8 - e1)). lia. }
  assert (He3' : (e1 <= e3 <= 0)%Z) by (rewrite He3, fexp32; lia).
  assert (Hpe3 : (0 < 2 ^ (e3 - e1))%Z) by (apply Z.pow_pos_nonneg; lia).
  assert (Hv3 : (m3 * 2 ^ (e3 - E) < B * 2 ^ (- E))%Z).
  { replace (e3 - E)%Z with (e3 - e1 + (e1 - E))%Z by lia.
    rewrite Z.pow_add_r by lia. nia. }
  destruct m3 as [|p|p]; [exists 0%Z; split; [reflexivity|lia]| |lia].
  destruct (Z.leb_spec e3 104); [|lia].
  unfold b32_to_uint8. rewrite Z.shiftl_div_pow2 by lia.
  set (t := (Zpos p / 2 ^ (- e3))%Z).
  assert (Hpn : (0 < 2 ^ (- e3))%Z) by (apply Z.pow_pos_nonneg; lia).
  assert (Ht0 : (0 <= t)%Z) by (apply Z.div_pos; lia).
  assert (Ht1 : (t * 2 ^ (- e3) <= Zpos p)%Z)
    by (unfold t; rewrite Z.mul_comm; apply Z.mul_div_le; lia).
  assert (Ht : (t < B)%Z).
  { assert (Hs : (2 ^ (- E) = 2 ^ (- e3) * 2 ^ (e3 - E))%Z)
      by (rewrite <- Z.pow_add_r by lia; f_equal; lia).
    assert (Hpx : (0 < 2 ^ (e3 - E))%Z) by (apply Z.pow_pos_nonneg; lia).
    rewrite Hs in Hv3. nia. }
  exists t. destruct (Z.leb_spec t 255); [split; [reflexivity|lia]|lia].
Qed.

(** A finite binary32 number: the exponent is at least -149, the
    mantissa has at most 24 bits, and exactly 24 above the least
    exponent. *)
Lemma valid_shape m e :
  SpecFloat.bounded 24 128 m e = true ->
  (-149 <= e)%Z /\ (Zpos m < 2 ^ 24)%Z /\ ((-149 < e)%Z -> (2 ^ 23 <= Zpos m)%Z).
Proof.
  unfold SpecFloat.bounded, canonical_mantissa. intros H. apply andb_prop in H.
  destruct H as [H _]. apply Z.eqb_eq in H. rewrite fexp32 in H.
  destruct (digits2_pos_bounds m) as [Hlo Hhi].
  split; [lia|]. split.
  - assert (Hp : (2 ^ Zpos (digits2_pos m) <= 2 ^ 24)%Z)
      by (apply Z.pow_le_mono_r; lia). lia.
  - intros He. assert (Hd : Zpos (digits2_pos m) = 24%Z) by lia.
    rewrite Hd in Hlo. exact Hlo.
Qed.

(** A positive number not above 1, and one not above another, in terms of
    mantissas and exponents. *)
Lemma not_above_one m e :
  SpecFloat.bounded 24 128 m e = true ->
  SFltb (b32_of_Z 1) (S754_finite false m e) = false ->
  (e <= -23)%Z /\ (Zpos m <= 2 ^ (- e))%Z.
Proof.
  intros Hv H. destruct (valid_shape m e Hv) as (_ & Hm & _).
  change (b32_of_Z 1) with (S754_finite false 8388608 (-23)) in H.
  unfold SFltb, SFcompare in H.
  destruct (Z.compare_spec (-23) e) as [<-|Hlt|Hgt]; [|discriminate H|].
  - split; [lia|]. change (2 ^ (- -23))%Z with 8388608%Z.
    rewrite Pos.compare_cont_spec in H. cbn [Pos.switch_Eq] in H.
    destruct (8388608 ?= m)%positive eqn:C; [|discriminate H|].
    + apply Pos.compare_eq in C. rewrite <- C. reflexivity.
    + apply Pos.compare_gt_iff in C. apply Z.lt_le_incl.
      exact (Pos2Z.pos_lt_pos _ _ C).
  - split; [lia|].
    assert (Hp : (2 ^ 24 <= 2 ^ (- e))%Z) by (apply Z.pow_le_mono_r; lia). lia.
Qed.

Lemma not_above m e mc ec :
  SpecFloat.bounded 24 128 m e = true -> SpecFloat.bounded 24 128 mc ec = true ->
  SFltb (S754_finite false mc ec) (S754_finite false m e) = false ->
  (e <= ec)%Z /\ (Zpos m <= Zpos mc * 2 ^ (ec - e))%Z.
Proof.
  intros Hv Hc H. destruct (valid_shape m e Hv) as (He & Hm & _).
  destruct (valid_shape mc ec Hc) as (_ & _ & Hn).
  unfold SFltb, SFcompare in H.
  destruct (Z.compare_spec ec e) as [<-|Hlt|Hgt]; [|discriminate H|].
  - split; [lia|]. rewrite Z.sub_diag. change (2 ^ 0)%Z with 1%Z.
    rewrite Pos.compare_cont_spec in H. cbn [Pos.switch_Eq] in H.
    destruct (Pos.compare_spec mc m) as [<-|H'|H']; try discriminate H; lia.
  - split; [lia|].
    assert (Hp : (2 ^ 1 <= 2 ^ (ec - e))%Z) by (apply Z.pow_le_mono_r; lia).
    change (2 ^ 1)%Z with 2%Z in Hp. specialize (Hn ltac:(lia)).
    change (2 ^ 24)%Z with 16777216%Z in Hm. change (2 ^ 23)%Z with 8388608%Z in Hn.
    nia.
Qed.

(** The cast of [0xff * c] for a positive [c] not above [0.999f], whose
    mantissa is 16760439 at the exponent -24. *)
Lemma mul255_cast (m : positive) (e : Z) :
  (e <= -24)%Z -> (Zpos m <= 16760439 * 2 ^ (- e - 24))%Z ->
  exists n, b32_to_uint8 (SFmul 24 128 (b32_of_Z 255) (S754_finite false m e)) = Some n /\
            (0 <= n < 255)%Z.
Proof.
  intros He Hm.
  change (b32_of_Z 255) with (S754_finite false 16711680 (-16)).
  cbn [SFmul xorb].
  apply round_cast_below; [lia|lia|].
  rewrite Z.max_r by lia.
  replace (-16 - (-16 + e))%Z with (24 + (- e - 24))%Z by lia.
  replace (- (-16 + e))%Z with (40 + (- e - 24))%Z by lia.
  rewrite !Z.pow_add_r by lia.
  assert (Hx : (0 < 2 ^ (- e - 24))%Z) by (apply Z.pow_pos_nonneg; lia).
  set (X := (2 ^ (- e - 24))%Z) in *.
  rewrite Pos2Z.inj_mul. change (2 ^ 24)%Z with 16777216%Z.
  change (2 ^ 40)%Z with 1099511627776%Z. nia.
Qed.

(** The cast of [0xff * c] for a positive [c] at most one unit in the
    last place above 1. *)
Lemma mul255_cast_unit (m : positive) (e : Z) :
  (e <= -23)%Z -> (Zpos m <= 2 ^ (- e) + 2 ^ (-23 - e))%Z ->
  exists n, b32_to_uint8 (SFmul 24 128 (b32_of_Z 255) (S754_finite false m e)) = Some n /\
            (0 <= n <= 255)%Z.
Proof.
  intros He Hm.
  change (b32_of_Z 255) with (S754_finite false 16711680 (-16)).
  cbn [SFmul xorb].
  destruct (round_cast_below (16711680 * m) (-16 + e) loc_Exact 256) as (n & H & Hn);
    [lia|lia| |exists n; split; [exact H|lia]].
  rewrite Z.max_r by lia.
  replace (-16 - (-16 + e))%Z with (23 + (-23 - e))%Z by lia.
  replace (- (-16 + e))%Z with (39 + (-23 - e))%Z by lia.
  replace (- e)%Z with (23 + (-23 - e))%Z in Hm by lia.
  rewrite !Z.pow_add_r in * by lia.
  assert (Hx : (0 < 2 ^ (-23 - e))%Z) by (apply Z.pow_pos_nonneg; lia).
  set (X := (2 ^ (-23 - e))%Z) in *.
  rewrite Pos2Z.inj_mul. change (2 ^ 23)%Z with 8388608%Z in *.
  change (2 ^ 39)%Z with 549755813888%Z. nia.
Qed.

(** The quotient of two positive binary32 numbers, the first not above
    the second, is a zero or at most one unit in the last place above 1. *)
Lemma div_below_unit m e mc ec :
  SpecFloat.bounded 24 128 m e = true -> SpecFloat.bounded 24 128 mc ec = true ->
  SFltb (S754_finite false mc ec) (S754_finite false m e) = false ->
  match SFdiv 24 128 (S754_finite false m e) (S754_finite false mc ec) with
  | S754_zero _ => True
  | S754_finite false m3 e3 =>
    (e3 <= -23)%Z /\ (Zpos m3 <= 2 ^ (- e3) + 2 ^ (-23 - e3))%Z
  | _ => False
  end.
Proof.
  intros Hv Hc Hle. destruct (not_above m e mc ec Hv Hc Hle) as [He Hm].
  destruct (valid_shape m e Hv) as (Hem & Hm24 & _).
  destruct (valid_shape mc ec Hc) as (_ & Hc24 & Hcn).
  cbn [SFdiv xorb]. unfold SFdiv_core_binary.
  set (e' := Z.min (fexp 24 128 (Zdigits2 (Zpos m) + e - (Zdigits2 (Zpos mc) + ec)))
                   (e - ec)).
  assert (He' : (e' <= -24)%Z /\ (e' <= e - ec)%Z).
  { unfold e'. rewrite fexp32. split; [|lia]. cbn [Zdigits2].
    destruct (digits2_pos_bounds m) as [Hlo Hhi].
    destruct (digits2_pos_bounds mc) as [Hclo Hchi].
    destruct (Z.eq_dec e ec) as [->|Hne].
    - rewrite Z.sub_diag in Hm. change (2 ^ 0)%Z with 1%Z in Hm.
      assert (Hd : (Zpos (digits2_pos m) <= Zpos (digits2_pos mc))%Z).
      { destruct (Z_le_gt_dec (Zpos (digits2_pos m)) (Zpos (digits2_pos mc)));
          [assumption|].
        assert ((2 ^ Zpos (digits2_pos mc) <= 2 ^ (Zpos (digits2_pos m) - 1))%Z)
          by (apply Z.pow_le_mono_r; lia). lia. }
      lia.
    - specialize (Hcn ltac:(lia)).
      assert (Hdc : (24 <= Zpos (digits2_pos mc))%Z).
      { destruct (Z_le_gt_dec 24 (Zpos (digits2_pos mc))); [assumption|].
        assert ((2 ^ Zpos (digits2_pos mc) <= 2 ^ 23)%Z)
          by (apply Z.pow_le_mono_r; lia). lia. }
      assert (Hdm : (Zpos (digits2_pos m) <= 24)%Z).
      { destruct (Z_le_gt_dec (Zpos (digits2_pos m)) 24); [assumption|].
        assert ((2 ^ 24 <= 2 ^ (Zpos (digits2_pos m) - 1))%Z)
          by (apply Z.pow_le_mono_r; lia). lia. }
      lia. }
  set (s := (e - ec - e')%Z).
  assert (Es : s = (e - ec - e')%Z) by reflexivity. clearbody s.
  assert (Hs : (0 <= s)%Z) by lia.
  set (m' := match s with
             | Z.pos _ => Z.shiftl (Zpos m) s
             | 0%Z => Zpos m
             | Z.neg _ => 0%Z
             end).
  assert (Hm' : m' = (Zpos m * 2 ^ s)%Z).
  { unfold m'. destruct s as [|p|p]; [now rewrite Z.mul_1_r| |lia].
    apply Z.shiftl_mul_pow2. lia. }
  clearbody m'.
  pose proof (Z_div_mod m' (Zpos mc) ltac:(lia)) as Hdiv.
  destruct (Z.div_eucl m' (Zpos mc)) as [q r]. destruct Hdiv as [Hq Hr].
  assert (Hps : (0 < 2 ^ s)%Z) by (apply Z.pow_pos_nonneg; lia).
  assert (Hq0 : (0 <= q)%Z) by nia.
  assert (Hq1 : (q <= 2 ^ (- e'))%Z).
  { assert (Hx : (q * Zpos mc <= Zpos mc * 2 ^ (- e'))%Z).
    { replace (- e')%Z with (ec - e + s)%Z by lia.
      rewrite Z.pow_add_r by lia.
      assert (Hpp : (0 < 2 ^ (ec - e))%Z) by (apply Z.pow_pos_nonneg; lia). nia. }
    nia. }
  destruct (binary_round_aux_bound false q e' (new_location (Zpos mc) r) Hq0)
    as (m2 & m3 & e3 & -> & Hm2 & Hb2 & He3 & Hm3 & Hb3).
  set (e1 := Z.max e' (fexp 24 128 (Zdigits2 q + e'))) in *.
  assert (Hdq : (Zdigits2 q + e' <= 1)%Z).
  { pose proof (Zdigits2_le_of_lt q (- e' + 1) Hq0 ltac:(lia)) as H.
    assert ((2 ^ (- e') < 2 ^ (- e' + 1))%Z) by (apply Z.pow_lt_mono_r; lia). lia. }
  assert (He1 : (e' <= e1 <= -23)%Z) by (unfold e1; rewrite fexp32; lia).
  assert (Hp1 : (0 < 2 ^ (e1 - e'))%Z) by (apply Z.pow_pos_nonneg; lia).
  assert (Hm2' : (m2 <= 2 ^ (- e1) + 1)%Z).
  { assert (Hsplit : (2 ^ (- e') = 2 ^ (- e1) * 2 ^ (e1 - e'))%Z)
      by (rewrite <- Z.pow_add_r by lia; f_equal; lia).
    rewrite Hsplit in Hq1. nia. }
  assert (Hd2 : (Zdigits2 m2 + e1 <= 1)%Z).
  { pose proof (Zdigits2_le_of_lt m2 (- e1 + 1) Hm2 ltac:(lia)) as H.
    assert (Hx : (2 ^ (- e1 + 1) = 2 * 2 ^ (- e1))%Z)
      by (rewrite Z.pow_add_r by lia; change (2 ^ 1)%Z with 2%Z; ring).
    assert ((2 <= 2 ^ (- e1))%Z)
      by (change 2%Z with (2 ^ 1)%Z at 1; apply Z.pow_le_mono_r; lia).
    lia. }
  assert (He3' : (e1 <= e3 <= -23)%Z) by (rewrite He3, fexp32; lia).
  assert (Hp3 : (0 < 2 ^ (e3 - e1))%Z) by (apply Z.pow_pos_nonneg; lia).
  assert (Hm3' : (m3 <= 2 ^ (- e3) + 1)%Z).
  { assert (Hsplit : (2 ^ (- e1) = 2 ^ (- e3) * 2 ^ (e3 - e1))%Z)
      by (rewrite <- Z.pow_add_r by lia; f_equal; lia).
    rewrite Hsplit in Hm2'. nia. }
  destruct m3 as [|p|p]; [exact I| |lia].
  destruct (Z.leb_spec e3 104); [|lia].
  split; [lia|].
  assert ((0 < 2 ^ (-23 - e3))%Z) by (apply Z.pow_pos_nonneg; lia).
  lia.
Qed.

(** ** Signs in binary32

    Rounding keeps the sign: sums and products of values that are not
    negative are not negative (they can be NaN). *)

Lemma binary_round_aux_sign s M E l :
  is_neg (binary_round_aux 24 128 s M E l) = true -> s = true.
Proof.
  unfold binary_round_aux.
  destruct (shr_fexp 24 128 M E l) as [mrs' e'].
  destruct (shr_fexp 24 128 _ e' loc_Exact) as [mrs'' e''].
  destruct (shr_m mrs''); try discriminate.
  destruct (e'' <=? 128 - 24)%Z; destruct s; try discriminate; reflexivity.
Qed.

Lemma binary_round_sign s m e :
  is_neg (binary_round 24 128 s m e) = true -> s = true.
Proof.
  unfold binary_round. destruct (shl_align _ _ _). apply binary_round_aux_sign.
Qed.

Lemma SFmul_not_negative a b :
  is_neg a = false -> is_neg b = false -> is_neg (SFmul 24 128 a b) = false.
Proof.
  destruct a as [sa|[]| |[] ma ea], b as [sb|[]| |[] mb eb]; try discriminate;
    intros _ _; try reflexivity.
  cbn [SFmul xorb].
  destruct (is_neg _) eqn:E; [|reflexivity].
  apply binary_round_aux_sign in E. discriminate E.
Qed.

Lemma SFadd_not_negative a b :
  is_neg a = false -> is_neg b = false -> is_neg (SFadd 24 128 a b) = false.
Proof.
  destruct a as [sa|[]| |[] ma ea], b as [sb|[]| |[] mb eb]; try discriminate;
    intros _ _; try reflexivity.
  - now destruct sa, sb.
  - cbn [SFadd cond_Zopp]. 
    set (a := fst (shl_align ma ea (Z.min ea eb))).
    set (b := fst (shl_align mb eb (Z.min ea eb))).
    change (Zpos a + Zpos b)%Z with (Zpos (a + b)). cbn [binary_normalize].
    destruct (is_neg _) eqn:E; [|reflexivity].
    apply binary_round_sign in E. discriminate E.
Qed.

Lemma SFltb_zero a : SFltb a (b32_of_Z 0) = is_neg a.
Proof. now destruct a as [[]|[]| |[] ? ?]. Qed.

Lemma SFleb_zero a : SFleb (b32_of_Z 0) a = true -> is_neg a = false.
Proof. now destruct a as [[]|[]| |[] ? ?]. Qed.

Lemma iter_op_not_negative p : forall a,
  is_neg a = false -> is_neg (Pos.iter_op (SFmul 24 128) p a) = false.
Proof.
  induction p as [p IH|p IH|]; intros a Ha; cbn [Pos.iter_op].
  - apply SFmul_not_negative; [exact Ha|]. apply IH. now apply SFmul_not_negative.
  - apply IH. now apply SFmul_not_negative.
  - exact Ha.
Qed.

Lemma powf_repeated_not_negative a b :
  is_neg a = false -> is_neg (powf_repeated a b) = false.
Proof.
  intros Ha. unfold powf_repeated. destruct b as [| | |[] m e]; try reflexivity.
  cbv zeta. destruct (SFeqb _ _); [|reflexivity].
  destruct (Z.shiftl _ _); try reflexivity. now apply iter_op_not_negative.
Qed.

Lemma SFltb_opp (a b : float32) : SFltb (SFopp a) (SFopp b) = SFltb b a.
Proof.
  unfold SFltb, SFcompare.
  destruct a as [[]|[]| |[] ma ea], b as [[]|[]| |[] mb eb]; cbn [SFopp negb];
    try reflexivity;
    pose proof (Z.compare_antisym ea eb) as Hz;
    pose proof (Pos.compare_cont_antisym ma mb Eq) as Hp; cbn [CompOpp] in Hp;
    destruct (ea ?= eb)%Z, (eb ?= ea)%Z; cbn [CompOpp] in Hz; try discriminate Hz;
    try reflexivity;
    destruct (Pos.compare_cont Eq ma mb), (Pos.compare_cont Eq mb ma);
    cbn [CompOpp] in Hp; try discriminate Hp; reflexivity.
Qed.

Lemma float32_eqb_eq a b : float32_eqb a b = true -> a = b.
Proof.
  destruct a as [s|s| |s m e], b as [s'|s'| |s' m' e']; cbn; try discriminate;
    try reflexivity.
  - intros H. apply eqb_prop in H. now subst.
  - intros H. apply eqb_prop in H. now subst.
  - intros H. apply andb_prop in H. destruct H as [H He].
    apply andb_prop in H. destruct H as [Hs Hm].
    apply eqb_prop in Hs. apply Pos.eqb_eq in Hm. apply Z.eqb_eq in He. now subst.
Qed.

(** A property of the integers [0 .. n-1], checked one by one. *)
Lemma range_check (P : Z -> bool) (n : nat) :
  forallb (fun k => P (Z.of_nat k)) (seq 0 n) = true ->
  forall i, (0 <= i < Z.of_nat n)%Z -> P i = true.
Proof.
  intros H i Hi. rewrite forallb_forall in H.
  rewrite <- (Z2Nat.id i) by lia. apply H. apply in_seq. lia.
Qed.

(** ** Rounding is monotone

    The shape of what [binary_round_aux] returns, and from it: every
    operation returns a binary32 number, multiplication by one is exact,
    and a sum or product whose exact value is at most a binary32 number
    is rounded to at most that number. *)

Section RoundingMonotone.
Local Open Scope Z_scope.

(** Shifting out zeros leaves nothing to round. *)
Lemma shr_1_even (N : Z) :
  0 <= N -> shr_1 (Build_shr_record (2 * N) false false) = Build_shr_record N false false.
Proof. intros H. destruct N as [|p|p]; [reflexivity|reflexivity|lia]. Qed.

Lemma iter_pos_nat {A} (f : A -> A) p : forall x,
  @SpecFloat.iter_pos A f p x = Nat.iter (Pos.to_nat p) f x.
Proof.
  induction p as [p IH|p IH|]; intros x; cbn [SpecFloat.iter_pos].
  - rewrite !IH. rewrite Pos2Nat.inj_xI.
    replace (S (2 * Pos.to_nat p))%nat with (Pos.to_nat p + (Pos.to_nat p + 1))%nat by lia.
    rewrite !Nat.iter_add. reflexivity.
  - rewrite !IH. rewrite Pos2Nat.inj_xO.
    replace (2 * Pos.to_nat p)%nat with (Pos.to_nat p + Pos.to_nat p)%nat by lia.
    rewrite Nat.iter_add. reflexivity.
  - reflexivity.
Qed.

Lemma iter_shr_1_exact n : forall N, 0 <= N ->
  Nat.iter n shr_1 (Build_shr_record (N * 2 ^ Z.of_nat n) false false)
  = Build_shr_record N false false.
Proof.
  induction n as [|n IH]; intros N HN.
  - cbn. now rewrite Z.mul_1_r.
  - rewrite Nat.iter_succ_r. rewrite Nat2Z.inj_succ, Z.pow_succ_r by lia.
    replace (N * (2 * 2 ^ Z.of_nat n)) with (2 * (N * 2 ^ Z.of_nat n)) by ring.
    rewrite shr_1_even by (apply Z.mul_nonneg_nonneg; [exact HN|apply Z.pow_nonneg; lia]).
    now apply IH.
Qed.

Lemma shr_exact N E k :
  0 <= N -> 0 <= k ->
  shr (Build_shr_record (N * 2 ^ k) false false) E k
  = (Build_shr_record N false false, E + k).
Proof.
  intros HN Hk. unfold shr. destruct k as [|p|p]; [|  |lia].
  - cbn. now rewrite Z.mul_1_r, Z.add_0_r.
  - rewrite iter_pos_nat. rewrite <- (positive_nat_Z p) at 1.
    now rewrite iter_shr_1_exact.
Qed.

Lemma Zdigits2_bounds M : 0 < M ->
  1 <= Zdigits2 M /\ 2 ^ (Zdigits2 M - 1) <= M < 2 ^ Zdigits2 M.
Proof.
  intros H. destruct M as [|p|p]; try lia. cbn [Zdigits2].
  split; [lia|apply digits2_pos_bounds].
Qed.

Lemma Zdigits2_unique M d :
  0 < M -> 2 ^ (d - 1) <= M < 2 ^ d -> Zdigits2 M = d.
Proof.
  intros HM [Hlo Hhi]. destruct (Zdigits2_bounds M HM) as (H1 & Hlo' & Hhi').
  assert (Hd : 1 <= d).
  { destruct (Z_lt_le_dec d 1) as [Hlt|]; [|assumption].
    assert (2 ^ d <= 2 ^ 0) by (destruct (Z_lt_le_dec d 0);
      [rewrite Z.pow_neg_r by assumption; cbn; lia|apply Z.pow_le_mono_r; lia]).
    cbn in *. lia. }
  destruct (Z.lt_trichotomy (Zdigits2 M) d) as [Hlt|[Heq|Hgt]]; [|exact Heq|].
  - assert (2 ^ Zdigits2 M <= 2 ^ (d - 1)) by (apply Z.pow_le_mono_r; lia). lia.
  - assert (2 ^ d <= 2 ^ (Zdigits2 M - 1)) by (apply Z.pow_le_mono_r; lia). lia.
Qed.

(** The first shift and rounding of [binary_round_aux]. *)
Lemma shr_round M E k :
  0 < M -> 0 <= k ->
  exists mrs, shr (shr_record_of_loc M loc_Exact) E k = (mrs, E + k) /\
    let m2 := round_nearest_even (shr_m mrs) (loc_of_shr_record mrs) in
    M / 2 ^ k <= m2 <= M / 2 ^ k + 1 /\
    (M mod 2 ^ k = 0 -> m2 = M / 2 ^ k).
Proof.
  intros HM Hk.
  assert (Hp : 0 < 2 ^ k) by (apply Z.pow_pos_nonneg; lia).
  destruct (shr_spec (shr_record_of_loc M loc_Exact) E k) as [Hm He];
    [cbn; lia|].
  rewrite Z.max_r in Hm, He by lia.
  destruct (shr (shr_record_of_loc M loc_Exact) E k) as [mrs e'] eqn:Es.
  cbn [fst snd shr_record_of_loc shr_m] in Hm, He. subst e'. exists mrs. split; [reflexivity|].
  cbv zeta. split.
  - rewrite <- Hm. apply round_nearest_even_bounds.
  - intros Hmod.
    assert (EM : M = M / 2 ^ k * 2 ^ k).
    { rewrite (Z.div_mod M (2 ^ k)) at 1 by lia. rewrite Hmod. ring. }
    cbn [shr_record_of_loc] in Es. rewrite EM in Es at 1.
    rewrite shr_exact in Es by (try apply Z.div_pos; lia).
    injection Es as <-. reflexivity.
Qed.

Lemma pow2_split a b : 0 <= a -> 0 <= b -> 2 ^ (a + b) = 2 ^ a * 2 ^ b.
Proof. intros. now apply Z.pow_add_r. Qed.

Lemma pow2_pos a : 0 <= a -> 0 < 2 ^ a.
Proof. intros. apply Z.pow_pos_nonneg; lia. Qed.

(** What [binary_round_aux] returns for an exact mantissa [M] at an
    exponent [E] not above the exponent of the result: the mantissa [m2]
    after the shift and the rounding, at the exponent [e1], renormalized
    when the rounding carries into a 25th bit. *)
Lemma binary_round_aux_shape s M E :
  0 < M -> E <= fexp 24 128 (Zdigits2 M + E) ->
  let e1 := fexp 24 128 (Zdigits2 M + E) in
  let k := e1 - E in
  exists m2, M / 2 ^ k <= m2 <= M / 2 ^ k + 1 /\ (M mod 2 ^ k = 0 -> m2 = M / 2 ^ k) /\
    m2 <= 2 ^ 24 /\
    binary_round_aux 24 128 s M E loc_Exact =
      (if m2 =? 0 then S754_zero s
       else if m2 <? 2 ^ 24 then
         (if e1 <=? 104 then S754_finite s (Z.to_pos m2) e1 else S754_infinity s)
       else
         (if e1 + 1 <=? 104 then S754_finite s 8388608 (e1 + 1) else S754_infinity s)) /\
    (m2 <> 0 -> m2 < 2 ^ 24 -> fexp 24 128 (Zdigits2 m2 + e1) = e1).
Proof.
  intros HM Hpre e1 k.
  destruct (Zdigits2_bounds M HM) as (Hd1 & Hlo & Hhi).
  set (d := Zdigits2 M) in *.
  assert (He1 : e1 = Z.max (d + E - 24) (-149)) by reflexivity.
  assert (Hk : 0 <= k) by (unfold k; fold e1 in Hpre; lia).
  assert (Hpk : 0 < 2 ^ k) by now apply pow2_pos.
  destruct (shr_round M E k HM Hk) as (mrs & Es & Hm2 & Hex).
  cbv zeta in Hm2, Hex.
  set (m2 := round_nearest_even (shr_m mrs) (loc_of_shr_record mrs)) in *.
  set (q1 := M / 2 ^ k) in *.
  assert (Hq0 : 0 <= q1) by (apply Z.div_pos; lia).
  (* the size of the shifted mantissa *)
  assert (Hq24 : q1 < 2 ^ 24 /\ (-149 <= d + E - 24 -> 2 ^ 23 <= q1) /\
                 (d + E - 24 < -149 -> q1 < 2 ^ 23)).
  { destruct (Z_le_gt_dec (-149) (d + E - 24)) as [Hn|Hs].
    - assert (Ek : d = 24 + k) by (unfold k; lia).
      assert (E1 : 2 ^ d = 2 ^ 24 * 2 ^ k) by (rewrite Ek; apply pow2_split; lia).
      assert (E2 : 2 ^ (d - 1) = 2 ^ 23 * 2 ^ k)
        by (replace (d - 1) with (23 + k) by lia; apply pow2_split; lia).
      split; [|split; [|lia]].
      + apply Z.div_lt_upper_bound; [exact Hpk|]. rewrite Z.mul_comm. lia.
      + intros _. apply Z.div_le_lower_bound; [exact Hpk|]. rewrite Z.mul_comm. lia.
    - assert (Hq : q1 < 2 ^ 23).
      { destruct (Z_le_gt_dec k d) as [Hle|Hgt].
        - assert (E1 : 2 ^ d = 2 ^ (d - k) * 2 ^ k)
            by (rewrite <- pow2_split by lia; f_equal; lia).
          assert (2 ^ (d - k) <= 2 ^ 23) by (apply Z.pow_le_mono_r; unfold k; lia).
          assert (q1 < 2 ^ (d - k)); [|lia].
          apply Z.div_lt_upper_bound; [exact Hpk|]. rewrite Z.mul_comm. lia.
        - assert (2 ^ d <= 2 ^ k) by (apply Z.pow_le_mono_r; lia).
          unfold q1. rewrite Z.div_small by lia. cbn. lia. }
      split; [|split; [lia|intros _; exact Hq]].
      change (2 ^ 24) with 16777216. change (2 ^ 23) with 8388608 in Hq. lia. }
  destruct Hq24 as (Hq24 & Hnorm & Hsub).
  exists m2. split; [exact Hm2|]. split; [exact Hex|]. split; [lia|].
  assert (Hcanon : m2 <> 0 -> m2 < 2 ^ 24 -> fexp 24 128 (Zdigits2 m2 + e1) = e1).
  { intros Hz Hlt. rewrite fexp32.
    destruct (Z_le_gt_dec (-149) (d + E - 24)) as [Hn|Hs].
    - specialize (Hnorm Hn).
      rewrite (Zdigits2_unique m2 24) by (cbn; change (2 ^ 23) with 8388608 in *;
        change (2 ^ 24) with 16777216 in *; lia). lia.
    - destruct (Zdigits2_bounds m2 ltac:(lia)) as (Hd2 & Hlo2 & _).
      assert (Zdigits2 m2 <= 24).
      { destruct (Z_le_gt_dec (Zdigits2 m2) 24); [assumption|].
        assert (2 ^ 24 <= 2 ^ (Zdigits2 m2 - 1)) by (apply Z.pow_le_mono_r; lia). lia. }
      lia. }
  split; [|exact Hcanon].
  unfold binary_round_aux, shr_fexp. fold d. fold e1. fold k. rewrite Es.
  fold m2. replace (E + k) with e1 by (unfold k; lia).
  destruct (Z.eqb_spec m2 0) as [Hz|Hz].
  - rewrite Hz. cbn [Zdigits2 Z.add]. rewrite fexp32.
    replace (Z.max (e1 - 24) (-149) - e1) with (- Z.min 24 (e1 + 149)) by lia.
    assert (Hneg : - Z.min 24 (e1 + 149) <= 0) by lia.
    destruct (- Z.min 24 (e1 + 149)) as [|p|p]; [reflexivity|lia|reflexivity].
  - destruct (Z.ltb_spec m2 (2 ^ 24)) as [Hlt|Hge].
    + rewrite (Hcanon Hz Hlt). rewrite Z.sub_diag. cbn [shr shr_record_of_loc shr_m].
      destruct m2 as [|p|p]; [lia|reflexivity|lia].
    + assert (Em : m2 = 2 ^ 24) by lia.
      assert (Hn : -149 <= d + E - 24) by (destruct (Z_le_gt_dec (-149) (d + E - 24));
        [assumption|specialize (Hsub ltac:(lia)); change (2 ^ 23) with 8388608 in *;
         change (2 ^ 24) with 16777216 in *; lia]).
      rewrite Em. change (Zdigits2 (2 ^ 24)) with 25. rewrite fexp32.
      replace (Z.max (25 + e1 - 24) (-149) - e1) with 1 by lia.
      reflexivity.
Qed.

(** Rounding is monotone: a value of at most [B * 2^q], a binary32 number,
    is rounded to a binary32 number of at most [B * 2^q]. *)
Lemma binary_round_aux_le s M E B q :
  0 < M -> E <= fexp 24 128 (Zdigits2 M + E) ->
  0 < B < 2 ^ 24 -> -149 <= q <= 104 -> E <= q -> M <= B * 2 ^ (q - E) ->
  valid_binary 24 128 (binary_round_aux 24 128 s M E loc_Exact) = true /\
  at_most (binary_round_aux 24 128 s M E loc_Exact) B q.
Proof.
  intros HM Hpre HB Hq HEq HMB.
  destruct (binary_round_aux_shape s M E HM Hpre) as (m2 & Hm2 & Hex & Hm24 & -> & Hcanon).
  destruct (Zdigits2_bounds M HM) as (Hd1 & Hlo & Hhi).
  set (d := Zdigits2 M) in *. set (e1 := fexp 24 128 (d + E)) in *.
  assert (He1 : e1 = Z.max (d + E - 24) (-149)) by reflexivity.
  set (k := e1 - E) in *.
  assert (Hk : 0 <= k) by (unfold k; lia).
  assert (Hpk : 0 < 2 ^ k) by now apply pow2_pos.
  assert (HqE : 0 < 2 ^ (q - E)) by (apply pow2_pos; lia).
  (* the exponent of the result is not above [q] *)
  assert (Hdq : d + E - 24 <= q).
  { destruct (Z_le_gt_dec (d + E - 24) q) as [|Hgt]; [assumption|].
    assert (H1 : 2 ^ (24 + (q - E)) <= 2 ^ (d - 1)) by (apply Z.pow_le_mono_r; lia).
    rewrite pow2_split in H1 by lia.
    assert (B * 2 ^ (q - E) < 2 ^ 24 * 2 ^ (q - E))
      by (apply Z.mul_lt_mono_pos_r; [exact HqE|apply HB]).
    lia. }
  assert (He1q : e1 <= q) by lia.
  assert (Hsplit : 2 ^ (q - E) = 2 ^ (q - e1) * 2 ^ k)
    by (rewrite <- pow2_split by lia; f_equal; unfold k; lia).
  assert (Hq1 : 0 < 2 ^ (q - e1)) by (apply pow2_pos; lia).
  set (Bq := B * 2 ^ (q - e1)).
  assert (HMBq : M <= Bq * 2 ^ k) by (unfold Bq; rewrite <- Z.mul_assoc, <- Hsplit; exact HMB).
  assert (Hm2B : m2 <= Bq).
  { assert (Hq1B : M / 2 ^ k <= Bq).
    { apply Z.div_le_upper_bound; [exact Hpk|]. rewrite Z.mul_comm. exact HMBq. }
    destruct (Z.eq_dec (M / 2 ^ k) Bq) as [Heq|Hne]; [|lia].
    rewrite Hex; [lia|].
    pose proof (Z.mul_div_le M (2 ^ k) Hpk) as H1.
    pose proof (Z.div_mod M (2 ^ k) ltac:(lia)) as H2.
    pose proof (Z.mod_pos_bound M (2 ^ k) Hpk) as H3.
    rewrite Heq in H1, H2. lia. }
  fold k in Hm2, Hex.
  assert (Hm0 : 0 <= m2).
  { assert (0 <= M / 2 ^ k) by (apply Z.div_pos; lia). lia. }
  destruct (Z.eqb_spec m2 0) as [Hz|Hz]; [split; [reflexivity|exact I]|].
  destruct (Z.ltb_spec m2 (2 ^ 24)) as [Hlt|Hge].
  - destruct (Z.leb_spec e1 104) as [_|Hov]; [|lia].
    destruct m2 as [|p|p]; try lia. cbn [Z.to_pos]. split.
    + cbn [valid_binary]. unfold SpecFloat.bounded, canonical_mantissa.
      specialize (Hcanon Hz Hlt). cbn [Zdigits2] in Hcanon. rewrite Hcanon.
      rewrite Z.eqb_refl. cbn [andb]. apply Z.leb_le. lia.
    + cbn [at_most]. split; [exact He1q|exact Hm2B].
  - assert (Em : m2 = 2 ^ 24) by lia.
    assert (Hq2 : e1 + 1 <= q).
    { destruct (Z_le_gt_dec (e1 + 1) q); [assumption|].
      assert (q = e1) by lia. subst q. unfold Bq in Hm2B.
      rewrite Z.sub_diag in Hm2B. change (2 ^ 0) with 1 in Hm2B. lia. }
    destruct (Z.leb_spec (e1 + 1) 104) as [_|Hov]; [|lia]. split.
    + cbn [valid_binary]. unfold SpecFloat.bounded, canonical_mantissa.
      change (Zpos (digits2_pos 8388608)) with 24. rewrite fexp32.
      replace (Z.max (24 + (e1 + 1) - 24) (-149)) with (e1 + 1) by lia.
      rewrite Z.eqb_refl. cbn [andb]. apply Z.leb_le. lia.
    + cbn [at_most]. split; [exact Hq2|].
      assert (Hs2 : 2 ^ (q - e1) = 2 * 2 ^ (q - (e1 + 1))).
      { replace (q - e1) with (1 + (q - (e1 + 1))) by lia.
        rewrite pow2_split by lia. reflexivity. }
      unfold Bq in Hm2B. rewrite Hs2 in Hm2B. rewrite Em in Hm2B.
      change (2 ^ 24) with 16777216 in Hm2B. lia.
Qed.

Lemma bounded_intro (m : positive) e :
  fexp 24 128 (Zdigits2 (Zpos m) + e) = e -> e <= 104 ->
  SpecFloat.bounded 24 128 m e = true.
Proof.
  intros Hc He. unfold SpecFloat.bounded, canonical_mantissa.
  cbn [Zdigits2] in Hc. rewrite Hc, Z.eqb_refl. cbn [andb]. apply Z.leb_le. lia.
Qed.

(** What [binary_round_aux] returns is a binary32 number, an infinity
    included. *)
Lemma binary_round_aux_valid s M E :
  0 < M -> E <= fexp 24 128 (Zdigits2 M + E) ->
  valid_binary 24 128 (binary_round_aux 24 128 s M E loc_Exact) = true.
Proof.
  intros HM Hpre.
  destruct (binary_round_aux_shape s M E HM Hpre) as (m2 & Hm2 & Hex & Hm24 & -> & Hcanon).
  set (e1 := fexp 24 128 (Zdigits2 M + E)) in *.
  assert (He1 : -149 <= e1) by (unfold e1; rewrite fexp32; lia).
  destruct (Z.eqb_spec m2 0) as [Hz|Hz]; [reflexivity|].
  destruct (Z.ltb_spec m2 (2 ^ 24)) as [Hlt|Hge].
  - destruct (Z.leb_spec e1 104) as [Hle|Hov]; [|reflexivity].
    assert (0 <= M / 2 ^ (e1 - E)) by (apply Z.div_pos; [lia|apply pow2_pos; lia]).
    destruct m2 as [|p|p]; try lia. cbn [Z.to_pos valid_binary].
    apply bounded_intro; [now apply Hcanon|exact Hle].
  - destruct (Z.leb_spec (e1 + 1) 104) as [Hle|Hov]; [|reflexivity].
    cbn [valid_binary]. apply bounded_intro; [|exact Hle].
    change (Zdigits2 8388608) with 24. rewrite fexp32. lia.
Qed.

(** The exact product of two binary32 numbers is at an exponent not
    above that of its rounding. *)
Lemma SFmul_exponent mx ex my ey :
  SpecFloat.bounded 24 128 mx ex = true -> SpecFloat.bounded 24 128 my ey = true ->
  ex + ey <= fexp 24 128 (Zdigits2 (Zpos (mx * my)) + (ex + ey)).
Proof.
  intros Hx Hy.
  destruct (valid_shape mx ex Hx) as (Hex & Hmx & Hnx).
  destruct (valid_shape my ey Hy) as (Hey & Hmy & Hny).
  rewrite fexp32.
  destruct (Zdigits2_bounds (Zpos (mx * my)) ltac:(lia)) as (Hd1 & _ & Hhi).
  set (d := Zdigits2 (Zpos (mx * my))) in *.
  assert (Hbig : 2 ^ 23 <= Zpos (mx * my) -> 24 <= d).
  { intros Hb. destruct (Z_le_gt_dec 24 d); [assumption|].
    assert (2 ^ d <= 2 ^ 23) by (apply Z.pow_le_mono_r; lia). lia. }
  rewrite Pos2Z.inj_mul in Hbig.
  destruct (Z_le_gt_dec ex (-149)) as [Hxs|Hxn];
    destruct (Z_le_gt_dec ey (-149)) as [Hys|Hyn]; try lia;
    (assert (24 <= d); [apply Hbig; nia|lia]).
Qed.

Lemma SFmul_valid x y :
  valid_binary 24 128 x = true -> valid_binary 24 128 y = true ->
  valid_binary 24 128 (SFmul 24 128 x y) = true.
Proof.
  destruct x as [sx|sx| |sx mx ex], y as [sy|sy| |sy my ey]; try reflexivity.
  cbn [valid_binary SFmul]. intros Hx Hy.
  apply binary_round_aux_valid; [lia|now apply SFmul_exponent].
Qed.

Lemma SFmul_le x y Bx qx By qy :
  valid_binary 24 128 x = true -> valid_binary 24 128 y = true ->
  at_most x Bx qx -> at_most y By qy ->
  0 < Bx -> 0 < By -> Bx * By < 2 ^ 24 -> -149 <= qx + qy <= 104 ->
  at_most (SFmul 24 128 x y) (Bx * By) (qx + qy).
Proof.
  destruct x as [sx|sx| |sx mx ex], y as [sy|sy| |sy my ey]; cbn [at_most];
    try contradiction; try (intros; exact I).
  cbn [valid_binary SFmul]. intros Hx Hy [Hex Hmx] [Hey Hmy] HBx HBy HB Hq.
  apply binary_round_aux_le; try lia.
  - now apply SFmul_exponent.
  - replace (qx + qy - (ex + ey)) with ((qx - ex) + (qy - ey)) by lia.
    rewrite pow2_split by lia. rewrite Pos2Z.inj_mul.
    assert (0 < 2 ^ (qx - ex)) by (apply pow2_pos; lia).
    assert (0 < 2 ^ (qy - ey)) by (apply pow2_pos; lia).
    replace (Bx * By * (2 ^ (qx - ex) * 2 ^ (qy - ey)))
      with ((Bx * 2 ^ (qx - ex)) * (By * 2 ^ (qy - ey))) by ring.
    apply Z.mul_le_mono_nonneg; lia.
Qed.

Lemma pos_iter_xO m d : Zpos (Pos.iter xO m d) = Zpos m * 2 ^ Zpos d.
Proof.
  induction d as [|d IH] using Pos.peano_ind.
  - cbn. lia.
  - rewrite Pos.iter_succ, Pos2Z.inj_xO, IH, Pos2Z.inj_succ, Z.pow_succ_r by lia. ring.
Qed.

(** [shl_align] moves a mantissa to a lower exponent. *)
Lemma shl_align_spec m e e' :
  snd (shl_align m e e') = Z.min e e' /\
  Zpos (fst (shl_align m e e')) = Zpos m * 2 ^ (e - Z.min e e').
Proof.
  unfold shl_align. destruct (e' - e) as [|p|p] eqn:E; cbn [fst snd].
  - rewrite Z.min_l by lia. rewrite Z.sub_diag. cbn. lia.
  - rewrite Z.min_l by lia. rewrite Z.sub_diag. cbn. lia.
  - rewrite Z.min_r by lia. split; [reflexivity|].
    rewrite pos_iter_xO. f_equal. f_equal. lia.
Qed.

Lemma Zdigits2_shift (m : positive) j :
  0 <= j -> Zdigits2 (Zpos m * 2 ^ j) = Zdigits2 (Zpos m) + j.
Proof.
  intros Hj. destruct (Zdigits2_bounds (Zpos m) ltac:(lia)) as (Hd & Hlo & Hhi).
  assert (Hp : 0 < 2 ^ j) by now apply pow2_pos.
  apply Zdigits2_unique; [lia|].
  replace (Zdigits2 (Zpos m) + j - 1) with ((Zdigits2 (Zpos m) - 1) + j) by lia.
  rewrite !pow2_split by lia. split; nia.
Qed.

(** [binary_round] hands [binary_round_aux] the same value at an
    exponent not above that of its rounding. *)
Lemma binary_round_spec s m e :
  exists M E, binary_round 24 128 s m e = binary_round_aux 24 128 s (Zpos M) E loc_Exact /\
    E <= e /\ Zpos M = Zpos m * 2 ^ (e - E) /\
    E <= fexp 24 128 (Zdigits2 (Zpos M) + E).
Proof.
  unfold binary_round.
  set (et := fexp 24 128 (Zpos (digits2_pos m) + e)).
  destruct (shl_align_spec m e et) as [He Hm].
  destruct (shl_align m e et) as [M E]. cbn [fst snd] in He, Hm.
  exists M, E. split; [reflexivity|]. split; [lia|]. split; [rewrite Hm; now subst E|].
  rewrite Hm, Zdigits2_shift by lia. subst E.
  replace (Zdigits2 (Zpos m) + (e - Z.min e et) + Z.min e et) with (Zpos (digits2_pos m) + e)
    by (cbn [Zdigits2]; lia).
  fold et. lia.
Qed.

Lemma binary_round_valid s m e : valid_binary 24 128 (binary_round 24 128 s m e) = true.
Proof.
  destruct (binary_round_spec s m e) as (M & E & -> & _ & _ & Hpre).
  apply binary_round_aux_valid; [lia|exact Hpre].
Qed.

Lemma binary_round_le s m e B q :
  0 < B < 2 ^ 24 -> -149 <= q <= 104 -> e <= q -> Zpos m <= B * 2 ^ (q - e) ->
  at_most (binary_round 24 128 s m e) B q.
Proof.
  intros HB Hq He Hm.
  destruct (binary_round_spec s m e) as (M & E & -> & HE & HM & Hpre).
  apply binary_round_aux_le; [lia|exact Hpre|exact HB|exact Hq|lia|].
  rewrite HM. replace (q - E) with ((q - e) + (e - E)) by lia.
  rewrite pow2_split by lia.
  assert (0 < 2 ^ (e - E)) by (apply pow2_pos; lia). nia.
Qed.

Lemma binary_normalize_valid S e sz :
  valid_binary 24 128 (binary_normalize 24 128 S e sz) = true.
Proof. destruct S; [reflexivity|apply binary_round_valid|apply binary_round_valid]. Qed.

Lemma binary_normalize_le S e sz B q :
  0 < B < 2 ^ 24 -> -149 <= q <= 104 -> e <= q -> Z.abs S <= B * 2 ^ (q - e) ->
  at_most (binary_normalize 24 128 S e sz) B q.
Proof.
  intros HB Hq He HS. destruct S as [|p|p]; [exact I| |];
    cbn [binary_normalize]; apply binary_round_le; assumption.
Qed.

Lemma binary_normalize_not_negative S e :
  0 <= S -> is_neg (binary_normalize 24 128 S e false) = false.
Proof.
  intros HS. destruct S as [|p|p]; [reflexivity| |lia]. cbn [binary_normalize].
  destruct (is_neg _) eqn:E; [|reflexivity]. apply binary_round_sign in E. discriminate E.
Qed.

(** The sum and the difference of two finite values. *)
Lemma SFadd_finite sx mx ex sy my ey :
  let ez := Z.min ex ey in
  SFadd 24 128 (S754_finite sx mx ex) (S754_finite sy my ey)
  = binary_normalize 24 128
      (cond_Zopp sx (Zpos mx * 2 ^ (ex - ez)) + cond_Zopp sy (Zpos my * 2 ^ (ey - ez)))
      ez false.
Proof.
  intros ez. cbn [SFadd]. fold ez.
  destruct (shl_align_spec mx ex ez) as [_ ->]. destruct (shl_align_spec my ey ez) as [_ ->].
  replace (Z.min ex ez) with ez by (unfold ez; lia).
  replace (Z.min ey ez) with ez by (unfold ez; lia). reflexivity.
Qed.

Lemma SFsub_finite sx mx ex sy my ey :
  let ez := Z.min ex ey in
  SFsub 24 128 (S754_finite sx mx ex) (S754_finite sy my ey)
  = binary_normalize 24 128
      (cond_Zopp sx (Zpos mx * 2 ^ (ex - ez)) - cond_Zopp sy (Zpos my * 2 ^ (ey - ez)))
      ez false.
Proof.
  intros ez. cbn [SFsub]. fold ez.
  destruct (shl_align_spec mx ex ez) as [_ ->]. destruct (shl_align_spec my ey ez) as [_ ->].
  replace (Z.min ex ez) with ez by (unfold ez; lia).
  replace (Z.min ey ez) with ez by (unfold ez; lia). reflexivity.
Qed.

Lemma SFadd_valid x y :
  valid_binary 24 128 x = true -> valid_binary 24 128 y = true ->
  valid_binary 24 128 (SFadd 24 128 x y) = true.
Proof.
  destruct x as [[]|[]| |sx mx ex], y as [[]|[]| |sy my ey]; try reflexivity;
    try (intros; assumption).
  intros _ _. rewrite SFadd_finite. apply binary_normalize_valid.
Qed.

Lemma SFsub_valid x y :
  valid_binary 24 128 x = true -> valid_binary 24 128 y = true ->
  valid_binary 24 128 (SFsub 24 128 x y) = true.
Proof.
  destruct x as [[]|[]| |sx mx ex], y as [[]|[]| |sy my ey]; try reflexivity;
    try (intros; assumption).
  intros _ _. rewrite SFsub_finite. apply binary_normalize_valid.
Qed.

Lemma SFopp_valid x : valid_binary 24 128 x = true -> valid_binary 24 128 (SFopp x) = true.
Proof. now destruct x. Qed.



(** Multiplication by one is exact. *)
Lemma binary_round_aux_one s (m : positive) e :
  SpecFloat.bounded 24 128 m e = true ->
  binary_round_aux 24 128 s (Zpos m * 2 ^ 23) (e - 23) loc_Exact = S754_finite s m e.
Proof.
  intros Hv. pose proof Hv as Hb.
  unfold SpecFloat.bounded, canonical_mantissa in Hb. apply andb_prop in Hb.
  destruct Hb as [Hc He]. apply Z.eqb_eq in Hc. apply Z.leb_le in He.
  destruct (valid_shape m e Hv) as (_ & Hm & _).
  assert (Hd : Zdigits2 (Zpos m * 2 ^ 23) + (e - 23) = Zpos (digits2_pos m) + e)
    by (rewrite Zdigits2_shift by lia; cbn [Zdigits2]; lia).
  destruct (binary_round_aux_shape s (Zpos m * 2 ^ 23) (e - 23)) as (m2 & _ & Hex & _ & -> & _).
  - lia.
  - rewrite Hd, Hc. lia.
  - rewrite Hd, Hc in *. replace (e - (e - 23)) with 23 in Hex by lia.
    rewrite Z.mod_mul, Z.div_mul in Hex by lia. rewrite (Hex eq_refl).
    destruct (Z.ltb_spec (Zpos m) (2 ^ 24)) as [_|]; [|lia].
    destruct (Z.leb_spec e 104) as [_|]; [|lia]. reflexivity.
Qed.

Lemma SFmul_one_r x :
  valid_binary 24 128 x = true -> SFmul 24 128 x (b32_of_Z 1) = x.
Proof.
  change (b32_of_Z 1) with (S754_finite false 8388608 (-23)).
  destruct x as [[]|[]| |s m e]; try reflexivity. cbn [valid_binary SFmul]. intros Hv.
  rewrite Pos2Z.inj_mul. change (Zpos 8388608) with (2 ^ 23).
  replace (e + -23) with (e - 23) by lia. replace (xorb s false) with s by now destruct s.
  now apply binary_round_aux_one.
Qed.

Lemma SFmul_one_l x :
  valid_binary 24 128 x = true -> SFmul 24 128 (b32_of_Z 1) x = x.
Proof.
  change (b32_of_Z 1) with (S754_finite false 8388608 (-23)).
  destruct x as [[]|[]| |s m e]; try reflexivity. cbn [valid_binary SFmul xorb]. intros Hv.
  rewrite Pos2Z.inj_mul. change (Zpos 8388608) with (2 ^ 23).
  replace (-23 + e) with (e - 23) by lia. rewrite Z.mul_comm.
  now apply binary_round_aux_one.
Qed.

(** A finite value that is not a zero, divided by itself, is one. *)
Lemma SFdiv_self x :
  is_finite x = true -> is_zero x = false -> SFdiv 24 128 x x = b32_of_Z 1.
Proof.
  destruct x as [| | |s m e]; try discriminate. intros _ _.
  cbn [SFdiv]. unfold SFdiv_core_binary.
  rewrite Z.sub_diag. rewrite Z.sub_diag.
  change (Z.min (fexp 24 128 0) 0) with (-24). change (0 - -24) with 24.
  rewrite Z.shiftl_mul_pow2 by lia.
  assert (E : Z.div_eucl (Zpos m * 2 ^ 24) (Zpos m) = (2 ^ 24, 0)).
  { pose proof (Z_div_mod (Zpos m * 2 ^ 24) (Zpos m) ltac:(lia)) as H.
    destruct (Z.div_eucl (Zpos m * 2 ^ 24) (Zpos m)) as [q r]. destruct H as [H1 H2].
    assert (q = 2 ^ 24) by nia. subst q. f_equal. lia. }
  rewrite E. replace (xorb s s) with false by now destruct s.
  assert (L : new_location (Zpos m) 0 = loc_Exact)
    by (unfold new_location; destruct (Z.even (Zpos m)); reflexivity).
  rewrite L. reflexivity.
Qed.

Lemma unit_range_exponent m e :
  unit_range (S754_finite false m e) -> e <= -23 /\ Zpos m <= 2 ^ (- e).
Proof.
  intros (Hv & _ & He & Hm). unfold is_binary32 in Hv. cbn [valid_binary] in Hv.
  destruct (valid_shape m e Hv) as (Hlo & _ & Hn).
  rewrite Z.mul_1_l in Hm. replace (0 - e) with (- e) in Hm by lia.
  split; [|exact Hm].
  destruct (Z_le_gt_dec e (-23)) as [|Hgt]; [assumption|].
  specialize (Hn ltac:(lia)).
  assert (2 ^ (- e) <= 2 ^ 22) by (apply Z.pow_le_mono_r; lia).
  change (2 ^ 23) with 8388608 in Hn. change (2 ^ 22) with 4194304 in *. lia.
Qed.

Lemma unit_range_square c : unit_range c -> unit_range (SFmul 24 128 c c).
Proof.
  intros (Hv & Hn & Hm). split; [now apply SFmul_valid|]. split.
  - now apply SFmul_not_negative.
  - refine (SFmul_le c c 1 0 1 0 Hv Hv Hm Hm _ _ _ _); cbn; lia.
Qed.

Lemma unit_range_one_times b : unit_range b -> unit_range (SFmul 24 128 (b32_of_Z 1) b).
Proof. intros H. rewrite SFmul_one_l; [exact H|apply H]. Qed.

Lemma unit_range_complement a : unit_range a -> unit_range (SFsub 24 128 (b32_of_Z 1) a).
Proof.
  intros H. change (b32_of_Z 1) with (S754_finite false 8388608 (-23)).
  destruct a as [s|s| |[] m e]; try (destruct H as (_ & Hn & Hm); cbn in Hn, Hm;
    try discriminate; contradiction).
  - cbn [SFsub]. split; [reflexivity|]. split; [reflexivity|]. cbn. lia.
  - destruct (unit_range_exponent m e H) as [He Hm].
    rewrite SFsub_finite. cbv zeta. rewrite Z.min_r by lia. cbn [cond_Zopp].
    rewrite Z.sub_diag. change (2 ^ 0) with 1. rewrite Z.mul_1_r.
    assert (Hs : 8388608 * 2 ^ (-23 - e) = 2 ^ (- e)).
    { change 8388608 with (2 ^ 23). rewrite <- pow2_split by lia. f_equal. lia. }
    rewrite Hs.
    assert (Hp : 0 < 2 ^ (- e)) by (apply pow2_pos; lia).
    split; [apply binary_normalize_valid|]. split.
    + apply binary_normalize_not_negative. lia.
    + apply binary_normalize_le; [cbn; lia|lia|lia|].
      rewrite Z.abs_eq by lia. replace (0 - e) with (- e) by lia. lia.
Qed.

(** With equal indices [k] is not negative: the branch of total internal
    reflection is not taken. *)
Lemma equal_indices_k c :
  unit_range c ->
  is_neg (SFsub 24 128 (b32_of_Z 1)
            (SFmul 24 128 (b32_of_Z 1)
               (SFsub 24 128 (b32_of_Z 1) (SFmul 24 128 c c)))) = false.
Proof.
  intros H.
  apply (unit_range_complement _ (unit_range_one_times _
           (unit_range_complement _ (unit_range_square _ H)))).
Qed.







End RoundingMonotone.

(** ** Facts for any float model *)

Section PolicyA_any.
Context {FM : FloatModel}.
Import PolicyA.
Open Scope fl_scope.

(** The record the loop of [scene_intersect] holds is the one it started
    with or the record of a sphere of the list, at the distance
    [sphere_ray_intersect] reports for it. *)
Lemma scene_loop_from origin direction l :
  forall st out,
    snd (fold_left (scene_step origin direction) l st) = Some out ->
    snd st = Some out \/
    exists s t, In s l /\ sphere_ray_intersect s origin direction = Some t /\
                out = scene_record origin direction s t.
Proof.
  induction l as [|a l IH]; intros st out H; [left; exact H|].
  cbn [fold_left] in H. apply IH in H. destruct H as [H | (s & t & Hin & Hs & ->)].
  - unfold scene_step in H. destruct st as [m o].
    destruct (sphere_ray_intersect a origin direction) as [t|] eqn:Ea; [|now left].
    destruct (t <? m); [|now left].
    right. exists a, t. cbn [snd] in H. injection H as <-.
    repeat split; [now left|assumption].
  - right. exists s, t. repeat split; [now right|assumption].
Qed.

Lemma scene_intersect_from origin direction l out :
  scene_intersect origin direction l = Some out ->
  exists s t, In s l /\ sphere_ray_intersect s origin direction = Some t /\
              out = scene_record origin direction s t.
Proof.
  unfold scene_intersect, scene_loop. intros H.
  destruct (fold_left (scene_step origin direction) l (FLT_MAX, None)) as [m o] eqn:E.
  destruct (m <? #1000); [|discriminate H]. subst o.
  destruct (scene_loop_from origin direction l (FLT_MAX, None) out) as [H|H].
  - now rewrite E.
  - discriminate H.
  - exact H.
Qed.

End PolicyA_any.

(** X8. In both versions the index [x + y * width] of a pixel of the
    image lies inside the pixel buffer of [width * height] entries, the
    [int] arithmetic does not overflow, and two different pixels never
    share an index. *)
Theorem pixel_index_in_bounds px py :
  (0 <= px < 640)%Z -> (0 <= py < 400)%Z ->
  ((0 <= PolicyA.pixel_index px py < PolicyA.WINDOW_WIDTH * PolicyA.WINDOW_HEIGHT)%Z /\
   (0 <= PolicyB.pixel_index px py < PolicyB.window_width * PolicyB.window_height)%Z) /\
  (PolicyA.WINDOW_WIDTH * PolicyA.WINDOW_HEIGHT < 2 ^ 31)%Z /\
  (PolicyB.window_width * PolicyB.window_height < 2 ^ 31)%Z /\
  forall px' py', (0 <= px' < 640)%Z -> (0 <= py' < 400)%Z ->
    (PolicyA.pixel_index px' py' = PolicyA.pixel_index px py -> px' = px /\ py' = py) /\
    (PolicyB.pixel_index px' py' = PolicyB.pixel_index px py -> px' = px /\ py' = py).
Proof.
  unfold PolicyA.pixel_index, PolicyB.pixel_index, PolicyA.WINDOW_WIDTH,
    PolicyA.WINDOW_HEIGHT, PolicyB.window_width, PolicyB.window_height.
  intros Hx Hy. split; [split; lia|]. split; [reflexivity|]. split; [reflexivity|].
  intros px' py' Hx' Hy'. split; intros E; lia.
Qed.

(** ** The C version in exact arithmetic *)

Section PolicyA_exact.
Variable real_powf : R -> R -> R.
Hypothesis real_powf_square : forall a, real_powf a 2 = (a * a)%R.
(** The float model of this section is [exact real_powf]. *)
#[local] Hint Extern 0 FloatModel => exact (exact real_powf) : typeclass_instances.
Import PolicyA.
Open Scope fl_scope.

Ltac toR :=
  change (@fl (exact real_powf)) with R in *;
  change (@fadd (exact real_powf)) with Rplus in *;
  change (@fsub (exact real_powf)) with Rminus in *;
  change (@fmul (exact real_powf)) with Rmult in *;
  change (@fdiv (exact real_powf)) with Rdiv in *;
  change (@fneg (exact real_powf)) with Ropp in *;
  change (@sqrtf (exact real_powf)) with sqrt in *;
  change (@flt (exact real_powf)) with (fun a b : R => if Rlt_dec a b then true else false) in *;
  change (@of_Z (exact real_powf)) with IZR in *;
  change (@powf (exact real_powf)) with real_powf in *;
  cbv beta in *.

Lemma flt_exact (a b : R) : (a <? b) = true <-> (a < b)%R.
Proof. toR. destruct (Rlt_dec a b); split; intros; auto; try discriminate; contradiction. Qed.

Lemma flt_exact_false (a b : R) : (a <? b) = false <-> (b <= a)%R.
Proof. toR. destruct (Rlt_dec a b); split; intros; auto; try discriminate; lra. Qed.

(** The clamped cosine *)
Lemma clamp_exact (d : R) :
  max #(-1) (min #1 d) = Rmax (-1) (Rmin 1 d).
Proof.
  unfold max, min. toR.
  unfold Rmax, Rmin.
  destruct (Rlt_dec 1 d), (Rle_dec 1 d);
  repeat match goal with
  | |- context [Rlt_dec ?a ?b] => destruct (Rlt_dec a b)
  | |- context [Rle_dec ?a ?b] => destruct (Rle_dec a b)
  end; lra.
Qed.

Lemma vec3_dot_exact (a b : vec3) :
  vec3_dot a b = (x a * x b + y a * y b + z a * z b)%R.
Proof. reflexivity. Qed.

Lemma refract_same_index_forward fuel I N eta :
  eta <> 0%R ->
  (- max #(-1) (min #1 (vec3_dot I N)) <? #0) = false ->
  vec3_refract (S fuel) I N eta eta = Some I.
Proof.
  intros Heta Hc. cbn [vec3_refract]. rewrite Hc.
  apply flt_exact_false in Hc. rewrite clamp_exact in *. toR.
  set (c := (- Rmax (-1) (Rmin 1 (vec3_dot I N)))%R) in *.
  assert (Hk : (1 - real_powf (eta / eta) 2 * (1 - real_powf c 2) = c * c)%R).
  { rewrite !real_powf_square. field. exact Heta. }
  rewrite Hk.
  destruct (Rlt_dec (c * c) 0) as [Hlt | _]; [nra|].
  rewrite sqrt_square by exact Hc.
  destruct I as [ix iy iz]. cbn [x y z]. do 2 f_equal; field; exact Heta.
Qed.

(** In exact arithmetic equal indices leave the direction as it is. *)
Lemma refract_equal_exact fuel I N eta :
  eta <> 0%R -> vec3_refract (S (S fuel)) I N eta eta = Some I.
Proof.
  intros Heta.
  destruct (- max #(-1) (min #1 (vec3_dot I N)) <? #0) eqn:Hc.
  - cbn [vec3_refract]. rewrite Hc.
    apply (refract_same_index_forward fuel I (vec3_inverse N) eta Heta).
    apply flt_exact in Hc. apply flt_exact_false.
    rewrite clamp_exact in *. rewrite vec3_dot_exact in *.
    unfold vec3_inverse. cbn [x y z]. toR.
    revert Hc. unfold Rmax, Rmin.
    repeat match goal with |- context [Rle_dec ?a ?b] => destruct (Rle_dec a b) end;
      intros; lra.
  - now apply refract_same_index_forward.
Qed.

Lemma unit_dot_bound (I N : vec3) :
  vec3_dot I I = 1%R -> vec3_dot N N = 1%R ->
  (-1 <= vec3_dot I N <= 1)%R.
Proof.
  rewrite !vec3_dot_exact. destruct I as [a b c], N as [u v w]. cbn [x y z].
  intros HI HN.
  assert (H : ((a * u + b * v + c * w) * (a * u + b * v + c * w) <= 1)%R).
  { replace 1%R with ((a * a + b * b + c * c) * (u * u + v * v + w * w))%R
      by (rewrite HI, HN; ring).
    pose proof (Rle_0_sqr (a * v - b * u)). pose proof (Rle_0_sqr (a * w - c * u)).
    pose proof (Rle_0_sqr (b * w - c * v)). unfold Rsqr in *. nra. }
  nra.
Qed.

Lemma refract_snell fuel I N eta_t eta_i :
  vec3_dot I I = 1%R -> vec3_dot N N = 1%R -> (vec3_dot I N <= 0)%R ->
  eta_t <> 0%R ->
  let eta := (eta_i / eta_t)%R in
  let k := (1 - eta * eta * (1 - vec3_dot I N * vec3_dot I N))%R in
  (0 <= k)%R ->
  exists T, vec3_refract (S fuel) I N eta_t eta_i = Some T /\
    vec3_dot T T = 1%R /\ vec3_dot T N = (- sqrt k)%R /\
    (x T - x N * vec3_dot T N = eta * (x I - x N * vec3_dot I N))%R /\
    (y T - y N * vec3_dot T N = eta * (y I - y N * vec3_dot I N))%R /\
    (z T - z N * vec3_dot T N = eta * (z I - z N * vec3_dot I N))%R.
Proof.
  intros HI HN Hd Ht eta k Hk.
  pose proof (unit_dot_bound I N HI HN) as [Hlo Hhi].
  cbn [vec3_refract]. rewrite clamp_exact.
  replace (Rmax (-1) (Rmin 1 (vec3_dot I N))) with (vec3_dot I N)
    by (unfold Rmax, Rmin;
        destruct (Rle_dec 1 (vec3_dot I N)); destruct (Rle_dec (-1) _); lra).
  toR. rewrite !real_powf_square.
  destruct (Rlt_dec (- vec3_dot I N) 0) as [Hneg | _]; [lra|].
  fold eta.
  replace (1 - eta * eta * (1 - - vec3_dot I N * - vec3_dot I N))%R with k
    by (unfold k; ring).
  destruct (Rlt_dec k 0) as [Hneg | _]; [lra|].
  eexists. split; [reflexivity|].
  pose proof (sqrt_sqrt k Hk) as Hs. 
  assert (Hkd : (k = 1 - eta * eta * (1 - vec3_dot I N * vec3_dot I N))%R) by reflexivity.
  clearbody k. set (s := sqrt k) in *. 
  rewrite !vec3_dot_exact in *. destruct I as [a b c], N as [u v w].
  cbn [x y z] in *. set (d := (a * u + b * v + c * w)%R) in *.
  assert (HTN : ((a * eta + u * (eta * - d - s)) * u + (b * eta + v * (eta * - d - s)) * v
                 + (c * eta + w * (eta * - d - s)) * w = - s)%R).
  { replace ((a * eta + u * (eta * - d - s)) * u + (b * eta + v * (eta * - d - s)) * v
             + (c * eta + w * (eta * - d - s)) * w)%R
      with (eta * d + (eta * - d - s) * (u * u + v * v + w * w))%R by (unfold d; ring).
    rewrite HN. ring. }
  repeat split.
  - replace ((a * eta + u * (eta * - d - s)) * (a * eta + u * (eta * - d - s))
             + (b * eta + v * (eta * - d - s)) * (b * eta + v * (eta * - d - s))
             + (c * eta + w * (eta * - d - s)) * (c * eta + w * (eta * - d - s)))%R
      with (eta * eta * (a * a + b * b + c * c) + 2 * eta * (eta * - d - s) * d
            + (eta * - d - s) * (eta * - d - s) * (u * u + v * v + w * w))%R
      by (unfold d; ring).
    rewrite HI, HN.
    replace (eta * eta * 1 + 2 * eta * (eta * - d - s) * d
             + (eta * - d - s) * (eta * - d - s) * 1)%R
      with (eta * eta * (1 - d * d) + s * s)%R by ring.
    rewrite Hs, Hkd. ring.
  - exact HTN.
  - rewrite HTN. ring.
  - rewrite HTN. ring.
  - rewrite HTN. ring.
Qed.

End PolicyA_exact.

(** ** The C++ version, for any float model and random source *)

Section PolicyB_any.
Context {FM : FloatModel} {FI : HasInfinity FM} {RS : RandomSource FM}.
Import PolicyB.
Open Scope fl_scope.

(** C5. With the depth budget exhausted ([depth <= 0]) [raytrace] returns
    black whatever the ray and the world, and draws nothing; so with
    [max_depth = 0] every sample of every pixel is black. *)
Theorem raytrace_depth_exhausted fuel r world depth g :
  (depth <= 0)%Z ->
  raytrace (S fuel) r world depth g = Some (Vec3 #0 #0 #0, g) /\
  forall cam px py, exists g',
    pixel_sample (S fuel) cam world 0 px py g = Some (Vec3 #0 #0 #0, g').
Proof.
  intros Hd. split.
  - cbn [raytrace]. apply Z.leb_le in Hd. now rewrite Hd.
  - intros cam px py. unfold pixel_sample.
    destruct (random_float g) as [jx g1]. destruct (random_float g1) as [jy g2].
    exists g2. reflexivity.
Qed.

(** C6. A ray that hits nothing, with depth left, gets the gradient
    [(1-t)*white + t*skyblue] with [t = 0.5*(unit_direction.y + 1)] and
    [skyblue = (0.5, 0.7, 1.0)]; a world without primitives gives it to
    every ray. *)
Theorem raytrace_background_gradient fuel r depth g :
  let unit_direction := glm.normalize (direction r) in
  let t := decimal 5 10 * (y unit_direction + #1) in
  let gradient := glm.add (glm.scale (#1 - t) (Vec3 #1 #1 #1))
                          (glm.scale t (Vec3 (decimal 5 10) (decimal 7 10) #1)) in
  (0 < depth)%Z ->
  (forall w, hit w r (decimal 1 1000) infinity = None ->
             raytrace (S fuel) r w depth g = Some (gradient, g)) /\
  raytrace (S fuel) r (world []) depth g = Some (gradient, g).
Proof.
  intros unit_direction t gradient Hd.
  assert (H : forall w, hit w r (decimal 1 1000) infinity = None ->
                        raytrace (S fuel) r w depth g = Some (gradient, g)).
  { intros w Hw. cbn [raytrace]. apply Z.leb_gt in Hd. now rewrite Hd, Hw. }
  split; [exact H|]. apply H. reflexivity.
Qed.

(** *** Fuel *)





(** The source is fair when, from every state, the rejection loop accepts
    a point after finitely many draws. *)
Hypothesis fair : forall g, exists n, random_in_unit_sphere n g <> None.



(** *** The rejection loop and nested worlds *)

(** X9. A point [random_in_unit_sphere] returns has failed the test
    [dot(p, p) >= 1] of the loop. *)
Theorem random_in_unit_sphere_inside fuel g p g' :
  random_in_unit_sphere fuel g = Some (p, g') ->
  (glm.dot p p >=? #1) = false.
Proof.
  revert g. induction fuel as [|fuel IH]; intros g H; [discriminate H|].
  cbn [random_in_unit_sphere] in H.
  destruct (random_vec3_in #(-1) #1 g) as [q g1].
  destruct (glm.dot q q >=? #1) eqn:E; [exact (IH _ H)|].
  injection H as <- <-. exact E.
Qed.

(** The state of the loop of [world::hit] after the objects [l], from any
    state: that of the last object hit, or the initial one. *)
Lemma world_loop_state r t_min l :
  forall c rec,
    fold_left (world_step r t_min) l (c, rec)
    = match world_hit l r t_min c with
      | Some t => (distance t, Some t)
      | None => (c, rec)
      end.
Proof.
  induction l as [|o l IH]; intros c rec; [reflexivity|].
  change (world_hit (o :: l) r t_min c)
    with (snd (fold_left (world_step r t_min) l (world_step r t_min (c, None) o))).
  cbn [fold_left].
  assert (Hs : forall rec', world_step r t_min (c, rec') o
                            = match hit o r t_min c with
                              | Some t => (distance t, Some t)
                              | None => (c, rec')
                              end) by reflexivity.
  rewrite !Hs. clear Hs.
  destruct (hit o r t_min c) as [t0|].
  - rewrite (IH (distance t0) (Some t0)).
    destruct (world_hit l r t_min (distance t0)); reflexivity.
  - rewrite (IH c rec), (IH c None).
    destruct (world_hit l r t_min c); reflexivity.
Qed.

(** X10. A world is itself a [hittable]: a world that holds one object
    hits what the object hits, and a world of worlds hits what the world
    of all their objects, listed in order, hits. *)
Theorem world_hit_nested ls o r t_min t_max :
  hit (world [o]) r t_min t_max = hit o r t_min t_max /\
  hit (world (map world ls)) r t_min t_max = hit (world (concat ls)) r t_min t_max.
Proof.
  split.
  - cbn. unfold world_hit. cbn. destruct (hit o r t_min t_max); reflexivity.
  - cbn [world hit]. unfold world_hit. generalize (@None hit_record).
    generalize t_max. induction ls as [|l ls IH]; intros c rec; [reflexivity|].
    cbn [map concat fold_left]. rewrite fold_left_app, world_loop_state.
    change (world_step r t_min (c, rec) (world l))
      with (match world_hit l r t_min c with
            | Some t => (distance t, Some t)
            | None => (c, rec)
            end).
    destruct (world_hit l r t_min c); apply IH.
Qed.

(** After a hit, [raytrace] halves the colour of the scattered ray. *)
Lemma raytrace_scatters fuel r world depth g record u g1 :
  (0 < depth)%Z -> hit world r (decimal 1 1000) infinity = Some record ->
  random_unit_vector fuel g = Some (u, g1) ->
  raytrace (S fuel) r world depth g
  = match raytrace fuel (scattered_ray record u) world (depth - 1) g1 with
    | Some (c, g) => Some (glm.scale (decimal 5 10) c, g)
    | None => None
    end.
Proof.
  intros Hd Hh Hu. cbn [raytrace]. destruct (depth <=? 0)%Z eqn:E; [lia|].
  rewrite Hh, Hu. reflexivity.
Qed.

End PolicyB_any.

(** ** Both versions on binary32 *)

Section Binary32.
Variable libm_powf : float32 -> float32 -> float32.
(** The float model of this section is [binary32 libm_powf]. *)
#[local] Hint Extern 0 FloatModel => exact (binary32 libm_powf) : typeclass_instances.
#[local] Hint Extern 0 (HasInfinity _) => exact (binary32_infinity libm_powf)
  : typeclass_instances.
#[local] Hint Extern 0 (ByteConversion _) => exact (binary32_bytes libm_powf)
  : typeclass_instances.
Open Scope fl_scope.

(** The operations of the instance, by their [SpecFloat] names. *)
Ltac to32 :=
  change (@fl (binary32 libm_powf)) with float32 in *;
  change (@flt (binary32 libm_powf)) with SFltb in *;
  change (@fle (binary32 libm_powf)) with SFleb in *;
  change (@fadd (binary32 libm_powf)) with (SFadd 24 128) in *;
  change (@fsub (binary32 libm_powf)) with (SFsub 24 128) in *;
  change (@fmul (binary32 libm_powf)) with (SFmul 24 128) in *;
  change (@fdiv (binary32 libm_powf)) with (SFdiv 24 128) in *;
  change (@fneg (binary32 libm_powf)) with SFopp in *;
  change (@sqrtf (binary32 libm_powf)) with (SFsqrt 24 128) in *;
  change (@of_Z (binary32 libm_powf)) with b32_of_Z in *;
  change (@powf (binary32 libm_powf)) with libm_powf in *.

(** *** The C version *)

Section PolicyA_binary32.
Import PolicyA.


Lemma FLT_MAX_not_below_1000 : (FLT_MAX <? #1000) = false.
Proof. reflexivity. Qed.

Lemma scene_step_miss origin direction st s :
  sphere_ray_intersect s origin direction = None ->
  scene_step origin direction st s = st.
Proof. intros H. unfold scene_step. destruct st. now rewrite H. Qed.

Lemma scene_loop_all_miss origin direction spheres :
  Forall (fun s => sphere_ray_intersect s origin direction = None) spheres ->
  scene_loop origin direction spheres = (FLT_MAX, None).
Proof.
  unfold scene_loop. generalize (FLT_MAX, @None scene_out).
  induction spheres as [|s spheres IH]; intros st H; simpl.
  - reflexivity.
  - inversion H; subst. rewrite scene_step_miss by assumption. now apply IH.
Qed.

Lemma scene_intersect_all_miss origin direction spheres :
  Forall (fun s => sphere_ray_intersect s origin direction = None) spheres ->
  scene_intersect origin direction spheres = None.
Proof.
  intros H. unfold scene_intersect. rewrite (scene_loop_all_miss _ _ _ H).
  now rewrite FLT_MAX_not_below_1000.
Qed.

(** C1. [cast_ray] returns the background constant (0.2, 0.7, 0.8) when
    the depth budget is exhausted ([depth] above 4: the primary ray has
    depth 0, so five generations are shaded), when no sphere of the scene
    is intersected, and more generally whenever [scene_intersect] reports
    no hit. *)
Theorem cast_ray_background fuel origin direction spheres lights depth :
  (4 < depth)%Z \/
  Forall (fun s => sphere_ray_intersect s origin direction = None) spheres \/
  scene_intersect origin direction spheres = None ->
  cast_ray (S fuel) origin direction spheres lights depth
  = Some (Vec3 (decimal 2 10) (decimal 7 10) (decimal 8 10)).
Proof.
  intros H. cbn [cast_ray].
  assert (E : (if (depth <=? 4)%Z then scene_intersect origin direction spheres
               else None) = None).
  { destruct H as [H | [H | H]].
    - apply Z.leb_gt in H. now rewrite H.
    - rewrite (scene_intersect_all_miss _ _ _ H). now destruct (depth <=? 4)%Z.
    - rewrite H. now destruct (depth <=? 4)%Z. }
  now rewrite E.
Qed.

Lemma SFltb_irrefl (a : float32) : SFltb a a = false.
Proof. sf_order. Qed.

Lemma scene_loop_snoc origin direction l s :
  scene_loop origin direction (l ++ [s])
  = scene_step origin direction (scene_loop origin direction l) s.
Proof. unfold scene_loop. now rewrite fold_left_app. Qed.

(** What the loop of [scene_intersect] holds after the spheres [l]: a
    number, not above any intersection distance of [l], and either the
    initial [FLT_MAX] or the distance and record of a sphere of [l]. *)
#[local] Abbreviation scene_inv origin direction l st :=
  (is_nan (fst st) = false /\
   (forall s t, In s l -> sphere_ray_intersect s origin direction = Some t ->
                (t <? fst st) = false) /\
   ((fst st = FLT_MAX /\ snd st = None) \/
    (exists s, In s l /\ sphere_ray_intersect s origin direction = Some (fst st) /\
               snd st = Some (scene_record origin direction s (fst st)) /\
               (fst st <? FLT_MAX) = true))).

Lemma scene_loop_inv origin direction l :
  scene_inv origin direction l (scene_loop origin direction l).
Proof.
  induction l as [|s l IH] using rev_ind.
  - repeat split; [intros ? ? []|now left].
  - rewrite scene_loop_snoc.
    destruct (scene_loop origin direction l) as [m out].
    destruct IH as (Hnum & Hlow & Hatt). unfold fst, snd in Hnum, Hlow, Hatt.
    assert (Hkeep : scene_inv origin direction (l ++ [s]) (m, out) \/
                    exists t, sphere_ray_intersect s origin direction = Some t /\
                              SFltb t m = true).
    { destruct (sphere_ray_intersect s origin direction) as [t|] eqn:Es.
      - destruct (SFltb t m) eqn:Et; [right; now exists t|].
        left. repeat split; unfold fst, snd; auto.
        + intros s' t' Hin Hs'. apply in_app_or in Hin as [Hin | [<- | []]].
          * now apply Hlow with s'.
          * rewrite Es in Hs'. now injection Hs' as <-.
        + destruct Hatt as [? | (s0 & Hin & ?)]; [now left|].
          right. exists s0. split; [apply in_or_app; now left|assumption].
      - left. repeat split; unfold fst, snd; auto.
        + intros s' t' Hin Hs'. apply in_app_or in Hin as [Hin | [<- | []]].
          * now apply Hlow with s'.
          * now rewrite Es in Hs'.
        + destruct Hatt as [? | (s0 & Hin & ?)]; [now left|].
          right. exists s0. split; [apply in_or_app; now left|assumption]. }
    unfold scene_step.
    destruct (sphere_ray_intersect s origin direction) as [t|] eqn:Es.
    + to32. destruct (SFltb t m) eqn:Et.
      * repeat split; unfold fst, snd.
        -- now apply SFltb_number in Et.
        -- intros s' t' Hin Hs'. to32.
           apply in_app_or in Hin as [Hin | [<- | []]].
           ++ specialize (Hlow _ _ Hin Hs'). to32.
              destruct (SFltb t' t) eqn:E; [|reflexivity].
              now rewrite (SFltb_trans _ _ _ E Et) in Hlow.
           ++ rewrite Es in Hs'. injection Hs' as <-. apply SFltb_irrefl.
        -- right. exists s. repeat split; auto.
           ++ apply in_or_app. right. now left.
           ++ destruct Hatt as [[-> _] | (_ & _ & _ & _ & Hm)]; [exact Et|].
              exact (SFltb_trans _ _ _ Et Hm).
      * destruct Hkeep as [H | (t0 & [=] & H)]; [exact H|]. congruence.
    + destruct Hkeep as [H | (t0 & [=] & H)]. exact H.
Qed.

(** When [scene_intersect] reports a hit, the record is that of a sphere
    intersected at the nearest distance, and that distance is below 1000;
    when it reports none, no sphere is intersected below 1000. *)
Lemma scene_intersect_spec origin direction spheres :
  match scene_intersect origin direction spheres with
  | Some out =>
    exists s t, nearest_intersection origin direction spheres s t /\
                (t <? #1000) = true /\ out = scene_record origin direction s t
  | None =>
    forall s t, In s spheres -> sphere_ray_intersect s origin direction = Some t ->
                (t <? #1000) = false
  end.
Proof.
  unfold scene_intersect.
  destruct (scene_loop_inv origin direction spheres) as (Hnum & Hlow & Hatt).
  destruct (scene_loop origin direction spheres) as [m out].
  unfold fst, snd in Hnum, Hlow, Hatt.
  destruct (m <? #1000) eqn:Em.
  - destruct Hatt as [[-> _] | (s & Hin & Hs & -> & _)]; [discriminate Em|].
    exists s, m. repeat split; auto.
  - intros s t Hin Hs. specialize (Hlow _ _ Hin Hs). to32.
    destruct (SFltb t (b32_of_Z 1000)) eqn:Et; [|reflexivity].
    apply SFltb_total in Hlow; [|now apply SFltb_number in Et|assumption].
    now rewrite (SFleb_ltb_trans _ _ _ Hlow Et) in Em.
Qed.

(** C10. [scene_intersect] reports a hit exactly when the nearest
    intersection lies at a distance strictly below 1000; a scene whose
    nearest intersection is at distance 1000 or more gives no hit, although
    a sphere is intersected. *)
Theorem scene_intersect_cutoff origin direction spheres :
  (scene_intersect origin direction spheres <> None <->
   exists s t, nearest_intersection origin direction spheres s t /\
               (t <? #1000) = true) /\
  (forall s t, nearest_intersection origin direction spheres s t ->
               (#1000 <=? t) = true ->
               scene_intersect origin direction spheres = None).
Proof.
  pose proof (scene_intersect_spec origin direction spheres) as H.
  split; [split|].
  - intros Hne.
    destruct (scene_intersect origin direction spheres) as [out|]; [|congruence].
    destruct H as (s & t & Hn & Ht & _). now exists s, t.
  - intros (s & t & (Hin & Hs & _) & Ht).
    destruct (scene_intersect origin direction spheres) as [out|]; [discriminate|].
    now rewrite (H _ _ Hin Hs) in Ht.
  - intros s t (Hin & Hs & Hmin) Ht.
    destruct (scene_intersect origin direction spheres) as [out|]; [|reflexivity].
    destruct H as (s' & t' & (Hin' & Hs' & _) & Ht' & _).
    specialize (Hmin _ _ Hin' Hs'). to32.
    now rewrite (SFltb_leb_trans _ _ _ Ht' Ht) in Hmin.
Qed.

(** *** The order of the spheres *)

Lemma scene_intersect_permutation origin direction l l' :
  Permutation l l' ->
  (scene_intersect origin direction l = None <->
   scene_intersect origin direction l' = None) /\
  (no_ties origin direction l ->
   scene_intersect origin direction l = scene_intersect origin direction l').
Proof.
  intros Hp.
  pose proof (scene_intersect_spec origin direction l) as H.
  pose proof (scene_intersect_spec origin direction l') as H'.
  destruct (scene_intersect origin direction l) as [out|],
           (scene_intersect origin direction l') as [out'|].
  - split; [split; discriminate|]. intros Hnt.
    destruct H as (s & t & (Hin & Hs & Hmin) & Ht & ->).
    destruct H' as (s' & t' & (Hin' & Hs' & Hmin') & Ht' & ->).
    apply (Permutation_in _ (Permutation_sym Hp)) in Hin'.
    pose proof (Hmin _ _ Hin' Hs') as H1.
    pose proof (Hmin' _ _ (Permutation_in _ Hp Hin) Hs) as H2. to32.
    apply SFltb_number in Ht as [Hn _]. apply SFltb_number in Ht' as [Hn' _].
    f_equal. apply Hnt; auto.
    + now apply SFltb_total.
    + now apply SFltb_total.
  - exfalso. destruct H as (s & t & (Hin & Hs & _) & Ht & _).
    now rewrite (H' _ _ (Permutation_in _ Hp Hin) Hs) in Ht.
  - exfalso. destruct H' as (s & t & (Hin & Hs & _) & Ht & _).
    now rewrite (H _ _ (Permutation_in _ (Permutation_sym Hp) Hin) Hs) in Ht.
  - now split.
Qed.

(** *** The intersection test *)

Lemma sphere_ray_intersect_outside s origin direction :
  let L := Vec3 (x (center s) - x origin) (y (center s) - y origin)
                (z (center s) - z origin) in
  let d2 := vec3_dot L L - powf (vec3_dot L direction) #2 in
  (d2 >? powf (radius s) #2) = true ->
  sphere_ray_intersect s origin direction = None.
Proof. intros L d2 H. unfold sphere_ray_intersect. fold L. fold d2. now rewrite H. Qed.

Lemma sphere_ray_intersect_not_behind s origin direction t :
  sphere_ray_intersect s origin direction = Some t -> (t <? #0) = false.
Proof.
  unfold sphere_ray_intersect. cbv zeta.
  destruct (_ >? powf (radius s) #2); [discriminate|].
  match goal with |- (if ?t0 <? _ then None else Some ?t0) = _ -> _ =>
    generalize t0 end.
  intros t0. destruct (t0 <? #0) eqn:E; [discriminate|].
  intros [= <-]. exact E.
Qed.

(** *** [vec3_refract] recurses at most once *)

Lemma vec3_dot_inverse I N :
  same_or_zeros (vec3_dot I (vec3_inverse N)) (SFopp (vec3_dot I N)).
Proof.
  unfold vec3_dot, vec3_inverse. cbn [x y z]. to32.
  rewrite !SFmul_opp_r.
  eapply same_or_zeros_trans; [|apply SFadd_opp].
  apply SFadd_same_or_zeros_l, SFadd_opp.
Qed.

Lemma cosi_negative d :
  (- max #(-1) (min #1 d) <? #0) = true -> is_pos d = true.
Proof.
  unfold max, min. to32. intros H.
  destruct d as [[]|[]| |[] m e]; try reflexivity; exfalso; revert H.
  1-4: (vm_compute; congruence).
  change (SFltb (b32_of_Z 1) (S754_finite true m e)) with false. cbv iota.
  destruct (SFltb (S754_finite true m e) (b32_of_Z (-1))); cbn; discriminate.
Qed.

Lemma cosi_of_negative d :
  is_neg d = true -> (- max #(-1) (min #1 d) <? #0) = false.
Proof.
  unfold max, min. to32. intros Hd.
  destruct d as [[]|[]| |[] m e]; try discriminate Hd.
  - reflexivity.
  - change (SFltb (b32_of_Z 1) (S754_finite true m e)) with false. cbv iota.
    destruct (SFltb (S754_finite true m e) (b32_of_Z (-1))); reflexivity.
Qed.

Lemma vec3_refract_flips_once I N :
  (- max #(-1) (min #1 (vec3_dot I N)) <? #0) = true ->
  (- max #(-1) (min #1 (vec3_dot I (vec3_inverse N))) <? #0) = false.
Proof.
  intros E. apply cosi_negative in E. apply cosi_of_negative.
  exact (same_or_zeros_neg _ _ (vec3_dot_inverse I N) E).
Qed.



(** *** [cast_ray] returns *)

(** The colour [cast_ray] composes from the two recursive colours. *)
#[local] Abbreviation shade direction point N m spheres lights reflect_color refract_color :=
  (let '(diffuse_light_intensity, specular_light_intensity) :=
     fold_left (light_step direction point N m spheres) lights (#0, #0) in
   Vec3
     (x (diffuse m) * diffuse_light_intensity * x4 (albedo m)
        + specular_light_intensity * y4 (albedo m)
        + x reflect_color * z4 (albedo m)
        + x refract_color * w4 (albedo m))
     (y (diffuse m) * diffuse_light_intensity * x4 (albedo m)
        + specular_light_intensity * y4 (albedo m)
        + y reflect_color * z4 (albedo m)
        + y refract_color * w4 (albedo m))
     (z (diffuse m) * diffuse_light_intensity * x4 (albedo m)
        + specular_light_intensity * y4 (albedo m)
        + z reflect_color * z4 (albedo m)
        + z refract_color * w4 (albedo m))).







(** *** Vectors, and colours that are not numbers *)

Lemma SFopp_involutive (a : float32) : SFopp (SFopp a) = a.
Proof. destruct a as [[]|[]| |[] ? ?]; reflexivity. Qed.

(** X25. [vec3_inverse] applied twice gives the vector back, bit for
    bit, for every vector: zeros of either sign, infinities and NaN
    included. *)
Theorem vec3_inverse_involutive v : vec3_inverse (vec3_inverse v) = v.
Proof.
  destruct v as [a b c]. unfold vec3_inverse. cbn [x y z]. to32.
  now rewrite !SFopp_involutive.
Qed.

(** X26. [vec3_normalize] does not guard the zero vector: with a [powf]
    whose square of a zero is a zero, every component of the result is
    NaN. *)
Theorem vec3_normalize_zero_vector sx sy sz :
  (forall s, is_zero (libm_powf (S754_zero s) #2) = true) ->
  let v := vec3_normalize (Vec3 (S754_zero sx) (S754_zero sy) (S754_zero sz)) in
  is_nan (x v) = true /\ is_nan (y v) = true /\ is_nan (z v) = true.
Proof.
  intros Hp. cbv zeta. unfold vec3_normalize, vec3_length. cbv zeta. cbn [x y z]. to32.
  pose proof (Hp sx) as Hx. pose proof (Hp sy) as Hy. pose proof (Hp sz) as Hz.
  to32. destruct (libm_powf (S754_zero sx) (b32_of_Z 2)) as [s1| | |]; try discriminate Hx.
  destruct (libm_powf (S754_zero sy) (b32_of_Z 2)) as [s2| | |]; try discriminate Hy.
  destruct (libm_powf (S754_zero sz) (b32_of_Z 2)) as [s3| | |]; try discriminate Hz.
  destruct s1, s2, s3, sx, sy, sz; vm_compute; auto.
Qed.

(** X27. The tone mapping of [main] does not remove a NaN: for a colour
    with a NaN channel the cast to [uint8_t] is undefined. *)
Theorem pixel_bytes_nan_undefined color :
  is_nan (x color) = true \/ is_nan (y color) = true \/ is_nan (z color) = true ->
  pixel_bytes color = None.
Proof.
  intros H.
  assert (Hn : forall a, is_nan a = true -> to_uint8 (#255 * a) = None).
  { intros a Ha. destruct a; try discriminate Ha. reflexivity. }
  assert (Hd : forall a b, is_nan a = true -> is_nan (a / b) = true).
  { intros a b Ha. destruct a; try discriminate Ha. reflexivity. }
  assert (Ht : is_nan (x (tone_map color)) = true \/ is_nan (y (tone_map color)) = true
               \/ is_nan (z (tone_map color)) = true).
  { unfold tone_map. cbv zeta. destruct (_ <? _); cbn [x y z]; [|exact H].
    destruct H as [H|[H|H]]; eauto using Hd. }
  unfold pixel_bytes. cbv zeta. destruct Ht as [Ht|[Ht|Ht]]; rewrite (Hn _ Ht);
    repeat match goal with
           | |- context [to_uint8 ?a] => destruct (to_uint8 a)
           end; reflexivity.
Qed.

(** *** The bytes of a pixel *)

Lemma SFltb_asym (a b : float32) : SFltb a b = true -> SFltb b a = false.
Proof. sf_order. Qed.

Lemma nonnegative_number_nan a : nonnegative_number a -> is_nan a = false.
Proof. intros (H & _ & _). now destruct a. Qed.

Lemma max_upper (a b : float32) :
  nonnegative_number a -> nonnegative_number b ->
  nonnegative_number (max a b) /\ SFltb (max a b) a = false /\ SFltb (max a b) b = false.
Proof.
  intros Ha Hb. unfold max. to32. destruct (SFltb b a) eqn:E.
  - split; [exact Ha|]. split; [apply SFltb_irrefl|now apply SFltb_asym].
  - split; [exact Hb|]. split; [exact E|apply SFltb_irrefl].
Qed.

Lemma not_below_trans (a b c : float32) :
  is_nan a = false -> is_nan b = false -> is_nan c = false ->
  SFltb c b = false -> SFltb b a = false -> SFltb c a = false.
Proof.
  intros Ha Hb Hc H1 H2. apply SFleb_not_ltb.
  apply SFleb_trans with b; now apply SFltb_total.
Qed.

(** One channel [c] of a colour whose largest channel is [cm]: divided by
    [cm] when that is above 1, multiplied by [0xff] and cast. *)
Lemma channel_cast (c cm : float32) :
  nonnegative_number c -> nonnegative_number cm -> SFltb cm c = false ->
  exists n,
    b32_to_uint8 (SFmul 24 128 (b32_of_Z 255)
                        (if SFltb (b32_of_Z 1) cm then SFdiv 24 128 c cm else c)) = Some n /\
    (0 <= n <= 255)%Z.
Proof.
  intros (Hcf & Hcn & Hcv) (Hmf & Hmn & Hmv) Hle.
  assert (Hz : forall s, exists n,
             b32_to_uint8 (SFmul 24 128 (b32_of_Z 255) (S754_zero s)) = Some n /\
             (0 <= n <= 255)%Z).
  { intros s. exists 0%Z. split; [destruct s; reflexivity|lia]. }
  destruct c as [sc| | |[] m e]; try discriminate Hcf; try discriminate Hcn.
  - destruct (SFltb (b32_of_Z 1) cm) eqn:E; [|apply Hz].
    destruct cm as [sm| | |[] mc ec]; try discriminate Hmf; try discriminate Hmn;
      try discriminate E.
    cbn [SFdiv]. apply Hz.
  - unfold is_binary32 in Hcv, Hmv. cbn [valid_binary] in Hcv.
    destruct (SFltb (b32_of_Z 1) cm) eqn:E.
    + destruct cm as [sm| | |[] mc ec]; try discriminate Hmf; try discriminate Hmn;
        try discriminate E.
      cbn [valid_binary] in Hmv.
      pose proof (div_below_unit m e mc ec Hcv Hmv Hle) as Hd.
      destruct (SFdiv 24 128 (S754_finite false m e) (S754_finite false mc ec))
        as [s3| | |[] m3 e3]; try contradiction; [apply Hz|].
      destruct Hd as [He3 Hm3]. now apply mul255_cast_unit.
    + assert (H1 : SFltb (b32_of_Z 1) (S754_finite false m e) = false).
      { destruct (SFltb (b32_of_Z 1) (S754_finite false m e)) eqn:E1; [|reflexivity].
        rewrite <- E. symmetry. apply SFltb_leb_trans with (S754_finite false m e);
          [exact E1|]. apply SFltb_total; [exact Hle|now destruct cm|reflexivity]. }
      destruct (not_above_one m e Hcv H1) as [He Hm].
      apply mul255_cast_unit; [exact He|].
      assert ((0 < 2 ^ (-23 - e))%Z) by (apply Z.pow_pos_nonneg; lia). lia.
Qed.

(** X15. For a colour whose channels are finite binary32 numbers, none
    negative, each of the three casts to [uint8_t] of [main] is defined
    and the bytes lie in 0..255: the tone mapping keeps [0xff * c] below
    256, rounding included. *)
Theorem pixel_bytes_defined color :
  nonnegative_number (x color) -> nonnegative_number (y color) ->
  nonnegative_number (z color) ->
  exists r g b, pixel_bytes color = Some (r, g, b) /\
    (0 <= r <= 255)%Z /\ (0 <= g <= 255)%Z /\ (0 <= b <= 255)%Z.
Proof.
  intros Hx Hy Hz.
  destruct (max_upper (y color) (z color) Hy Hz) as (Hm1 & Hy1 & Hz1).
  destruct (max_upper (x color) (max (y color) (z color)) Hx Hm1) as (Hm & Hx2 & Hm2).
  set (cm := max (x color) (max (y color) (z color))) in *.
  assert (Hy2 : SFltb cm (y color) = false).
  { apply not_below_trans with (max (y color) (z color));
      auto using nonnegative_number_nan. }
  assert (Hz2 : SFltb cm (z color) = false).
  { apply not_below_trans with (max (y color) (z color));
      auto using nonnegative_number_nan. }
  destruct (channel_cast (x color) cm Hx Hm Hx2) as (r & Er & Hr).
  destruct (channel_cast (y color) cm Hy Hm Hy2) as (g & Eg & Hg).
  destruct (channel_cast (z color) cm Hz Hm Hz2) as (b & Eb & Hb).
  exists r, g, b. split; [|repeat split; lia].
  unfold pixel_bytes, tone_map. cbv zeta. fold cm.
  change (@to_uint8 _ (binary32_bytes libm_powf)) with b32_to_uint8. to32.
  destruct (SFltb (b32_of_Z 1) cm); cbn [x y z]; rewrite Er, Eg, Eb; reflexivity.
Qed.

(** *** Colours that are not negative *)

Lemma max_zero_not_negative (a : float32) : is_neg (max #0 a) = false.
Proof.
  unfold max. to32. rewrite SFltb_zero. now destruct (is_neg a) eqn:E.
Qed.

Lemma light_step_not_negative direction point N m spheres acc l :
  (forall a, is_neg a = false -> is_neg (libm_powf a (specular_exponent m)) = false) ->
  nonnegative_light l -> is_neg (fst acc) = false -> is_neg (snd acc) = false ->
  is_neg (fst (light_step direction point N m spheres acc l)) = false /\
  is_neg (snd (light_step direction point N m spheres acc l)) = false.
Proof.
  intros Hp Hl Ha Hb. apply SFleb_zero in Hl.
  destruct acc as [dl sl]. cbn [fst snd] in Ha, Hb.
  unfold light_step. cbv zeta.
  set (ld := vec3_normalize _). set (so := offset_origin _ _ _).
  assert (Hlit : forall a e,
    is_neg (dl + max #0 a * intensity l) = false /\
    is_neg (sl + powf (max #0 e) (specular_exponent m) * intensity l) = false).
  { intros a e. to32. split.
    - apply SFadd_not_negative; [exact Ha|].
      apply SFmul_not_negative; [apply max_zero_not_negative|exact Hl].
    - apply SFadd_not_negative; [exact Hb|].
      apply SFmul_not_negative; [|exact Hl].
      apply Hp, max_zero_not_negative. }
  destruct (scene_intersect so ld spheres) as [shadow|].
  - match goal with |- context [if ?c then _ else _] => destruct c end;
      cbn [fst snd]; [split; assumption|apply Hlit].
  - cbn [fst snd]. apply Hlit.
Qed.

Lemma lights_not_negative direction point N m spheres lights :
  (forall a, is_neg a = false -> is_neg (libm_powf a (specular_exponent m)) = false) ->
  Forall nonnegative_light lights ->
  forall acc : fl * fl, is_neg (fst acc) = false -> is_neg (snd acc) = false ->
    is_neg (fst (fold_left (light_step direction point N m spheres) lights acc)) = false /\
    is_neg (snd (fold_left (light_step direction point N m spheres) lights acc)) = false.
Proof.
  intros Hp. induction 1 as [|l lights Hl _ IH]; intros acc Ha Hb; [now split|].
  cbn [fold_left].
  destruct (light_step_not_negative direction point N m spheres acc l Hp Hl Ha Hb).
  now apply IH.
Qed.

Lemma shade_not_negative (d dl ax sl ay rl az rr aw : float32) :
  is_neg d = false -> is_neg dl = false -> is_neg ax = false -> is_neg sl = false ->
  is_neg ay = false -> is_neg rl = false -> is_neg az = false -> is_neg rr = false ->
  is_neg aw = false ->
  is_neg (d * dl * ax + sl * ay + rl * az + rr * aw) = false.
Proof.
  intros. to32.
  repeat first [apply SFadd_not_negative | apply SFmul_not_negative]; assumption.
Qed.
(** X14. With materials and lights that have no negative channel or
    intensity, and a [powf] that is not negative on a base that is not
    negative for the specular exponents of the scene, no channel of a
    colour [cast_ray] returns compares below zero: a channel is a number
    that is not negative, an infinity included, or NaN. *)
Theorem cast_ray_nonnegative fuel origin direction spheres lights depth color :
  (forall s, In s spheres -> nonnegative_material (sphere_material s)) ->
  Forall nonnegative_light lights ->
  (forall s a, In s spheres -> (a <? #0) = false ->
     (powf a (specular_exponent (sphere_material s)) <? #0) = false) ->
  cast_ray fuel origin direction spheres lights depth = Some color ->
  (x color <? #0) = false /\ (y color <? #0) = false /\ (z color <? #0) = false.
Proof.
  intros Hm Hl Hp. to32. rewrite !SFltb_zero.
  assert (Hp' : forall s a, In s spheres -> is_neg a = false ->
                  is_neg (libm_powf a (specular_exponent (sphere_material s))) = false).
  { intros s a Hs Ha. rewrite <- SFltb_zero. apply Hp; [exact Hs|].
    to32. now rewrite SFltb_zero. }
  clear Hp.
  revert origin direction depth color.
  induction fuel as [|fuel IH]; intros origin direction depth color H; [discriminate H|].
  cbn [cast_ray] in H.
  destruct (if (depth <=? 4)%Z then scene_intersect origin direction spheres else None)
    as [[point N m]|] eqn:E.
  - assert (Hmat : exists s, In s spheres /\ m = sphere_material s).
    { destruct (depth <=? 4)%Z; [|discriminate E].
      apply scene_intersect_from in E. destruct E as (s & t & Hin & _ & E).
      apply (f_equal out_material) in E. cbn in E. now exists s. }
    destruct Hmat as (s & Hs & ->).
    destruct (cast_ray fuel _ _ spheres lights _) as [rl|] eqn:E1 in H; [|discriminate H].
    destruct (vec3_refract fuel direction N (refractive_index _) #1) as [rf|];
      [|discriminate H].
    destruct (cast_ray fuel _ _ spheres lights _) as [rr|] eqn:E2 in H; [|discriminate H].
    apply IH in E1. apply IH in E2.
    destruct (lights_not_negative direction point N (sphere_material s) spheres lights
                (fun a => Hp' s a Hs) Hl (#0, #0)) as [Hd Hs'];
      [reflexivity|reflexivity|].
    destruct (fold_left _ lights _) as [dl sl]. cbn [fst snd] in Hd, Hs'.
    injection H as <-. cbn [x y z].
    destruct (Hm s Hs) as (A1 & A2 & A3 & A4 & D1 & D2 & D3).
    apply SFleb_zero in A1, A2, A3, A4, D1, D2, D3.
    destruct E1 as (R1 & R2 & R3), E2 as (T1 & T2 & T3).
    repeat split; apply shade_not_negative; assumption.
  - injection H as <-. repeat split; reflexivity.
Qed.

(** *** The image plane *)

Lemma pixel_columns_mirror px :
  (0 <= px < 640)%Z ->
  let f i := SFsub 24 128 (SFadd 24 128 (b32_of_Z i) (SFdiv 24 128 (b32_of_Z 5) (b32_of_Z 10)))
                          (SFdiv 24 128 (b32_of_Z 640) (b32_of_Z 2)) in
  f (639 - px)%Z = SFopp (f px) /\ is_zero (f px) = false.
Proof.
  intros Hpx f.
  pose (P := fun i => float32_eqb (f (639 - i)%Z) (SFopp (f i)) && negb (is_zero (f i))).
  assert (H : P px = true)
    by (apply (range_check P 640); [vm_compute; reflexivity|exact Hpx]).
  unfold P in H. apply andb_prop in H. destruct H as [H1 H2].
  split; [now apply float32_eqb_eq|]. now destruct (is_zero (f px)).
Qed.

Lemma pixel_rows_mirror py :
  (0 <= py < 400)%Z ->
  let f i := SFadd 24 128 (SFopp (SFadd 24 128 (b32_of_Z i) (SFdiv 24 128 (b32_of_Z 5) (b32_of_Z 10))))
                          (SFdiv 24 128 (b32_of_Z 400) (b32_of_Z 2)) in
  f (399 - py)%Z = SFopp (f py) /\ is_zero (f py) = false.
Proof.
  intros Hpy f.
  pose (P := fun i => float32_eqb (f (399 - i)%Z) (SFopp (f i)) && negb (is_zero (f i))).
  assert (H : P py = true)
    by (apply (range_check P 400); [vm_compute; reflexivity|exact Hpy]).
  unfold P in H. apply andb_prop in H. destruct H as [H1 H2].
  split; [now apply float32_eqb_eq|]. now destruct (is_zero (f py)).
Qed.
(** X16. The image plane is centred on the optical axis, bit for bit:
    for every pixel of the image, mirroring the column or the row about
    the centre negates the [x] or the [y] component of the direction
    computed for the pixel, and neither component is ever a zero (the
    image has an even number of columns and of rows). *)
Theorem pixel_direction_symmetric tanf px py :
  (0 <= px < WINDOW_WIDTH)%Z -> (0 <= py < WINDOW_HEIGHT)%Z ->
  x (pixel_direction tanf (WINDOW_WIDTH - 1 - px) py) = - x (pixel_direction tanf px py) /\
  y (pixel_direction tanf px (WINDOW_HEIGHT - 1 - py)) = - y (pixel_direction tanf px py) /\
  is_zero (x (pixel_direction tanf px py)) = false /\
  is_zero (y (pixel_direction tanf px py)) = false.
Proof.
  unfold WINDOW_WIDTH, WINDOW_HEIGHT. intros Hx Hy.
  destruct (pixel_columns_mirror px Hx) as [X1 X2].
  destruct (pixel_rows_mirror py Hy) as [Y1 Y2].
  repeat split; [exact X1|exact Y1|exact X2|exact Y2].
Qed.

(** *** Refraction with equal indices *)

Lemma vec3_dot_valid (a b : vec3) :
  binary32_vector a -> binary32_vector b -> is_binary32 (vec3_dot a b) = true.
Proof.
  intros (A1 & A2 & A3) (B1 & B2 & B3). unfold vec3_dot, is_binary32 in *. to32.
  repeat first [apply SFadd_valid | apply SFmul_valid]; assumption.
Qed.

Lemma vec3_inverse_valid (v : vec3) : binary32_vector v -> binary32_vector (vec3_inverse v).
Proof.
  intros (A1 & A2 & A3). unfold binary32_vector, vec3_inverse, is_binary32 in *.
  cbn [x y z]. to32. repeat split; now apply SFopp_valid.
Qed.

(** The clamped cosine, when it is not negative, is NaN or in [[0, 1]]. *)
Lemma cosi_range (d : float32) :
  is_binary32 d = true ->
  let cosi := - max #(-1) (min #1 d) in
  (cosi <? #0) = false ->
  is_binary32 cosi = true /\ (is_nan cosi = true \/ unit_range cosi).
Proof.
  unfold max, min, is_binary32. to32. intros Hv.
  destruct d as [[]|[]| |[] m e]; cbv zeta.
  1-5: (intros H;
        first [vm_compute in H; discriminate H
              |split; [reflexivity|left; reflexivity]
              |split; [reflexivity|right; split; [reflexivity|split; [reflexivity|cbn; lia]]]]).
  - (* a negative number *)
    change (SFltb (b32_of_Z 1) (S754_finite true m e)) with false. cbv iota.
    destruct (SFltb (S754_finite true m e) (b32_of_Z (-1))) eqn:E; intros _.
    + split; [reflexivity|]. right. split; [reflexivity|split; [reflexivity|cbn; lia]].
    + cbn [SFopp negb]. split; [exact Hv|]. right. split; [exact Hv|]. split; [reflexivity|].
      assert (E' : SFltb (b32_of_Z 1) (S754_finite false m e) = false).
      { rewrite <- (SFltb_opp (S754_finite false m e) (b32_of_Z 1)). exact E. }
      destruct (not_above_one m e Hv E') as [He Hm].
      cbn [at_most]. split; [lia|]. rewrite Z.mul_1_l. replace (0 - e)%Z with (- e)%Z by lia.
      exact Hm.
  - (* a positive number: the cosine is negative *)
    intros H. exfalso. revert H.
    destruct (SFltb (b32_of_Z 1) (S754_finite false m e)); [vm_compute; discriminate|].
    change (SFltb (S754_finite false m e) (b32_of_Z (-1))) with false. cbv iota.
    cbn. discriminate.
Qed.

Section EqualIndices.
Hypothesis powf_square_rounded : forall a, libm_powf a #2 = a * a.

Lemma refract_equal_forward fuel (I N : vec3) (eta : float32) :
  is_finite eta = true -> is_zero eta = false ->
  binary32_vector I -> binary32_vector N ->
  let cosi := - max #(-1) (min #1 (vec3_dot I N)) in
  let delta := cosi - sqrtf (#1 - (#1 - cosi * cosi)) in
  (cosi <? #0) = false ->
  vec3_refract (S fuel) I N eta eta
  = Some (Vec3 (x I + x N * delta) (y I + y N * delta) (z I + z N * delta)).
Proof.
  intros Hf Hz HI HN cosi delta Hc.
  destruct (cosi_range (vec3_dot I N) (vec3_dot_valid I N HI HN) Hc) as [Hcv Hcr].
  fold cosi in Hcv, Hcr.
  cbn [vec3_refract]. fold cosi. rewrite Hc.
  to32. rewrite (SFdiv_self eta Hf Hz).
  rewrite !powf_square_rounded. to32.
  change (SFmul 24 128 (b32_of_Z 1) (b32_of_Z 1)) with (b32_of_Z 1).
  assert (Hk : SFltb (SFsub 24 128 (b32_of_Z 1)
                        (SFmul 24 128 (b32_of_Z 1)
                           (SFsub 24 128 (b32_of_Z 1) (SFmul 24 128 cosi cosi))))
                     (b32_of_Z 0) = false).
  { rewrite SFltb_zero. destruct Hcr as [Hnan|Hu]; [|now apply equal_indices_k].
    destruct cosi; try discriminate Hnan. reflexivity. }
  rewrite Hk.
  assert (Hb : valid_binary 24 128 (SFsub 24 128 (b32_of_Z 1) (SFmul 24 128 cosi cosi)) = true)
    by (apply SFsub_valid; [reflexivity|now apply SFmul_valid]).
  rewrite (SFmul_one_l _ Hb), (SFmul_one_l _ Hcv).
  destruct HI as (I1 & I2 & I3). rewrite !SFmul_one_r by assumption.
  reflexivity.
Qed.

Lemma refract_equal_binary32 fuel (I N : vec3) (eta : float32) :
  is_finite eta = true -> is_zero eta = false ->
  binary32_vector I -> binary32_vector N ->
  exists N', (N' = N \/ N' = vec3_inverse N) /\
    let cosi := - max #(-1) (min #1 (vec3_dot I N')) in
    let delta := cosi - sqrtf (#1 - (#1 - cosi * cosi)) in
    (cosi <? #0) = false /\
    vec3_refract (S (S fuel)) I N eta eta
    = Some (Vec3 (x I + x N' * delta) (y I + y N' * delta) (z I + z N' * delta)).
Proof.
  intros Hf Hz HI HN.
  destruct (- max #(-1) (min #1 (vec3_dot I N)) <? #0) eqn:Hc.
  - exists (vec3_inverse N). split; [now right|]. cbv zeta.
    pose proof (vec3_refract_flips_once I N Hc) as Hc'.
    split; [exact Hc'|].
    cbn [vec3_refract]. rewrite Hc.
    apply (refract_equal_forward fuel); try assumption. now apply vec3_inverse_valid.
  - exists N. split; [now left|]. cbv zeta. split; [exact Hc|].
    apply (refract_equal_forward (S fuel)); assumption.
Qed.

End EqualIndices.

End PolicyA_binary32.

(** *** The C++ version *)

Section PolicyB_binary32.
Import PolicyB.

Lemma sphere_hit_root s r t_min t_max rho :
  sphere_hit s r t_min t_max = Some rho ->
  exists root1 root2, sphere_roots s r = Some (root1, root2) /\
    (rho = sphere_record s r root1 \/ rho = sphere_record s r root2).
Proof.
  unfold sphere_hit. destruct (sphere_roots s r) as [[root1 root2]|]; [|discriminate].
  intros H. exists root1, root2. split; [reflexivity|].
  destruct ((root1 <? t_min) || (t_max <? root1)).
  - destruct ((root2 <? t_min) || (t_max <? root2)); [discriminate|].
    right. now injection H.
  - left. now injection H.
Qed.

Lemma sphere_hit_number s r t_min t_max rho :
  ordered_roots s r -> sphere_hit s r t_min t_max = Some rho ->
  is_nan (distance rho) = false.
Proof.
  intros Ho H. apply sphere_hit_root in H as (root1 & root2 & Hr & H).
  apply Ho, SFleb_number in Hr. destruct H as [-> | ->]; apply Hr.
Qed.

Lemma sphere_hit_within s r t_min t_max rho :
  sphere_hit s r t_min t_max = Some rho -> (t_max <? distance rho) = false.
Proof.
  unfold sphere_hit. destruct (sphere_roots s r) as [[root1 root2]|]; [|discriminate].
  destruct ((root1 <? t_min) || (t_max <? root1)) eqn:E1.
  - destruct ((root2 <? t_min) || (t_max <? root2)) eqn:E2; [discriminate|].
    intros [= <-]. now apply orb_false_elim in E2.
  - intros [= <-]. now apply orb_false_elim in E1.
Qed.

(** Narrowing the interval to [c] keeps the hits not beyond [c] and drops
    the others. *)
Lemma sphere_hit_narrow s r t_min t_max c :
  ordered_roots s r -> is_nan c = false -> (t_max <? c) = false ->
  match sphere_hit s r t_min c with
  | Some rho => sphere_hit s r t_min t_max = Some rho /\ (distance rho <=? c) = true
  | None => forall rho, sphere_hit s r t_min t_max = Some rho ->
                        (c <=? distance rho) = true
  end.
Proof.
  intros Ho Hc Hmax. unfold sphere_hit.
  destruct (sphere_roots s r) as [[root1 root2]|] eqn:Hr; [|discriminate].
  specialize (Ho _ _ Hr). to32.
  destruct (SFleb_number _ _ Ho) as [Hn1 Hn2].
  assert (Hin : forall root, is_nan root = false -> SFltb c root = false ->
                             SFltb t_max root = false /\ SFleb root c = true).
  { intros root Hn Hroot. pose proof (SFltb_total _ _ Hroot Hc Hn) as Hle.
    split; [|exact Hle].
    destruct (SFltb t_max root) eqn:E; [|reflexivity].
    now rewrite (SFltb_leb_trans _ _ _ E Hle) in Hmax. }
  destruct (SFltb root1 t_min) eqn:E1; cbn [orb].
  - destruct (SFltb root2 t_min) eqn:E2; cbn [orb]; [discriminate|].
    destruct (SFltb c root2) eqn:E3.
    + intros rho. destruct (SFltb t_max root2); [discriminate|].
      intros [= <-]. now apply SFltb_leb.
    + destruct (Hin root2 Hn2 E3) as [-> Hle]. now split.
  - destruct (SFltb c root1) eqn:E3.
    + assert (E4 : SFltb c root2 = true) by exact (SFltb_leb_trans _ _ _ E3 Ho).
      rewrite E4, orb_true_r.
      intros rho. destruct (SFltb t_max root1).
      * destruct (SFltb root2 t_min || SFltb t_max root2); [discriminate|].
        intros [= <-]. now apply SFltb_leb.
      * intros [= <-]. now apply SFltb_leb.
    + destruct (Hin root1 Hn1 E3) as [-> Hle]. now split.
Qed.

Lemma world_hit_snoc objects o r t_min t_max :
  fold_left (world_step r t_min) (objects ++ [o]) (t_max, None)
  = world_step r t_min (fold_left (world_step r t_min) objects (t_max, None)) o.
Proof. now rewrite fold_left_app. Qed.

(** What the loop of [world::hit] holds after the spheres [l]: nothing
    when none is hit within the interval, and otherwise the record of a
    sphere of [l] whose distance is not above that of any hit of [l]. *)
Lemma world_loop_inv r t_min t_max l :
  (forall s, In s l -> ordered_roots s r) ->
  let st := fold_left (world_step r t_min) (map sphere_hittable l) (t_max, None) in
  (snd st = None /\ fst st = t_max /\
   forall s, In s l -> sphere_hit s r t_min t_max = None) \/
  (exists rho s, snd st = Some rho /\ fst st = distance rho /\ In s l /\
     sphere_hit s r t_min t_max = Some rho /\
     is_nan (distance rho) = false /\ (t_max <? distance rho) = false /\
     forall s' rho', In s' l -> sphere_hit s' r t_min t_max = Some rho' ->
                     (distance rho <=? distance rho') = true).
Proof.
  induction l as [|s l IH] using rev_ind; intros Ho; cbv zeta.
  - left. repeat split. intros ? [].
  - rewrite map_app. cbn [map]. rewrite world_hit_snoc.
    assert (Hos : ordered_roots s r) by (apply Ho, in_or_app; right; now left).
    specialize (IH (fun s' H => Ho s' (in_or_app _ _ _ (or_introl H)))).
    cbv zeta in IH.
    destruct (fold_left _ (map sphere_hittable l) _) as [c rec].
    unfold fst, snd in IH. unfold world_step. cbn [hit sphere_hittable].
    destruct IH as [(-> & -> & Hnone) | (rho & s0 & -> & -> & Hin & Hs0 & Hnum & Hmax & Hmin)].
    + destruct (sphere_hit s r t_min t_max) as [rho|] eqn:Hs.
      * right. exists rho, s. unfold fst, snd. repeat split; auto.
        -- apply in_or_app. right. now left.
        -- now apply sphere_hit_number with s r t_min t_max.
        -- now apply sphere_hit_within with s r t_min.
        -- intros s' rho' Hin' Hs'. apply in_app_or in Hin' as [Hin' | [<- | []]].
           ++ now rewrite (Hnone _ Hin') in Hs'.
           ++ rewrite Hs in Hs'. injection Hs' as <-.
              apply SFleb_refl. now apply sphere_hit_number with s r t_min t_max.
      * left. unfold fst, snd. repeat split; auto.
        intros s' Hin'. apply in_app_or in Hin' as [Hin' | [<- | []]]; auto.
    + pose proof (sphere_hit_narrow s r t_min t_max (distance rho) Hos Hnum Hmax) as Hn.
      destruct (sphere_hit s r t_min (distance rho)) as [rho1|].
      * destruct Hn as [Hfull Hle]. right. exists rho1, s. unfold fst, snd.
        repeat split; auto.
        -- apply in_or_app. right. now left.
        -- now apply sphere_hit_number with s r t_min t_max.
        -- now apply sphere_hit_within with s r t_min.
        -- intros s' rho' Hin' Hs'. apply in_app_or in Hin' as [Hin' | [<- | []]].
           ++ exact (SFleb_trans _ _ _ Hle (Hmin _ _ Hin' Hs')).
           ++ rewrite Hfull in Hs'. injection Hs' as <-.
              apply SFleb_refl. now apply sphere_hit_number with s r t_min t_max.
      * right. exists rho, s0. unfold fst, snd. repeat split; auto.
        -- apply in_or_app. now left.
        -- intros s' rho' Hin' Hs'. apply in_app_or in Hin' as [Hin' | [<- | []]].
           ++ now apply Hmin with s'.
           ++ now apply Hn.
Qed.

Lemma world_hit_spec r t_min t_max l :
  (forall s, In s l -> ordered_roots s r) ->
  match world_hit (map sphere_hittable l) r t_min t_max with
  | Some rho =>
    (exists s, In s l /\ sphere_hit s r t_min t_max = Some rho) /\
    forall s' rho', In s' l -> sphere_hit s' r t_min t_max = Some rho' ->
                    (distance rho <=? distance rho') = true
  | None => forall s, In s l -> sphere_hit s r t_min t_max = None
  end.
Proof.
  intros Ho. unfold world_hit.
  destruct (world_loop_inv r t_min t_max l Ho)
    as [(-> & _ & Hnone) | (rho & s & -> & _ & Hin & Hs & _ & _ & Hmin)].
  - exact Hnone.
  - split; [now exists s|exact Hmin].
Qed.

(** *** A ray of zero direction *)

Lemma SFmul_zero_self a : is_zero a = true -> SFmul 24 128 a a = S754_zero false.
Proof. now destruct a as [[]|[]| |[] ? ?]. Qed.

Lemma SFmul_finite_zero a b :
  is_finite a = true -> is_zero b = true -> is_zero (SFmul 24 128 a b) = true.
Proof. now destruct a as [[]|[]| |[] ? ?], b as [[]|[]| |[] ? ?]. Qed.

Lemma SFadd_zeros a b :
  is_zero a = true -> is_zero b = true -> is_zero (SFadd 24 128 a b) = true.
Proof. now destruct a as [[]|[]| |[] ? ?], b as [[]|[]| |[] ? ?]. Qed.

Lemma SFadd_pos_zeros : SFadd 24 128 (S754_zero false) (S754_zero false) = S754_zero false.
Proof. reflexivity. Qed.

Lemma SFsub_pos_zero b : is_zero b = true -> SFsub 24 128 (S754_zero false) b = S754_zero false.
Proof. now destruct b as [[]|[]| |[] ? ?]. Qed.

Lemma SFdiv_zeros a b : is_zero a = true -> is_zero b = true -> SFdiv 24 128 a b = S754_nan.
Proof. now destruct a as [[]|[]| |[] ? ?], b as [[]|[]| |[] ? ?]. Qed.

Lemma sphere_hit_zero_direction s o dir t_min t_max :
  (forall a, is_zero a = true -> libm_powf a #2 = S754_zero false) ->
  is_zero (x dir) = true -> is_zero (y dir) = true -> is_zero (z dir) = true ->
  let oc := glm.sub o (center s) in
  is_finite (x oc) = true -> is_finite (y oc) = true -> is_finite (z oc) = true ->
  is_finite (glm.dot oc oc - powf (radius s) #2) = true ->
  sphere_hit s (Ray o dir) t_min t_max
  = Some (sphere_record s (Ray o dir) S754_nan).
Proof.
  intros Hpow Hx Hy Hz oc Hox Hoy Hoz Hc.
  assert (Ha : glm.dot dir dir = S754_zero false).
  { unfold glm.dot. to32. rewrite !SFmul_zero_self by assumption. reflexivity. }
  assert (Hb : is_zero (glm.dot oc dir) = true).
  { unfold glm.dot. to32. repeat apply SFadd_zeros; now apply SFmul_finite_zero. }
  assert (Hd : discriminant s (Ray o dir) = S754_zero false).
  { unfold discriminant. cbn [origin direction]. fold oc. rewrite Ha. to32.
    rewrite (Hpow _ Hb). apply SFsub_pos_zero.
    destruct (SFsub 24 128 (glm.dot oc oc) (libm_powf (radius s) (b32_of_Z 2)))
      as [[]|[]| |[] ? ?]; try discriminate Hc; reflexivity. }
  assert (Hr : sphere_roots s (Ray o dir) = Some (S754_nan, S754_nan)).
  { unfold sphere_roots. rewrite Hd. cbn [origin direction]. fold oc. rewrite Ha.
    to32. change (SFltb (S754_zero false) (b32_of_Z 0)) with false. cbv iota.
    change (SFsqrt 24 128 (S754_zero false)) with (S754_zero false).
    rewrite !SFdiv_zeros; try reflexivity.
    - apply SFadd_zeros; [|reflexivity]. now destruct (glm.dot oc dir) as [[]|[]| |[] ? ?].
    - destruct (glm.dot oc dir) as [[]|[]| |[] ? ?]; try discriminate Hb; reflexivity. }
  unfold sphere_hit. rewrite Hr. to32.
  now destruct t_max as [[]|[]| |[] ? ?].
Qed.

(** Whether [world::hit] reports a hit does not depend on the order. *)
Lemma world_hit_none_iff r t_min t_max l :
  world_hit (map sphere_hittable l) r t_min t_max = None <->
  forall s, In s l -> sphere_hit s r t_min t_max = None.
Proof.
  unfold world_hit.
  induction l as [|s l IH] using rev_ind.
  - split; [intros _ ? []|reflexivity].
  - rewrite map_app. cbn [map]. rewrite world_hit_snoc.
    destruct (fold_left _ (map sphere_hittable l) _) as [c rec] eqn:E.
    unfold snd in IH. unfold world_step. cbn [hit sphere_hittable].
    assert (Hc : rec = None -> c = t_max).
    { clear IH. revert c rec E. induction l as [|s0 l IHl] using rev_ind;
        intros c rec E Hrec.
      - now injection E as <- _.
      - rewrite map_app in E. cbn [map] in E. rewrite world_hit_snoc in E.
        destruct (fold_left _ (map sphere_hittable l) _) as [c0 rec0].
        unfold world_step in E. cbn [hit sphere_hittable] in E.
        destruct (sphere_hit s0 r t_min c0).
        + injection E as _ <-. discriminate.
        + injection E as <- <-. now apply IHl with rec0. }
    split.
    + intros H s' Hin.
      destruct (sphere_hit s r t_min c) eqn:Es; [discriminate|].
      unfold snd in H. rewrite (Hc H) in Es.
      apply in_app_or in Hin as [Hin | [<- | []]]; [|exact Es].
      now apply IH.
    + intros H.
      assert (Hrec : rec = None).
      { apply IH. intros s' Hin. apply H, in_or_app. now left. }
      rewrite (Hc Hrec), (H s) by (apply in_or_app; right; now left). exact Hrec.
Qed.

Lemma world_hit_permutation r t_min t_max l l' :
  Permutation l l' ->
  (world_hit (map sphere_hittable l) r t_min t_max = None <->
   world_hit (map sphere_hittable l') r t_min t_max = None) /\
  ((forall s, In s l -> ordered_roots s r) -> no_ties r t_min t_max l ->
   world_hit (map sphere_hittable l) r t_min t_max
   = world_hit (map sphere_hittable l') r t_min t_max).
Proof.
  intros Hp. split.
  - rewrite !world_hit_none_iff. split; intros H s Hin; apply H.
    + exact (Permutation_in _ (Permutation_sym Hp) Hin).
    + exact (Permutation_in _ Hp Hin).
  - intros Ho Hnt.
    assert (Ho' : forall s, In s l' -> ordered_roots s r).
    { intros s Hin. apply Ho. exact (Permutation_in _ (Permutation_sym Hp) Hin). }
    pose proof (world_hit_spec r t_min t_max l Ho) as H.
    pose proof (world_hit_spec r t_min t_max l' Ho') as H'.
    destruct (world_hit (map sphere_hittable l) r t_min t_max) as [rho|],
             (world_hit (map sphere_hittable l') r t_min t_max) as [rho'|].
    + destruct H as [(s & Hin & Hs) Hmin]. destruct H' as [(s' & Hin' & Hs') Hmin'].
      apply (Permutation_in _ (Permutation_sym Hp)) in Hin'.
      f_equal. apply (Hnt s s' rho rho' Hin Hin' Hs Hs').
      * exact (Hmin _ _ Hin' Hs').
      * exact (Hmin' _ _ (Permutation_in _ Hp Hin) Hs).
    + destruct H as [(s & Hin & Hs) _].
      now rewrite (H' s (Permutation_in _ Hp Hin)) in Hs.
    + destruct H' as [(s & Hin & Hs) _].
      now rewrite (H s (Permutation_in _ (Permutation_sym Hp) Hin)) in Hs.
    + reflexivity.
Qed.

(** *** The face normal *)

Lemma glm_dot_neg a b :
  same_or_zeros (glm.dot a (glm.neg b)) (SFopp (glm.dot a b)).
Proof.
  unfold glm.dot, glm.neg. cbn [x y z]. to32.
  rewrite !SFmul_opp_r.
  eapply same_or_zeros_trans; [|apply SFadd_opp].
  apply SFadd_same_or_zeros_l, SFadd_opp.
Qed.

(** X7. The normal [set_face_normal] stores never points along the ray:
    its dot product with the ray direction is not positive. *)
Theorem set_face_normal_faces_ray record r outward_normal :
  (#0 <? glm.dot (direction r)
                 (normal (set_face_normal record r outward_normal))) = false.
Proof.
  unfold set_face_normal. cbn [normal].
  destruct (glm.dot (direction r) outward_normal <? #0) eqn:E.
  - to32. revert E. generalize (glm.dot (direction r) outward_normal).
    intros d. change (b32_of_Z 0) with (S754_zero false).
    now destruct d as [[]|[]| |[] ? ?].
  - pose proof (glm_dot_neg (direction r) outward_normal) as H. to32.
    revert E H. generalize (glm.dot (direction r) outward_normal).
    generalize (glm.dot (direction r) (glm.neg outward_normal)).
    change (b32_of_Z 0) with (S754_zero false).
    intros d' d E [-> | [H1 H2]].
    + now destruct d as [[]|[]| |[] ? ?].
    + now destruct d' as [[]|[]| |[] ? ?].
Qed.

(** *** Camera rays, and colours that are not numbers *)

(** X29. For finite coordinates [u] and [v], the ray of the camera of
    [main] starts at the origin and its direction has [z = -1] exactly: a
    camera ray never has zero direction. *)
Theorem get_ray_never_degenerate u v :
  is_finite u = true -> is_finite v = true ->
  origin (get_ray camera_init u v) = Vec3 #0 #0 #0 /\
  z (direction (get_ray camera_init u v)) = #(-1).
Proof.
  intros Hu Hv. split; [reflexivity|].
  unfold get_ray, glm.sub, glm.add, glm.scale. cbn [direction x y z].
  assert (E1 : z (lower_left camera_init) = S754_finite true 8388608 (-23)).
  { vm_compute. reflexivity. }
  assert (E2 : z (horizontal camera_init) = S754_zero false) by reflexivity.
  assert (E3 : z (vertical camera_init) = S754_zero false) by reflexivity.
  assert (E4 : z (cam_origin camera_init) = S754_zero false) by reflexivity.
  rewrite E1, E2, E3, E4. to32.
  destruct u as [su| | |su mu eu], v as [sv| | |sv mv ev]; try discriminate;
    destruct su, sv; reflexivity.
Qed.

(** X28. The gamma correction and the clamp of [main] do not remove a
    NaN: for a summed colour with a NaN channel the cast to [uint8_t] is
    undefined. *)
Theorem pixel_channel_nan_undefined color :
  is_nan (x color) = true \/ is_nan (y color) = true \/ is_nan (z color) = true ->
  pixel_bytes color = None.
Proof.
  intros H.
  assert (Hn : forall a, is_nan a = true -> pixel_channel a = None).
  { intros a Ha. destruct a; try discriminate Ha. vm_compute. reflexivity. }
  unfold pixel_bytes. destruct H as [H|[H|H]]; rewrite (Hn _ H);
    repeat match goal with
           | |- context [pixel_channel ?a] => destruct (pixel_channel a)
           end; reflexivity.
Qed.

(** X24. For a summed channel whose averaged, gamma-corrected value is a
    binary32 number (not NaN), the cast to [uint8_t] of [main] is defined
    and the byte lies in 0..254: the clamp to [0, 0.999f] keeps
    [0xff * c] below 255, rounding included, so the byte 255 is never
    written. *)
Theorem pixel_channel_defined c :
  let v := sqrtf (c * (#1 / #samples_per_pixel)) in
  is_nan v = false -> is_binary32 v = true ->
  exists n, pixel_channel c = Some n /\ (0 <= n <= 254)%Z.
Proof.
  cbv zeta. unfold pixel_channel, is_binary32. cbv zeta.
  generalize (sqrtf (c * (#1 / #samples_per_pixel))). intros v Hn Hv.
  change (@to_uint8 _ (binary32_bytes libm_powf)) with b32_to_uint8.
  unfold glm.clamp, glm.min, glm.max. to32.
  change (@decimal (binary32 libm_powf) 999 1000) with (S754_finite false 16760439 (-24)).
  change (b32_of_Z 0) with (S754_zero false).
  assert (HK : b32_to_uint8 (SFmul 24 128 (b32_of_Z 255) (S754_finite false 16760439 (-24)))
               = Some 254%Z) by (vm_compute; reflexivity).
  destruct v as [s|[]| |[] m e]; try discriminate Hn.
  - exists 0%Z. split; [|lia]. destruct s; vm_compute; reflexivity.
  - exists 0%Z. split; [|lia]. vm_compute. reflexivity.
  - exists 254%Z. split; [|lia]. vm_compute. reflexivity.
  - exists 0%Z. split; [|lia].
    change (SFltb (S754_finite true m e) (S754_zero false)) with true. cbv iota.
    vm_compute. reflexivity.
  - change (SFltb (S754_finite false m e) (S754_zero false)) with false. cbv iota.
    destruct (SFltb (S754_finite false 16760439 (-24)) (S754_finite false m e)) eqn:E.
    + exists 254%Z. split; [exact HK|lia].
    + cbn [valid_binary] in Hv. destruct (valid_shape m e Hv) as (_ & Hm & _).
      assert (Hb : (e <= -24)%Z /\ (Zpos m <= 16760439 * 2 ^ (- e - 24))%Z).
      { unfold SFltb, SFcompare in E.
        destruct (Z.compare_spec (-24) e) as [<-|Hlt|Hgt]; [|discriminate E|].
        - split; [lia|]. change (2 ^ (- -24 - 24))%Z with 1%Z.
          rewrite Pos.compare_cont_spec in E. cbn [Pos.switch_Eq] in E.
          rewrite Z.mul_1_r.
          destruct (16760439 ?= m)%positive eqn:C; [|discriminate E|].
          + apply Pos.compare_eq in C. rewrite <- C. reflexivity.
          + apply Pos.compare_gt_iff in C. apply Z.lt_le_incl.
            exact (Pos2Z.pos_lt_pos _ _ C).
        - split; [lia|].
          assert (Hp : (2 ^ 1 <= 2 ^ (- e - 24))%Z) by (apply Z.pow_le_mono_r; lia).
          change (2 ^ 1)%Z with 2%Z in Hp. change (2 ^ 24)%Z with 16777216%Z in Hm. lia. }
      destruct (mul255_cast m e (proj1 Hb) (proj2 Hb)) as (n & H & Hr).
      exists n. split; [exact H|lia].
Qed.

(** *** The rejection loop with a fair generator *)


End PolicyB_binary32.

(** *** Scene resolution, the intersection tests and termination *)

(** C2 (amended). Both scene-level intersections scan the primitives once,
    keeping the closest hit so far.  [scene_intersect] reports the record
    of a sphere intersected at the nearest distance when that distance is
    below 1000, and no hit when no sphere is intersected below 1000.
    [world::hit] returns the record of the sphere hit nearest within
    [[t_min, t_max]], and no hit when no sphere is hit within it, provided
    the two roots computed for every sphere are numbers in increasing
    order. *)
Theorem scene_resolution_nearest :
  (forall origin direction spheres,
     match PolicyA.scene_intersect origin direction spheres with
     | Some out =>
       exists s t, PolicyA.nearest_intersection origin direction spheres s t /\
                   (t <? #1000) = true /\
                   out = PolicyA.scene_record origin direction s t
     | None =>
       forall s t, In s spheres ->
                   PolicyA.sphere_ray_intersect s origin direction = Some t ->
                   (t <? #1000) = false
     end) /\
  (forall r t_min t_max l,
     (forall s, In s l -> PolicyB.ordered_roots s r) ->
     match PolicyB.world_hit (map PolicyB.sphere_hittable l) r t_min t_max with
     | Some rho =>
       (exists s, In s l /\ PolicyB.sphere_hit s r t_min t_max = Some rho) /\
       forall s' rho', In s' l -> PolicyB.sphere_hit s' r t_min t_max = Some rho' ->
                       (PolicyB.distance rho <=? PolicyB.distance rho') = true
     | None => forall s, In s l -> PolicyB.sphere_hit s r t_min t_max = None
     end).
Proof.
  split.
  - exact scene_intersect_spec.
  - exact world_hit_spec.
Qed.

(** C3 (amended). Neither intersection test guards a degenerate direction.
    [sphere_ray_intersect] has no division; it reports no hit when
    [d2 > radius^2] and never reports a negative distance.  [sphere::hit]
    reports no hit when the discriminant is negative and never reports a
    distance it finds outside [[t_min, t_max]]; but it divides by [a]
    unguarded: for a ray of zero direction (the sphere, the origin and
    [c] finite, [powf] of a zero being zero) the quotient is NaN, which
    passes both interval tests, and it reports a hit at distance NaN. *)
Theorem sphere_intersection_degenerate :
  (forall s origin direction,
     let L := Vec3 (x (PolicyA.center s) - x origin) (y (PolicyA.center s) - y origin)
                   (z (PolicyA.center s) - z origin) in
     let d2 := PolicyA.vec3_dot L L - powf (PolicyA.vec3_dot L direction) #2 in
     (d2 >? powf (PolicyA.radius s) #2) = true ->
     PolicyA.sphere_ray_intersect s origin direction = None) /\
  (forall s origin direction t,
     PolicyA.sphere_ray_intersect s origin direction = Some t -> (t <? #0) = false) /\
  (forall s r t_min t_max,
     (PolicyB.discriminant s r <? #0) = true ->
     PolicyB.sphere_hit s r t_min t_max = None) /\
  (forall s r t_min t_max rho,
     PolicyB.sphere_hit s r t_min t_max = Some rho ->
     (PolicyB.distance rho <? t_min) = false /\
     (t_max <? PolicyB.distance rho) = false) /\
  (forall s o dir t_min t_max,
     (forall a, is_zero a = true -> libm_powf a #2 = S754_zero false) ->
     is_zero (x dir) = true -> is_zero (y dir) = true -> is_zero (z dir) = true ->
     let oc := glm.sub o (PolicyB.center s) in
     is_finite (x oc) = true -> is_finite (y oc) = true -> is_finite (z oc) = true ->
     is_finite (glm.dot oc oc - powf (PolicyB.radius s) #2) = true ->
     exists rho, PolicyB.sphere_hit s (PolicyB.Ray o dir) t_min t_max = Some rho /\
                 PolicyB.distance rho = S754_nan).
Proof.
  repeat split.
  - exact sphere_ray_intersect_outside.
  - exact sphere_ray_intersect_not_behind.
  - intros s r t_min t_max H. unfold PolicyB.sphere_hit, PolicyB.sphere_roots.
    now rewrite H.
  - revert H. unfold PolicyB.sphere_hit.
    destruct (PolicyB.sphere_roots s r) as [[root1 root2]|]; [|discriminate].
    destruct ((root1 <? t_min) || (t_max <? root1)) eqn:E1.
    + destruct ((root2 <? t_min) || (t_max <? root2)) eqn:E2; [discriminate|].
      intros [= <-]. now apply orb_false_elim in E2.
    + intros [= <-]. now apply orb_false_elim in E1.
  - now apply sphere_hit_within with s r t_min.
  - intros s o dir t_min t_max Hpow Hx Hy Hz oc Hox Hoy Hoz Hc.
    eexists. split; [now apply sphere_hit_zero_direction|reflexivity].
Qed.

(** C8 (amended). For every permutation of the primitives, whether a hit
    is reported is the same, and the hit is the same when primitives hit
    at equal distances have equal records (and, for [world::hit], the two
    roots computed for every sphere are numbers in increasing order). *)
Theorem scene_resolution_permutation :
  (forall origin direction l l', Permutation l l' ->
     (PolicyA.scene_intersect origin direction l = None <->
      PolicyA.scene_intersect origin direction l' = None) /\
     (PolicyA.no_ties origin direction l ->
      PolicyA.scene_intersect origin direction l
      = PolicyA.scene_intersect origin direction l')) /\
  (forall r t_min t_max l l', Permutation l l' ->
     (PolicyB.world_hit (map PolicyB.sphere_hittable l) r t_min t_max = None <->
      PolicyB.world_hit (map PolicyB.sphere_hittable l') r t_min t_max = None) /\
     ((forall s, In s l -> PolicyB.ordered_roots s r) ->
      PolicyB.no_ties r t_min t_max l ->
      PolicyB.world_hit (map PolicyB.sphere_hittable l) r t_min t_max
      = PolicyB.world_hit (map PolicyB.sphere_hittable l') r t_min t_max)).
Proof.
  split.
  - exact scene_intersect_permutation.
  - exact world_hit_permutation.
Qed.


End Binary32.

(** ** Refraction *)

(** C4 (amended). [vec3_refract] flips the normal and calls itself with
    the indices swapped when the clamped cosine [cosi] is negative, that
    is when the ray meets the surface from the inside, and it does so at
    most once.  Total internal reflection ([k < 0]) is not handled that
    way: the function returns the constant vector (1, 0, 0).  Otherwise it
    returns Snell's direction [eta*I + (eta*cosi - sqrt k)*N]: in exact
    arithmetic, for unit [I] and [N] with [I.N <= 0], a unit vector on
    the far side of the surface whose component along the surface is
    [eta] times that of [I]. *)
Theorem vec3_refract_branches :
  (forall (FM : FloatModel) fuel I N eta_t eta_i,
     let cosi := (- PolicyA.max #(-1) (PolicyA.min #1 (PolicyA.vec3_dot I N)))%fl in
     let eta := (eta_i / eta_t)%fl in
     let k := (#1 - powf eta #2 * (#1 - powf cosi #2))%fl in
     ((cosi <? #0)%fl = true ->
      PolicyA.vec3_refract (S fuel) I N eta_t eta_i
      = PolicyA.vec3_refract fuel I (PolicyA.vec3_inverse N) eta_i eta_t) /\
     ((cosi <? #0)%fl = false -> (k <? #0)%fl = true ->
      PolicyA.vec3_refract (S fuel) I N eta_t eta_i = Some (Vec3 #1 #0 #0)%fl) /\
     ((cosi <? #0)%fl = false -> (k <? #0)%fl = false ->
      PolicyA.vec3_refract (S fuel) I N eta_t eta_i
      = Some (Vec3 (x I * eta + x N * (eta * cosi - sqrtf k))
                   (y I * eta + y N * (eta * cosi - sqrtf k))
                   (z I * eta + z N * (eta * cosi - sqrtf k)))%fl)) /\
  (forall libm_powf (I N : @vec3 (binary32 libm_powf)),
     (- PolicyA.max #(-1) (PolicyA.min #1 (PolicyA.vec3_dot I N)) <? #0)%fl = true ->
     (- PolicyA.max #(-1) (PolicyA.min #1
          (PolicyA.vec3_dot I (PolicyA.vec3_inverse N))) <? #0)%fl = false) /\
  (forall real_powf, (forall a, real_powf a 2 = a * a)%R ->
   forall fuel (I N : @vec3 (exact real_powf)) (eta_t eta_i : R),
     PolicyA.vec3_dot I I = 1%R -> PolicyA.vec3_dot N N = 1%R ->
     (PolicyA.vec3_dot I N <= 0)%R -> eta_t <> 0%R ->
     let eta := (eta_i / eta_t)%R in
     let k := (1 - eta * eta * (1 - PolicyA.vec3_dot I N * PolicyA.vec3_dot I N))%R in
     (0 <= k)%R ->
     exists T, PolicyA.vec3_refract (S fuel) I N eta_t eta_i = Some T /\
       PolicyA.vec3_dot T T = 1%R /\ PolicyA.vec3_dot T N = (- sqrt k)%R /\
       (x T - x N * PolicyA.vec3_dot T N = eta * (x I - x N * PolicyA.vec3_dot I N))%R /\
       (y T - y N * PolicyA.vec3_dot T N = eta * (y I - y N * PolicyA.vec3_dot I N))%R /\
       (z T - z N * PolicyA.vec3_dot T N = eta * (z I - z N * PolicyA.vec3_dot I N))%R).
Proof.
  split; [|split].
  - intros FM fuel I N eta_t eta_i cosi eta k. cbn [PolicyA.vec3_refract].
    fold cosi. fold eta. fold k.
    repeat split; intros Hc; rewrite Hc; try reflexivity; intros Hk; now rewrite Hk.
  - exact vec3_refract_flips_once.
  - exact refract_snell.
Qed.

(** C7 (amended). With equal refractive indices (finite, not zero)
    [vec3_refract] never takes the branch of total internal reflection
    and returns the incident direction displaced along the normal:
    [I + delta * N'], where [N'] is [N], or [-N] when the ray meets the
    surface from the inside, and [delta = cosi - sqrtf (1 - (1 - cosi^2))]
    for the clamped cosine [cosi]; on binary32 for vectors of binary32
    numbers and a [powf] that returns the rounded square.  In exact
    arithmetic [delta] is zero and the result is [I] itself; on binary32
    [delta] is what the roundings leave, and it is scaled by the normal. *)
Theorem vec3_refract_equal_indices :
  (forall libm_powf,
     (forall a, libm_powf a (b32_of_Z 2) = SFmul 24 128 a a) ->
   forall fuel (I N : @vec3 (binary32 libm_powf)) (eta : float32),
     is_finite eta = true -> is_zero eta = false ->
     binary32_vector I -> binary32_vector N ->
     exists N', (N' = N \/ N' = PolicyA.vec3_inverse N) /\
       let cosi := (- PolicyA.max #(-1) (PolicyA.min #1 (PolicyA.vec3_dot I N')))%fl in
       let delta := (cosi - sqrtf (#1 - (#1 - cosi * cosi)))%fl in
       (cosi <? #0)%fl = false /\
       PolicyA.vec3_refract (S (S fuel)) I N eta eta
       = Some (Vec3 (x I + x N' * delta) (y I + y N' * delta) (z I + z N' * delta))%fl) /\
  (forall real_powf, (forall a, real_powf a 2 = a * a)%R ->
   forall fuel (I N : @vec3 (exact real_powf)) (eta : R), eta <> 0%R ->
     PolicyA.vec3_refract (S (S fuel)) I N eta eta = Some I).
Proof.
  split.
  - exact refract_equal_binary32.
  - exact refract_equal_exact.
Qed.

Lemma powf_real_square (a : R) : powf_real a 2 = (a * a)%R.
Proof. unfold powf_real. destruct (Req_dec_T 2 2); [reflexivity|contradiction]. Qed.

(** * The claims on concrete inputs *)

Section Examples.
(** The float model of this section is [binary32 powf_square]. *)
#[local] Hint Extern 0 FloatModel => exact (binary32 powf_square) : typeclass_instances.
#[local] Hint Extern 0 (HasInfinity _) => exact (binary32_infinity powf_square)
  : typeclass_instances.
Open Scope fl_scope.

(** Evaluation of the left-hand side of an equation, in the goal or in a
    hypothesis, by the virtual machine. *)
Ltac run :=
  match goal with
  | |- ?a = _ =>
    let v := eval vm_compute in a in
    transitivity v; [vm_cast_no_check (@eq_refl _ v)|]
  end.

Ltac run_in H :=
  match type of H with
  | ?a = _ =>
    let v := eval vm_compute in a in
    let E := fresh in
    assert (E : a = v) by vm_cast_no_check (@eq_refl _ v);
    rewrite E in H; clear E
  end.

(** The scene of [main] seen from the origin along the [y] axis: no
    sphere is intersected. *)
Lemma cast_ray_background_witness :
  Forall (fun s => PolicyA.sphere_ray_intersect s (Vec3 #0 #0 #0) (Vec3 #0 #1 #0) = None)
         PolicyA.spheres /\
  PolicyA.cast_ray 1 (Vec3 #0 #0 #0) (Vec3 #0 #1 #0) PolicyA.spheres PolicyA.lights 0
  = Some (Vec3 (decimal 2 10) (decimal 7 10) (decimal 8 10)).
Proof.
  assert (H : Forall (fun s => PolicyA.sphere_ray_intersect s (Vec3 #0 #0 #0)
                                 (Vec3 #0 #1 #0) = None) PolicyA.spheres)
    by (repeat (apply Forall_cons; [vm_compute; reflexivity|]); apply Forall_nil).
  split; [exact H|].
  apply (cast_ray_background powf_square). right. left. exact H.
Defined.

(** A sphere of radius 1 centred 2000 away on the axis of the ray is
    intersected at 1999 and reported as no hit. *)
Lemma scene_intersect_cutoff_witness :
  let far := PolicyA.Sphere (Vec3 #0 #0 #(-2000)) #1 PolicyA.ivory in
  PolicyA.nearest_intersection (Vec3 #0 #0 #0) (Vec3 #0 #0 #(-1)) [far] far #1999 /\
  (#1000 <=? #1999) = true /\
  PolicyA.scene_intersect (Vec3 #0 #0 #0) (Vec3 #0 #0 #(-1)) [far] = None.
Proof.
  intros far.
  assert (H : PolicyA.nearest_intersection (Vec3 #0 #0 #0) (Vec3 #0 #0 #(-1))
                [far] far #1999).
  { split; [now left|]. split; [vm_compute; reflexivity|].
    intros s' t' [<- | []] Hs'. vm_compute in Hs'. injection Hs' as <-.
    vm_compute. reflexivity. }
  split; [exact H|]. split; [vm_compute; reflexivity|].
  apply (proj2 (scene_intersect_cutoff powf_square _ _ _) far #1999 H).
  vm_compute. reflexivity.
Defined.

(** The world of [main] and the ray through the centre of the image. *)
Lemma scene_resolution_nearest_witness :
  let r := PolicyB.Ray (Vec3 #0 #0 #0) (Vec3 #0 #0 #(-1)) in
  let l := [PolicyB.Sphere (Vec3 #0 #0 #(-1)) (decimal 5 10);
            PolicyB.Sphere (Vec3 #0 (- decimal 1005 10) #(-1)) #100] in
  (forall s, In s l -> PolicyB.ordered_roots s r) /\
  exists rho,
    PolicyB.world_hit (map PolicyB.sphere_hittable l) r (decimal 1 1000) infinity
    = Some rho /\
    (exists s, In s l /\
               PolicyB.sphere_hit s r (decimal 1 1000) infinity = Some rho) /\
    forall s' rho', In s' l ->
      PolicyB.sphere_hit s' r (decimal 1 1000) infinity = Some rho' ->
      (PolicyB.distance rho <=? PolicyB.distance rho') = true.
Proof.
  intros r l.
  assert (H : forall s, In s l -> PolicyB.ordered_roots s r).
  { intros s [<- | [<- | []]] root1 root2 Hr; run_in Hr.
    - injection Hr as <- <-. vm_compute. reflexivity.
    - discriminate Hr. }
  split; [exact H|].
  pose proof (proj2 (scene_resolution_nearest powf_square) r (decimal 1 1000)
                infinity l H) as T.
  destruct (PolicyB.world_hit (map PolicyB.sphere_hittable l) r (decimal 1 1000)
                              infinity) as [rho|] eqn:E.
  - exists rho. split; [reflexivity|exact T].
  - run_in E. discriminate E.
Defined.

(** C2, counterexample. A sphere far enough for its discriminant to
    overflow to NaN, placed behind a sphere hit at distance 0.5: its root
    is NaN, passes the narrowed interval, and [world::hit] returns it. *)
Lemma scene_resolution_returns_nan_hit :
  let r := PolicyB.Ray (Vec3 #0 #0 #0) (Vec3 #0 #0 #(-1)) in
  let near := PolicyB.Sphere (Vec3 #0 #0 #(-1)) (decimal 5 10) in
  let far := PolicyB.Sphere (Vec3 #0 #0 (- #(10 ^ 30))) #1 in
  exists rho rho_near,
    PolicyB.world_hit (map PolicyB.sphere_hittable [near; far]) r
                      (decimal 1 1000) infinity = Some rho /\
    PolicyB.sphere_hit near r (decimal 1 1000) infinity = Some rho_near /\
    PolicyB.distance rho_near = decimal 5 10 /\
    is_nan (PolicyB.distance rho) = true /\
    (PolicyB.distance rho <=? PolicyB.distance rho_near) = false.
Proof.
  intros r near far. eexists. eexists.
  split; [run; reflexivity|]. split; [run; reflexivity|]. repeat split.
Qed.

(** A ray of zero direction from the origin against the first sphere of
    [main]. *)
Lemma sphere_intersection_degenerate_witness :
  let s := PolicyB.Sphere (Vec3 #0 #0 #(-1)) (decimal 5 10) in
  let o := Vec3 #0 #0 #0 in
  let dir := Vec3 #0 #0 #0 in
  (forall a, is_zero a = true -> powf_square a #2 = S754_zero false) /\
  exists rho, PolicyB.sphere_hit s (PolicyB.Ray o dir) (decimal 1 1000) infinity
              = Some rho /\ is_nan (PolicyB.distance rho) = true.
Proof.
  intros s o dir.
  assert (H : forall a, is_zero a = true -> powf_square a #2 = S754_zero false)
    by (intros [[]|[]| |[] ? ?] Ha; try discriminate Ha; reflexivity).
  split; [exact H|].
  destruct (sphere_intersection_degenerate powf_square) as (_ & _ & _ & _ & Hz).
  destruct (Hz s o dir (decimal 1 1000) infinity H) as (rho & Hrho & Hnan);
    try reflexivity.
  exists rho. split; [exact Hrho|]. now rewrite Hnan.
Defined.

(** C3, counterexample. [sphere::hit] reports a ray of zero direction as
    a hit, at distance NaN; [sphere_ray_intersect] reports a ray of zero
    direction that starts at the centre of [sphere1] as a hit at distance
    2, the radius. *)
Lemma sphere_hit_zero_direction_is_hit :
  (exists rho,
     PolicyB.sphere_hit (PolicyB.Sphere (Vec3 #0 #0 #(-1)) (decimal 5 10))
                        (PolicyB.Ray (Vec3 #0 #0 #0) (Vec3 #0 #0 #0))
                        (decimal 1 1000) infinity = Some rho /\
     is_nan (PolicyB.distance rho) = true) /\
  PolicyA.sphere_ray_intersect PolicyA.sphere1 (Vec3 #(-3) #0 #(-16)) (Vec3 #0 #0 #0)
  = Some #2.
Proof.
  split; [eexists; split; [run; reflexivity|reflexivity]|].
  vm_compute. reflexivity.
Qed.

(** Two spheres hit at distance 1 at a common point. *)
Lemma scene_resolution_permutation_witness :
  let o := Vec3 #0 #0 #0 in
  let d := Vec3 #0 #0 #(-1) in
  let l := [PolicyA.sphere1; PolicyA.sphere2] in
  let l' := [PolicyA.sphere2; PolicyA.sphere1] in
  Permutation l l' /\ PolicyA.no_ties o d l /\
  PolicyA.scene_intersect o d l = PolicyA.scene_intersect o d l'.
Proof.
  intros o d l l'.
  assert (Hp : Permutation l l') by apply perm_swap.
  assert (Hn : PolicyA.no_ties o d l).
  { intros s1 s2 t1 t2 [<- | [<- | []]] [<- | [<- | []]] H1 H2;
      run_in H1; run_in H2; try discriminate H1; try discriminate H2;
      injection H1 as <-; injection H2 as <-; reflexivity. }
  split; [exact Hp|]. split; [exact Hn|].
  exact (proj2 (proj1 (scene_resolution_permutation powf_square) o d l l' Hp) Hn).
Defined.

(** C8, counterexample. Two spheres touched at the same point at distance
    1, with different normals there: the C version keeps the first of the
    list, the C++ version the last. *)
Lemma scene_resolution_depends_on_order :
  let o := Vec3 #0 #0 #0 in
  let d := Vec3 #0 #0 #(-1) in
  let a1 := PolicyA.Sphere (Vec3 #0 #0 #(-2)) #1 PolicyA.ivory in
  let a2 := PolicyA.Sphere (Vec3 #0 #1 #(-1)) #1 PolicyA.ivory in
  let b1 := PolicyB.Sphere (Vec3 #0 #0 #(-2)) #1 in
  let b2 := PolicyB.Sphere (Vec3 #0 #1 #(-1)) #1 in
  Permutation [a1; a2] [a2; a1] /\
  PolicyA.scene_intersect o d [a1; a2] <> PolicyA.scene_intersect o d [a2; a1] /\
  Permutation [b1; b2] [b2; b1] /\
  PolicyB.world_hit (map PolicyB.sphere_hittable [b1; b2]) (PolicyB.Ray o d)
                    (decimal 1 1000) infinity
  <> PolicyB.world_hit (map PolicyB.sphere_hittable [b2; b1]) (PolicyB.Ray o d)
                       (decimal 1 1000) infinity.
Proof.
  intros o d a1 a2 b1 b2.
  split; [apply perm_swap|]. split.
  { intros H. apply (f_equal (option_map (fun out => y (PolicyA.out_N out)))) in H.
    vm_compute in H. discriminate H. }
  split; [apply perm_swap|].
  intros H. apply (f_equal (option_map (fun rho => y (PolicyB.normal rho)))) in H.
  vm_compute in H. discriminate H.
Qed.

(** Grazing incidence from the denser side: [eta = 2], [cosi = 0],
    [k = -3]. *)
Lemma vec3_refract_branches_witness :
  let I := Vec3 #0 #0 #1 in
  let N := Vec3 #0 #1 #0 in
  let cosi := - PolicyA.max #(-1) (PolicyA.min #1 (PolicyA.vec3_dot I N)) in
  let k := #1 - powf (#2 / #1) #2 * (#1 - powf cosi #2) in
  (cosi <? #0) = false /\ (k <? #0) = true /\
  PolicyA.vec3_refract 1 I N #1 #2 = Some (Vec3 #1 #0 #0).
Proof.
  intros I N cosi k.
  assert (Hc : (cosi <? #0) = false) by (vm_compute; reflexivity).
  assert (Hk : (k <? #0) = true) by (vm_compute; reflexivity).
  split; [exact Hc|]. split; [exact Hk|].
  exact (proj1 (proj2 (proj1 vec3_refract_branches (binary32 powf_square) 0%nat
                         I N #1 #2)) Hc Hk).
Defined.

(** C4, counterexample. Under total internal reflection the result is the
    constant (1, 0, 0), not what the call with the flipped normal and
    the swapped indices returns. *)
Lemma total_internal_reflection_is_not_flipped :
  let I := Vec3 #0 #0 #1 in
  let N := Vec3 #0 #1 #0 in
  let cosi := - PolicyA.max #(-1) (PolicyA.min #1 (PolicyA.vec3_dot I N)) in
  let k := #1 - powf (#2 / #1) #2 * (#1 - powf cosi #2) in
  (cosi <? #0) = false /\ (k <? #0) = true /\
  PolicyA.vec3_refract 2 I N #1 #2 = Some (Vec3 #1 #0 #0) /\
  PolicyA.vec3_refract 2 I N #1 #2
  <> PolicyA.vec3_refract 1 I (PolicyA.vec3_inverse N) #2 #1.
Proof.
  intros I N cosi k.
  split; [vm_compute; reflexivity|]. split; [vm_compute; reflexivity|].
  split; [run; reflexivity|].
  intros H. apply (f_equal (option_map x)) in H. vm_compute in H. discriminate H.
Qed.

(** The centre ray of the image in the world of [main], with no depth
    left. *)
Lemma raytrace_depth_exhausted_witness :
  (0 <= 0)%Z /\
  @PolicyB.raytrace _ _ steady_source 1 (PolicyB.Ray (Vec3 #0 #0 #0) (Vec3 #0 #0 #(-1)))
                    PolicyB.main_world 0 tt
  = Some (Vec3 #0 #0 #0, tt).
Proof.
  split; [lia|].
  apply (@raytrace_depth_exhausted (binary32 powf_square)
           (binary32_infinity powf_square) steady_source). lia.
Defined.

(** The centre ray of the image in an empty world. *)
Lemma raytrace_background_gradient_witness :
  let r := PolicyB.Ray (Vec3 #0 #0 #0) (Vec3 #0 #0 #(-1)) in
  let t := decimal 5 10 * (y (glm.normalize (PolicyB.direction r)) + #1) in
  (0 < 50)%Z /\
  @PolicyB.raytrace _ _ steady_source 1 r (PolicyB.world []) 50 tt
  = Some (glm.add (glm.scale (#1 - t) (Vec3 #1 #1 #1))
                  (glm.scale t (Vec3 (decimal 5 10) (decimal 7 10) #1)), tt).
Proof.
  intros r t. split; [lia|].
  apply (@raytrace_background_gradient (binary32 powf_square)
           (binary32_infinity powf_square) steady_source). lia.
Defined.


(** The ray through the centre of the image meets the small sphere
    of the scene of [main] at its front: at distance 0.5, at the point
    (0, 0, -0.5), with the normal (0, 0, 1) facing the camera. *)
Theorem centre_ray_hits_front :
  let r := PolicyB.get_ray PolicyB.camera_init (decimal 5 10) (decimal 5 10) in
  r = PolicyB.Ray (Vec3 #0 #0 #0) (Vec3 #0 #0 #(-1)) /\
  PolicyB.hit PolicyB.main_world r (decimal 1 1000) infinity
  = Some (PolicyB.HitRecord (decimal 5 10) (Vec3 #0 #0 (- decimal 5 10))
                            (Vec3 #0 #0 #1) true).
Proof.
  split; run; reflexivity.
Qed.

(** The pixel (3, 2). *)
Lemma pixel_index_in_bounds_witness :
  (0 <= 3 < 640)%Z /\ (0 <= 2 < 400)%Z /\
  (0 <= PolicyA.pixel_index 3 2 < 256000)%Z /\
  (0 <= PolicyB.pixel_index 3 2 < 256000)%Z.
Proof.
  assert (H1 : (0 <= 3 < 640)%Z) by lia. assert (H2 : (0 <= 2 < 400)%Z) by lia.
  split; [exact H1|]. split; [exact H2|].
  exact (proj1 (pixel_index_in_bounds 3 2 H1 H2)).
Defined.

(** The source that returns 0.5: the first candidate, the centre of the
    ball, is accepted. *)
Lemma random_in_unit_sphere_inside_witness :
  @PolicyB.random_in_unit_sphere _ steady_source 1 tt = Some (Vec3 #0 #0 #0, tt) /\
  (glm.dot (Vec3 #0 #0 #0) (Vec3 #0 #0 #0) >=? #1) = false.
Proof.
  assert (H : @PolicyB.random_in_unit_sphere _ steady_source 1 tt
              = Some (Vec3 #0 #0 #0, tt)) by (run; reflexivity).
  split; [exact H|].
  exact (@random_in_unit_sphere_inside (binary32 powf_square) steady_source 1 tt _ _ H).
Defined.

(** The zero vector with positive zeros, and [powf_square]. *)
Lemma vec3_normalize_zero_vector_witness :
  (forall s, is_zero (powf_square (S754_zero s) #2) = true) /\
  is_nan (x (PolicyA.vec3_normalize (Vec3 #0 #0 #0))) = true.
Proof.
  assert (Hp : forall s, is_zero (powf_square (S754_zero s) #2) = true)
    by (intros []; reflexivity).
  split; [exact Hp|].
  exact (proj1 (vec3_normalize_zero_vector powf_square false false false Hp)).
Defined.

(** A colour whose red channel is NaN. *)
Lemma pixel_bytes_nan_undefined_witness :
  let color := Vec3 S754_nan #0 #0 in
  is_nan (x color) = true /\
  @PolicyA.pixel_bytes _ (binary32_bytes powf_square) color = None.
Proof.
  intros color. split; [reflexivity|].
  apply (pixel_bytes_nan_undefined powf_square color). left. reflexivity.
Defined.

Lemma pixel_channel_nan_undefined_witness :
  let color := Vec3 S754_nan #0 #0 in
  is_nan (x color) = true /\
  @PolicyB.pixel_bytes _ (binary32_bytes powf_square) color = None.
Proof.
  intros color. split; [reflexivity|].
  apply (pixel_channel_nan_undefined powf_square color). left. reflexivity.
Defined.

(** The ray through the centre of the image. *)
Lemma get_ray_never_degenerate_witness :
  is_finite (decimal 5 10) = true /\
  z (PolicyB.direction (PolicyB.get_ray PolicyB.camera_init (decimal 5 10)
                                        (decimal 5 10))) = #(-1).
Proof.
  assert (H : is_finite (decimal 5 10) = true) by reflexivity.
  split; [exact H|].
  exact (proj2 (get_ray_never_degenerate powf_square _ _ H H)).
Defined.

(** The colour (2, 1, 0), whose largest channel is above 1. *)
Lemma pixel_bytes_defined_witness :
  let color := Vec3 #2 #1 #0 in
  nonnegative_number (x color) /\ nonnegative_number (y color) /\
  nonnegative_number (z color) /\
  exists r g b, @PolicyA.pixel_bytes _ (binary32_bytes powf_square) color
                = Some (r, g, b) /\ (0 <= r <= 255)%Z.
Proof.
  intros color.
  assert (Hx : nonnegative_number (x color)) by (repeat split; reflexivity).
  assert (Hy : nonnegative_number (y color)) by (repeat split; reflexivity).
  assert (Hz : nonnegative_number (z color)) by (repeat split; reflexivity).
  split; [exact Hx|]. split; [exact Hy|]. split; [exact Hz|].
  destruct (pixel_bytes_defined powf_square color Hx Hy Hz) as (r & g & b & H & Hr & _).
  exists r, g, b. split; [exact H|exact Hr].
Defined.

(** A channel that sums to 25 over the hundred samples: the averaged,
    gamma-corrected value is 0.5. *)
Lemma pixel_channel_defined_witness :
  let v := sqrtf (#25 * (#1 / #PolicyB.samples_per_pixel)) in
  is_nan v = false /\ is_binary32 v = true /\
  exists n, @PolicyB.pixel_channel _ (binary32_bytes powf_square) #25 = Some n /\
            (0 <= n <= 254)%Z.
Proof.
  intros v.
  assert (Hn : is_nan v = false) by (vm_compute; reflexivity).
  assert (Hv : is_binary32 v = true) by (vm_compute; reflexivity).
  split; [exact Hn|]. split; [exact Hv|].
  exact (pixel_channel_defined powf_square #25 Hn Hv).
Defined.

(** A ray at 37 degrees onto a horizontal surface, index 1.5 on both
    sides; in exact arithmetic one at 45 degrees. *)
Lemma vec3_refract_equal_indices_witness :
  let I := Vec3 (decimal 6 10) (- decimal 8 10) #0 in
  let N := Vec3 #0 #1 #0 in
  ((forall a, powf_square a (b32_of_Z 2) = SFmul 24 128 a a) /\
   is_finite (decimal 15 10) = true /\ is_zero (decimal 15 10) = false /\
   binary32_vector I /\ binary32_vector N /\
   exists v, PolicyA.vec3_refract 2 I N (decimal 15 10) (decimal 15 10) = Some v) /\
  ((forall a, powf_real a 2 = a * a)%R /\ (3 / 2 <> 0)%R /\
   PolicyA.vec3_refract 2 (@Vec3 (exact powf_real) 1 (-1) 0)%R
                          (@Vec3 (exact powf_real) 0 1 0)%R (3 / 2)%R (3 / 2)%R
   = Some (@Vec3 (exact powf_real) 1 (-1) 0)%R).
Proof.
  intros I N. split.
  - assert (Hp : forall a, powf_square a (b32_of_Z 2) = SFmul 24 128 a a)
      by (intros a; reflexivity).
    assert (Hf : is_finite (decimal 15 10) = true) by reflexivity.
    assert (Hz : is_zero (decimal 15 10) = false) by reflexivity.
    assert (HI : binary32_vector I) by (repeat split; reflexivity).
    assert (HN : binary32_vector N) by (repeat split; reflexivity).
    split; [exact Hp|]. split; [exact Hf|]. split; [exact Hz|].
    split; [exact HI|]. split; [exact HN|].
    destruct (proj1 vec3_refract_equal_indices powf_square Hp 0%nat I N _ Hf Hz HI HN)
      as (N' & _ & _ & E).
    eexists. exact E.
  - split; [exact powf_real_square|]. split; [lra|].
    apply (proj2 vec3_refract_equal_indices powf_real powf_real_square). lra.
Defined.

(** C7, counterexample. On binary32, with the index 1.5 on both sides:
    for the grazing ray [I = (1, -2^-13, 0)], of length 1 in float
    arithmetic, and the unit normal (0, 1, 0) the result is (1, 0, 0), off
    [I] by [2^-13]; and for [I = (1, -2^-26, 0)] with the normal
    (0, 8192, 0), which is not of unit length, the result is (1, 1, 0),
    at 45 degrees from [I]. *)
Lemma refraction_bends_in_binary32 :
  let I1 := Vec3 #1 (- (#1 / #8192)) #0 in
  let N1 := Vec3 #0 #1 #0 in
  let I2 := Vec3 #1 (- (#1 / #67108864)) #0 in
  let N2 := Vec3 #0 #8192 #0 in
  PolicyA.vec3_length I1 = #1 /\ PolicyA.vec3_length N1 = #1 /\
  PolicyA.vec3_refract 2 I1 N1 (decimal 15 10) (decimal 15 10) = Some (Vec3 #1 #0 #0) /\
  PolicyA.vec3_refract 2 I1 N1 (decimal 15 10) (decimal 15 10) <> Some I1 /\
  PolicyA.vec3_refract 2 I2 N2 (decimal 15 10) (decimal 15 10) = Some (Vec3 #1 #1 #0) /\
  PolicyA.vec3_refract 2 I2 N2 (decimal 15 10) (decimal 15 10) <> Some I2.
Proof.
  intros I1 N1 I2 N2.
  split; [vm_compute; reflexivity|]. split; [vm_compute; reflexivity|].
  split; [run; reflexivity|]. split.
  { intros H. apply (f_equal (option_map y)) in H. vm_compute in H. discriminate H. }
  split; [run; reflexivity|].
  intros H. apply (f_equal (option_map y)) in H. vm_compute in H. discriminate H.
Qed.

(** The pixel (3, 2), with the identity standing in for [tanf]. *)
Lemma pixel_direction_symmetric_witness :
  (0 <= 3 < PolicyA.WINDOW_WIDTH)%Z /\ (0 <= 2 < PolicyA.WINDOW_HEIGHT)%Z /\
  x (PolicyA.pixel_direction (fun a => a) (PolicyA.WINDOW_WIDTH - 1 - 3) 2)
  = - x (PolicyA.pixel_direction (fun a => a) 3 2).
Proof.
  assert (H1 : (0 <= 3 < PolicyA.WINDOW_WIDTH)%Z) by (unfold PolicyA.WINDOW_WIDTH; lia).
  assert (H2 : (0 <= 2 < PolicyA.WINDOW_HEIGHT)%Z) by (unfold PolicyA.WINDOW_HEIGHT; lia).
  split; [exact H1|]. split; [exact H2|].
  exact (proj1 (pixel_direction_symmetric powf_square (fun a => a) 3 2 H1 H2)).
Defined.

End Examples.

Section SpecularExamples.
(** The float model of this section is [binary32 powf_repeated]. *)
#[local] Hint Extern 0 FloatModel => exact (binary32 powf_repeated) : typeclass_instances.
Open Scope fl_scope.

(** The scene of [main] and its primary ray through the centre of the
    image, which meets the mirror sphere. *)
Lemma cast_ray_nonnegative_witness :
  let color := Vec3 (S754_finite false 8589935 (-26)) (S754_finite false 15032386 (-25))
                    (S754_finite false 8589935 (-24)) in
  (forall s, In s PolicyA.spheres ->
     PolicyA.nonnegative_material (PolicyA.sphere_material s)) /\
  Forall PolicyA.nonnegative_light PolicyA.lights /\
  (forall s a, In s PolicyA.spheres -> (a <? #0) = false ->
     (powf a (PolicyA.specular_exponent (PolicyA.sphere_material s)) <? #0) = false) /\
  PolicyA.cast_ray 7 (Vec3 #0 #0 #0) (Vec3 #0 #0 #(-1)) PolicyA.spheres PolicyA.lights 0
  = Some color /\
  (x color <? #0) = false /\ (y color <? #0) = false /\ (z color <? #0) = false.
Proof.
  intros color.
  assert (Hm : forall s, In s PolicyA.spheres ->
                 PolicyA.nonnegative_material (PolicyA.sphere_material s)).
  { intros s [<- | [<- | [<- | [<- | []]]]]; repeat split; reflexivity. }
  assert (Hl : Forall PolicyA.nonnegative_light PolicyA.lights)
    by (repeat (apply Forall_cons; [reflexivity|]); apply Forall_nil).
  assert (Hp : forall s a, In s PolicyA.spheres -> (a <? #0) = false ->
            (powf a (PolicyA.specular_exponent (PolicyA.sphere_material s)) <? #0) = false).
  { intros s a _ Ha.
    change (SFltb (powf_repeated a (PolicyA.specular_exponent (PolicyA.sphere_material s)))
                  (b32_of_Z 0) = false).
    rewrite SFltb_zero. apply powf_repeated_not_negative.
    rewrite <- SFltb_zero. exact Ha. }
  assert (Hc : PolicyA.cast_ray 7 (Vec3 #0 #0 #0) (Vec3 #0 #0 #(-1))
                 PolicyA.spheres PolicyA.lights 0 = Some color).
  { match goal with
    | |- ?a = _ =>
      let v := eval vm_compute in a in
      transitivity v; [vm_cast_no_check (@eq_refl _ v)|reflexivity]
    end. }
  split; [exact Hm|]. split; [exact Hl|]. split; [exact Hp|]. split; [exact Hc|].
  exact (cast_ray_nonnegative powf_repeated 7 _ _ _ _ 0%Z color Hm Hl Hp Hc).
Defined.

End SpecularExamples.


